(** * PIIDetectionService: credential rotation, retry policy and response parsing

    A shallow embedding of [src/services/PIIDetectionService.ts] (the
    JavaScript twin [pii-detection-service.js] has the same bodies):

    - the service object with its key list, current index, per-key usage
      objects and the [rateLimitResetTimes] map;
    - [rotateAPIKey], [findAvailableKey], [callGeminiWithRetry],
      [getUsageStats] as computations over an explicit world (object store,
      wall clock, upstream call counter, trace of sleeps and calls);
    - [parseDetectionResult] over a model of JavaScript values.

    Strings are [string]s of code units below 256; numbers that the code
    only counts with are [Z]; the values that [JSON.parse] produces keep
    their dynamic type. *)

From Stdlib Require Import Ascii String ZArith QArith Lia.
From stdpp Require Import base option list gmap strings.

Local Open Scope string_scope.
Local Open Scope list_scope.
Local Open Scope Z_scope.

(** ** JavaScript string primitives used by the service *)

Module JsString.

(** [s.startsWith(p)] *)
Fixpoint startsWith (p s : string) : bool :=
  match p, s with
  | EmptyString, _ => true
  | String a p', String b s' => if Ascii.eqb a b then startsWith p' s' else false
  | String _ _, EmptyString => false
  end.

(** [s.includes(sub)] *)
Fixpoint includes (sub s : string) : bool :=
  if startsWith sub s then true
  else match s with
       | EmptyString => false
       | String _ s' => includes sub s'
       end.

(** [s.substring(0, n)] for a non-negative integer [n]: the first [n]
    code units, or all of [s] when it is shorter. *)
Fixpoint substring0 (n : nat) (s : string) : string :=
  match n, s with
  | O, _ => EmptyString
  | S _, EmptyString => EmptyString
  | S n', String a s' => String a (substring0 n' s')
  end.

Fixpoint drop (n : nat) (s : string) : string :=
  match n, s with
  | O, _ => s
  | S _, EmptyString => EmptyString
  | S n', String _ s' => drop n' s'
  end.

Definition lower_char (a : ascii) : ascii :=
  let n := nat_of_ascii a in
  if ((65 <=? n)%nat && (n <=? 90)%nat) ||
     ((192 <=? n)%nat && (n <=? 222)%nat && negb (n =? 215)%nat)
  then ascii_of_nat (n + 32) else a.

(** [s.toLowerCase()] on code units below 256 *)
Fixpoint toLowerCase (s : string) : string :=
  match s with
  | EmptyString => EmptyString
  | String a s' => String (lower_char a) (toLowerCase s')
  end.

(** White space and line terminators below 256: TAB, LF, VT, FF, CR,
    SPACE, NBSP. *)
Definition is_space (a : ascii) : bool :=
  let n := nat_of_ascii a in
  ((9 <=? n)%nat && (n <=? 13)%nat) || (n =? 32)%nat || (n =? 160)%nat.

Fixpoint trimStart (s : string) : string :=
  match s with
  | EmptyString => EmptyString
  | String a s' => if is_space a then trimStart s' else s
  end.

Fixpoint trimEnd (s : string) : string :=
  match s with
  | EmptyString => EmptyString
  | String a s' =>
      match trimEnd s' with
      | EmptyString => if is_space a then EmptyString else String a EmptyString
      | t => String a t
      end
  end.

(** [s.trim()] *)
Definition trim (s : string) : string := trimEnd (trimStart s).

Definition newline : ascii := ascii_of_nat 10.

(** [s.replace(/fence\n?/g, '')]: every occurrence of [fence], scanning
    from the left, is removed together with one line feed that directly
    follows it.  [fuel] bounds the scan by the length of the text. *)
Fixpoint remove_fence (fence : string) (fuel : nat) (s : string) : string :=
  match fuel with
  | O => s
  | S fuel' =>
      match s with
      | EmptyString => EmptyString
      | String a s' =>
          if startsWith fence s then
            let rest := drop (String.length fence) s in
            match rest with
            | String b rest' =>
                if Ascii.eqb b newline then remove_fence fence fuel' rest'
                else remove_fence fence fuel' rest
            | EmptyString => EmptyString
            end
          else String a (remove_fence fence fuel' s')
      end
  end.

End JsString.

(** ** Errors and the upstream endpoint *)

(** A thrown JavaScript error as far as the service inspects it:
    [error.message] and [error.status]. *)
Record JsError := mkError {
  message : option string;
  status : option Z
}.

Definition Error (msg : string) : JsError := mkError (Some msg) None.

(** Reading a property of [undefined]. *)
Definition TypeError : JsError :=
  Error "Cannot read properties of undefined".

Definition AllKeysRateLimited : JsError :=
  Error "All API keys are currently rate limited. Please try again later.".

(** What one [model.generateContent(content)] round trip does: it takes
    [elapsed] milliseconds and either yields the response text or throws. *)
Inductive Reply :=
  | Responds (text : string)
  | Fails (e : JsError).

Record Outcome := mkOutcome {
  elapsed : Z;
  reply : Reply
}.

(** ** Objects of the service *)

Record PIIDetectionConfig := mkConfig {
  maxRetries : Z;
  retryDelay : Z
}.

(** One element of [keyUsageStats]. [lastUsed] holds the clock reading
    whose ISO rendering the code stores. *)
Record KeyUsageStats := mkStats {
  requests : Z;
  errors : Z;
  lastUsed : option Z;
  rateLimitHits : Z
}.

(** One element of the array that [getUsageStats] returns; [spread] are
    the properties copied by [...this.keyUsageStats[index]], none when that
    element is [undefined]. *)
Record UsageStatsResponse := mkUsage {
  keyIndex : nat;
  keyPreview : string;
  isCurrent : bool;
  spread : option KeyUsageStats
}.

(** Heap-allocated objects are addressed by their position in the store. *)
Abbreviation loc := nat (only parsing).

Inductive Object :=
  | ObjStats (s : KeyUsageStats)
  | ObjUsage (u : UsageStatsResponse).

Record PIIDetectionService := mkService {
  apiKeys : list string;
  currentKeyIndex : nat;
  keyUsageStats : list loc;
  config : PIIDetectionConfig;
  rateLimitResetTimes : gmap nat Z;
  (** the key that [genAI] and [model] were built from; [None] is
      [undefined] *)
  model : option string
}.

Inductive Event :=
  | EvCall (key : option string)
  | EvSleep (ms : Z).

Record World := mkWorld {
  this : PIIDetectionService;
  heap : list Object;
  clock : Z;
  calls : nat;
  trace : list Event
}.

Definition set_this (f : PIIDetectionService -> PIIDetectionService) (w : World) : World :=
  mkWorld (f (this w)) (heap w) (clock w) (calls w) (trace w).

Definition set_heap (h : list Object) (w : World) : World :=
  mkWorld (this w) h (clock w) (calls w) (trace w).

Definition set_clock (t : Z) (w : World) : World :=
  mkWorld (this w) (heap w) t (calls w) (trace w).

Definition set_currentKeyIndex (i : nat) (s : PIIDetectionService) : PIIDetectionService :=
  mkService (apiKeys s) i (keyUsageStats s) (config s) (rateLimitResetTimes s) (model s).

Definition set_rateLimitResetTimes (m : gmap nat Z) (s : PIIDetectionService) : PIIDetectionService :=
  mkService (apiKeys s) (currentKeyIndex s) (keyUsageStats s) (config s) m (model s).

Definition set_model (k : option string) (s : PIIDetectionService) : PIIDetectionService :=
  mkService (apiKeys s) (currentKeyIndex s) (keyUsageStats s) (config s) (rateLimitResetTimes s) k.

(** ** Computations: state, exceptions and a step budget *)

Inductive Result (A : Type) :=
  | Return (a : A) (w : World)
  | Throw (e : JsError) (w : World)
  | OutOfFuel.
Arguments Return {A} a w.
Arguments Throw {A} e w.
Arguments OutOfFuel {A}.

Definition M (A : Type) := World -> Result A.

Definition ret {A} (a : A) : M A := fun w => Return a w.
Definition throw {A} (e : JsError) : M A := fun w => Throw e w.

Definition bind {A B} (m : M A) (k : A -> M B) : M B :=
  fun w => match m w with
           | Return a w' => k a w'
           | Throw e w' => Throw e w'
           | OutOfFuel => OutOfFuel
           end.

(** [try { body } catch (error) { handler }] *)
Definition try_catch {A} (body : M A) (handler : JsError -> M A) : M A :=
  fun w => match body w with
           | Throw e w' => handler e w'
           | r => r
           end.

Declare Scope js_scope.
Delimit Scope js_scope with js.
Notation "x <- m ;; k" := (bind m (fun x => k))
  (at level 100, m at next level, right associativity) : js_scope.
Notation "m ;; k" := (bind m (fun _ => k))
  (at level 100, right associativity) : js_scope.
Local Open Scope js_scope.

Definition gets {A} (f : World -> A) : M A := fun w => Return (f w) w.
Definition modify (f : World -> World) : M unit := fun w => Return tt (f w).
Definition when (b : bool) (m : M unit) : M unit := if b then m else ret tt.

(** [Date.now()] *)
Definition Date_now : M Z := gets clock.

(** The time after which a [setTimeout(resolve, ms)] fires: the runtime
    sets a delay below 1 or above [2^31 - 1] to 1. *)
Definition timer_delay (ms : Z) : Z :=
  if (ms <? 1) || (2147483647 <? ms) then 1 else ms.

(** [await this.sleep(ms)]: a promise that a timer resolves. *)
Definition sleep (ms : Z) : M unit :=
  modify (fun w => mkWorld (this w) (heap w) (clock w + timer_delay ms) (calls w)
                           (trace w ++ [EvSleep ms])).

(** [this.keyUsageStats[i].field = f(...)]: a [TypeError] when the array
    has no element [i]. *)
Definition update_stats (i : nat) (f : KeyUsageStats -> KeyUsageStats) : M unit :=
  fun w =>
    match keyUsageStats (this w) !! i with
    | Some l =>
        match heap w !! l with
        | Some (ObjStats s) => Return tt (set_heap (<[l := ObjStats (f s)]> (heap w)) w)
        | _ => Throw TypeError w
        end
    | None => Throw TypeError w
    end.

Definition incr_requests (s : KeyUsageStats) : KeyUsageStats :=
  mkStats (requests s + 1) (errors s) (lastUsed s) (rateLimitHits s).
Definition incr_errors (s : KeyUsageStats) : KeyUsageStats :=
  mkStats (requests s) (errors s + 1) (lastUsed s) (rateLimitHits s).
Definition set_lastUsed (t : Z) (s : KeyUsageStats) : KeyUsageStats :=
  mkStats (requests s) (errors s) (Some t) (rateLimitHits s).
Definition incr_rateLimitHits (s : KeyUsageStats) : KeyUsageStats :=
  mkStats (requests s) (errors s) (lastUsed s) (rateLimitHits s + 1).

(** ** The credential pool *)

(** [error.message?.includes(sub)]; [undefined] is falsy. *)
Definition message_includes (sub : string) (e : JsError) : bool :=
  match message e with
  | Some m => JsString.includes sub m
  | None => false
  end.

Definition isRateLimitError (error : JsError) : bool :=
  message_includes "429" error
  || message_includes "rate limit" error
  || message_includes "RESOURCE_EXHAUSTED" error
  || match status error with
     | Some s => s =? 429
     | None => false
     end.

Definition the_currentKeyIndex : M nat := gets (fun w => currentKeyIndex (this w)).
Definition the_config : M PIIDetectionConfig := gets (fun w => config (this w)).

(** [initializeClient()]: [genAI] and [model] are rebuilt from
    [apiKeys[currentKeyIndex]]. *)
Definition initializeClient : M unit :=
  modify (set_this (fun s => set_model (apiKeys s !! currentKeyIndex s) s)).

(** [rotateAPIKey()].  The remainder is taken by the number of keys, which
    the constructor guarantees to be positive. *)
Definition rotateAPIKey : M nat :=
  previousIndex <- the_currentKeyIndex;;
  modify (set_this (fun s =>
    set_currentKeyIndex ((currentKeyIndex s + 1) mod length (apiKeys s))%nat s));;
  update_stats previousIndex incr_rateLimitHits;;
  now <- Date_now;;
  modify (set_this (fun s =>
    set_rateLimitResetTimes (<[previousIndex := now + 60000]> (rateLimitResetTimes s)) s));;
  initializeClient;;
  the_currentKeyIndex.

(** [!resetTime || now > resetTime] for [resetTime = map.get(keyIndex)]:
    an absent entry is [undefined], and [0] is the one falsy number a
    stored sum can be. *)
Definition available (now : Z) (resetTime : option Z) : bool :=
  match resetTime with
  | None => true
  | Some r => (r =? 0) || (r <? now)
  end.

(** The [for] loop of [findAvailableKey], with [n] iterations left and
    loop variable [i]. *)
Fixpoint findAvailableKey_from (now : Z) (n i : nat) : M bool :=
  match n with
  | O => ret false
  | S n' =>
      fun w =>
        let s := this w in
        let keyIndex := ((currentKeyIndex s + i) mod length (apiKeys s))%nat in
        let resetTime := rateLimitResetTimes s !! keyIndex in
        if available now resetTime then
          (when (negb (keyIndex =? currentKeyIndex s)%nat)
             (modify (set_this (set_currentKeyIndex keyIndex));; initializeClient);;
           ret true) w
        else findAvailableKey_from now n' (S i) w
  end.

Definition findAvailableKey : M bool :=
  now <- Date_now;;
  n <- gets (fun w => length (apiKeys (this w)));;
  findAvailableKey_from now n 0.

(** ** The constructor *)

(** The two options of the configuration argument that the modelled
    methods read.  [key: config.key || d, ...config] leaves a supplied
    option as it is and fills in an absent one. *)
Record ConfigArg := mkConfigArg {
  arg_maxRetries : option Z;
  arg_retryDelay : option Z
}.

Definition default_config (c : ConfigArg) : PIIDetectionConfig :=
  mkConfig (default 3 (arg_maxRetries c)) (default 1000 (arg_retryDelay c)).

Definition fresh_stats : KeyUsageStats := mkStats 0 0 None 0.

Definition alloc (o : Object) : M loc :=
  fun w => Return (length (heap w)) (set_heap (heap w ++ [o]) w).

(** [apiKeys.map(() => ({ requests: 0, ... }))] *)
Fixpoint alloc_stats (keys : list string) : M (list loc) :=
  match keys with
  | [] => ret []
  | _ :: rest =>
      l <- alloc (ObjStats fresh_stats);;
      ls <- alloc_stats rest;;
      ret (l :: ls)
  end.

Definition constructor (keys : list string) (c : ConfigArg) : M unit :=
  match keys with
  | [] => throw (Error "At least one API key is required")
  | _ =>
      stats <- alloc_stats keys;;
      modify (set_this (fun _ => mkService keys 0 stats (default_config c) ∅ None));;
      initializeClient
  end.

(** ** Dispatch with retries *)

Section Dispatch.

(** The upstream endpoint: the outcome of the [n]-th call issued. *)
Variable upstream : nat -> Outcome.

(** [await this.model.generateContent(content)] followed by
    [response.text()]. *)
Definition generateContent (content : string) : M string :=
  fun w =>
    let o := upstream (calls w) in
    let w' := mkWorld (this w) (heap w) (clock w + elapsed o) (S (calls w))
                      (trace w ++ [EvCall (model (this w))]) in
    match reply o with
    | Responds text => Return text w'
    | Fails e => Throw e w'
    end.

(** [callGeminiWithRetry(content, attempt)]; [attempt] starts at 1 and
    grows by one per recursive call, so the power of two has a
    non-negative exponent. *)
Fixpoint callGeminiWithRetry_loop (fuel : nat) (content : string) (attempt : Z)
  : M string :=
  match fuel with
  | O => fun _ => OutOfFuel
  | S fuel' =>
      try_catch
        (cur <- the_currentKeyIndex;;
         update_stats cur incr_requests;;
         cur <- the_currentKeyIndex;;
         now <- Date_now;;
         update_stats cur (set_lastUsed now);;
         generateContent content)
        (fun error =>
           cur <- the_currentKeyIndex;;
           update_stats cur incr_errors;;
           let other_errors : M string :=
             cfg <- the_config;;
             if attempt <=? maxRetries cfg then
               cfg <- the_config;;
               let backoffDelay := retryDelay cfg * 2 ^ (attempt - 1) in
               sleep backoffDelay;;
               when (1 <? attempt) (rotateAPIKey;; ret tt);;
               callGeminiWithRetry_loop fuel' content (attempt + 1)
             else throw error in
           if isRateLimitError error then
             hasAvailableKey <- findAvailableKey;;
             cfg <- the_config;;
             if hasAvailableKey && (attempt <=? maxRetries cfg) then
               cfg <- the_config;;
               sleep (retryDelay cfg);;
               callGeminiWithRetry_loop fuel' content (attempt + 1)
             else if negb hasAvailableKey then
               throw AllKeysRateLimited
             else other_errors
           else other_errors)
  end.

(** The recursion stops once [attempt] exceeds [maxRetries]. *)
Definition retry_budget (w : World) (attempt : Z) : nat :=
  S (Z.to_nat (maxRetries (config (this w)) + 1 - attempt)).

Definition callGeminiWithRetry (content : string) (attempt : Z) : M string :=
  fun w => callGeminiWithRetry_loop (retry_budget w attempt) content attempt w.

End Dispatch.

(** ** Usage statistics *)

(** The object literal built for one key by the callback of
    [this.apiKeys.map]. *)
Definition usage_entry (key : string) (index : nat) : M loc :=
  fun w =>
    let s := this w in
    let stats :=
      match keyUsageStats s !! index with
      | Some l => match heap w !! l with
                  | Some (ObjStats st) => Some st
                  | _ => None
                  end
      | None => None
      end in
    alloc (ObjUsage (mkUsage index (JsString.substring0 8 key +:+ "...")
                             (index =? currentKeyIndex s)%nat stats)) w.

Fixpoint usage_entries (index : nat) (keys : list string) : M (list loc) :=
  match keys with
  | [] => ret []
  | key :: rest =>
      l <- usage_entry key index;;
      ls <- usage_entries (S index) rest;;
      ret (l :: ls)
  end.

Definition getUsageStats : M (list loc) :=
  keys <- gets (fun w => apiKeys (this w));;
  usage_entries 0 keys.

(** ** JavaScript values and the response parser *)

(** A number that [JSON.parse] can return.  The value of a literal is
    kept exactly; the two literals' values that are not rationals are
    listed. *)
Inductive JsNumber :=
  | Finite (q : Q)
  | NegZero
  | Infinity (negative : bool).

#[warnings="-register-all"]
Inductive JsValue :=
  | JUndefined
  | JNull
  | JBool (b : bool)
  | JNum (n : JsNumber)
  | JStr (s : string)
  | JArr (elements : list JsValue)
  | JObj (fields : list (string * JsValue)).

Definition num (z : Z) : JsValue := JNum (Finite (inject_Z z)).

(** [ToBoolean] *)
Definition truthy (v : JsValue) : bool :=
  match v with
  | JUndefined | JNull => false
  | JBool b => b
  | JNum (Finite q) => negb (Qnum q =? 0)
  | JNum NegZero => false
  | JNum (Infinity _) => true
  | JStr s => negb (String.eqb s EmptyString)
  | JArr _ | JObj _ => true
  end.

(** [a || b] *)
Definition js_or (a b : JsValue) : JsValue := if truthy a then a else b.

(** The value bound to [name] by the fields of an object literal in
    source order: a later duplicate overrides an earlier one. *)
Fixpoint own_property (name : string) (fields : list (string * JsValue)) : option JsValue :=
  match fields with
  | [] => None
  | (k, v) :: rest =>
      match own_property name rest with
      | Some v' => Some v'
      | None => if String.eqb k name then Some v else None
      end
  end.

(** [parsed.name] for the property names that [parseDetectionResult]
    reads, none of which a prototype defines: [None] is the [TypeError]
    of reading a property of [null] or [undefined]. *)
Definition get_prop (parsed : JsValue) (name : string) : option JsValue :=
  match parsed with
  | JUndefined | JNull => None
  | JObj fields => Some (default JUndefined (own_property name fields))
  | _ => Some JUndefined
  end.

Record DetectionResult := mkDetection {
  hasPII : JsValue;
  confidence : JsValue;
  detectedItems : JsValue;
  reasoning : JsValue;
  riskLevel : JsValue;
  imageContainsText : JsValue;
  rawResponse : JsValue
}.

Definition strip_fences (s : string) : string :=
  JsString.remove_fence "```" (String.length s)
    (JsString.remove_fence "```json" (String.length s) s).

(** The text handed to [JSON.parse]. *)
Definition cleanedText (responseText : string) : string :=
  JsString.trim (strip_fences (JsString.trim responseText)).

Definition hasPIIIndicators (responseText : string) : bool :=
  let lower := JsString.toLowerCase responseText in
  JsString.includes "detected" lower
  || JsString.includes "found" lower
  || JsString.includes "phone" lower
  || JsString.includes "email" lower.

(** The object returned by the [catch] block. *)
Definition fallback_result (responseText : string) : DetectionResult :=
  mkDetection (JBool (hasPIIIndicators responseText))
              (num 50)
              (JArr [])
              (JStr "Failed to parse response, flagging as potential PII")
              (JStr "medium")
              JUndefined
              (JStr responseText).

Section Parser.

(** [JSON.parse]; [None] is a thrown [SyntaxError]. *)
Variable JSON_parse : string -> option JsValue.

(** The [try] block; [None] is any exception raised inside it. *)
Definition parse_try (responseText : string) : option DetectionResult :=
  parsed ← JSON_parse (cleanedText responseText);
  p_hasPII ← get_prop parsed "hasPII";
  p_confidence ← get_prop parsed "confidence";
  p_detectedItems ← get_prop parsed "detectedItems";
  p_reasoning ← get_prop parsed "reasoning";
  p_riskLevel ← get_prop parsed "riskLevel";
  p_imageContainsText ← get_prop parsed "imageContainsText";
  Some (mkDetection (js_or p_hasPII (JBool false))
                    (js_or p_confidence (num 0))
                    (js_or p_detectedItems (JArr []))
                    (js_or p_reasoning (JStr EmptyString))
                    (js_or p_riskLevel (JStr "low"))
                    p_imageContainsText
                    JUndefined).

Definition parseDetectionResult (responseText : string) : DetectionResult :=
  match parse_try responseText with
  | Some result => result
  | None => fallback_result responseText
  end.

End Parser.

(** ** A reference [JSON.parse]

    The JSON grammar (ECMA-404) on texts of code units below 256: white
    space, the three literals, numbers with fraction and exponent, strings
    with escapes, arrays and objects.  A [\u] escape of a code unit above
    255 has no counterpart in [string] and is refused.  Number values are
    exact, so a literal is not rounded to a double and one beyond the range
    of a double is not turned into an infinity or a zero.  On texts without
    such escapes whose numbers are doubles it agrees with the runtime's
    [JSON.parse].  The properties of the parser are stated for every
    [JSON_parse]; this one only evaluates them on sample texts. *)

Module JsonRef.

Definition is_ws (c : ascii) : bool :=
  (c =? " ")%char || (c =? "009")%char || (c =? "010")%char || (c =? "013")%char.

Fixpoint skip_ws (s : string) : string :=
  match s with
  | String c s' => if is_ws c then skip_ws s' else s
  | EmptyString => s
  end.

Definition digit_of (c : ascii) : option Z :=
  let n := nat_of_ascii c in
  if ((48 <=? n)%nat && (n <=? 57)%nat) then Some (Z.of_nat (n - 48)) else None.

Definition hex_of (c : ascii) : option nat :=
  let n := nat_of_ascii c in
  if ((48 <=? n)%nat && (n <=? 57)%nat) then Some (n - 48)%nat
  else if ((65 <=? n)%nat && (n <=? 70)%nat) then Some (n - 55)%nat
  else if ((97 <=? n)%nat && (n <=? 102)%nat) then Some (n - 87)%nat
  else None.

(** Reads a run of digits: the number read so far, how many digits were
    read, and the rest of the text. *)
Fixpoint digits (acc : Z) (count : nat) (s : string) : Z * nat * string :=
  match s with
  | String c s' =>
      match digit_of c with
      | Some d => digits (10 * acc + d) (S count) s'
      | None => (acc, count, s)
      end
  | EmptyString => (acc, count, s)
  end.

Definition scale (m e : Z) : Q :=
  if 0 <=? e then inject_Z (m * 10 ^ e)
  else Qmake m (Z.to_pos (10 ^ (- e))).

Definition parse_number (s : string) : option (JsValue * string) :=
  let '(negative, s1) :=
    match s with
    | String "-"%char r => (true, r)
    | _ => (false, s)
    end in
  match s1 with
  | String c r =>
      match digit_of c with
      | None => None
      | Some d =>
          let '(int_part, s2) :=
            if (c =? "0")%char then (0, r)
            else let '(m, _, s2) := digits 0 0 s1 in (m, s2) in
          let frac :=
            match s2 with
            | String "."%char r2 =>
                let '(m, k, s3) := digits int_part 0 r2 in
                if (k =? 0)%nat then None else Some (m, Z.of_nat k, s3)
            | _ => Some (int_part, 0, s2)
            end in
          match frac with
          | None => None
          | Some (m, k, s3) =>
              let exponent :=
                match s3 with
                | String e r3 =>
                    if (e =? "e")%char || (e =? "E")%char then
                      let '(eneg, r4) :=
                        match r3 with
                        | String "-"%char r4 => (true, r4)
                        | String "+"%char r4 => (false, r4)
                        | _ => (false, r3)
                        end in
                      let '(x, n, s4) := digits 0 0 r4 in
                      if (n =? 0)%nat then None
                      else Some (if eneg then - x else x, s4)
                    else Some (0, s3)
                | EmptyString => Some (0, s3)
                end in
              match exponent with
              | None => None
              | Some (x, s4) =>
                  let value :=
                    if m =? 0 then (if negative then NegZero else Finite 0)
                    else Finite (scale (if negative then - m else m) (x - k)) in
                  Some (JNum value, s4)
              end
          end
      end
  | EmptyString => None
  end.

Definition dquote : ascii := ascii_of_nat 34.

(** The characters of a string literal after its opening quote. *)
Fixpoint parse_chars (s : string) : option (string * string) :=
  match s with
  | EmptyString => None
  | String "\"%char (String e rest) =>
      let simple (c : ascii) :=
        match parse_chars rest with
        | Some (t, r) => Some (String c t, r)
        | None => None
        end in
      if (e =? dquote)%char then simple dquote
      else if (e =? "\")%char then simple "\"%char
      else if (e =? "/")%char then simple "/"%char
      else if (e =? "b")%char then simple "008"%char
      else if (e =? "f")%char then simple "012"%char
      else if (e =? "n")%char then simple "010"%char
      else if (e =? "r")%char then simple "013"%char
      else if (e =? "t")%char then simple "009"%char
      else if (e =? "u")%char then
        match rest with
        | String h1 (String h2 (String h3 (String h4 rest'))) =>
            match hex_of h1, hex_of h2, hex_of h3, hex_of h4 with
            | Some 0%nat, Some 0%nat, Some a, Some b =>
                match parse_chars rest' with
                | Some (t, r) => Some (String (ascii_of_nat (16 * a + b)) t, r)
                | None => None
                end
            | _, _, _, _ => None
            end
        | _ => None
        end
      else None
  | String "\"%char EmptyString => None
  | String c rest =>
      if (c =? dquote)%char then Some (EmptyString, rest)
      else if (nat_of_ascii c <? 32)%nat then None
      else match parse_chars rest with
           | Some (t, r) => Some (String c t, r)
           | None => None
           end
  end.

Fixpoint parse_value (fuel : nat) (s : string) : option (JsValue * string) :=
  match fuel with
  | O => None
  | S fuel' =>
      let s := skip_ws s in
      match s with
      | EmptyString => None
      | String c rest =>
          if (c =? "{")%char then
            match skip_ws rest with
            | String "}"%char r => Some (JObj [], r)
            | _ => match parse_members fuel' rest with
                   | Some (fs, r) => Some (JObj fs, r)
                   | None => None
                   end
            end
          else if (c =? "[")%char then
            match skip_ws rest with
            | String "]"%char r => Some (JArr [], r)
            | _ => match parse_elements fuel' rest with
                   | Some (vs, r) => Some (JArr vs, r)
                   | None => None
                   end
            end
          else if (c =? dquote)%char then
            match parse_chars rest with
            | Some (t, r) => Some (JStr t, r)
            | None => None
            end
          else if JsString.startsWith "true" s then Some (JBool true, JsString.drop 4 s)
          else if JsString.startsWith "false" s then Some (JBool false, JsString.drop 5 s)
          else if JsString.startsWith "null" s then Some (JNull, JsString.drop 4 s)
          else parse_number s
      end
  end
with parse_elements (fuel : nat) (s : string) : option (list JsValue * string) :=
  match fuel with
  | O => None
  | S fuel' =>
      match parse_value fuel' s with
      | Some (v, r) =>
          match skip_ws r with
          | String ","%char r' =>
              match parse_elements fuel' r' with
              | Some (vs, r'') => Some (v :: vs, r'')
              | None => None
              end
          | String "]"%char r' => Some ([v], r')
          | _ => None
          end
      | None => None
      end
  end
with parse_members (fuel : nat) (s : string) : option (list (string * JsValue) * string) :=
  match fuel with
  | O => None
  | S fuel' =>
      match skip_ws s with
      | String q r0 =>
          if negb (q =? dquote)%char then None else
          match parse_chars r0 with
          | Some (k, r1) =>
              match skip_ws r1 with
              | String ":"%char r2 =>
                  match parse_value fuel' r2 with
                  | Some (v, r3) =>
                      match skip_ws r3 with
                      | String ","%char r4 =>
                          match parse_members fuel' r4 with
                          | Some (fs, r5) => Some ((k, v) :: fs, r5)
                          | None => None
                          end
                      | String "}"%char r4 => Some ([(k, v)], r4)
                      | _ => None
                      end
                  | None => None
                  end
              | _ => None
              end
          | None => None
          end
      | _ => None
      end
  end.

(** JSON text written with apostrophes where the text has double
    quotes. *)
Fixpoint text_of (s : string) : string :=
  match s with
  | EmptyString => EmptyString
  | String c s' => String (if (c =? "'")%char then dquote else c) (text_of s')
  end.

Definition JSON_parse (text : string) : option JsValue :=
  match parse_value (2 * String.length text + 2) text with
  | Some (v, rest) =>
      match skip_ws rest with
      | EmptyString => Some v
      | _ => None
      end
  | None => None
  end.

End JsonRef.

(** ** States reached by the individual steps

    Each definition names the world that one statement of the source
    leaves behind when it does not throw; the lemmas below relate them to
    the computations. *)

(** [this.keyUsageStats[i]] as a value. *)
Definition stats_of (w : World) (i : nat) : option KeyUsageStats :=
  match keyUsageStats (this w) !! i with
  | Some l => match heap w !! l with
              | Some (ObjStats s) => Some s
              | _ => None
              end
  | None => None
  end.

Definition upd_stats (i : nat) (f : KeyUsageStats -> KeyUsageStats) (w : World) : World :=
  match keyUsageStats (this w) !! i with
  | Some l => match heap w !! l with
              | Some (ObjStats s) => set_heap (<[l := ObjStats (f s)]> (heap w)) w
              | _ => w
              end
  | None => w
  end.

(** After the two bookkeeping statements that open the [try] block. *)
Definition record_attempt (w : World) : World :=
  let c := currentKeyIndex (this w) in
  upd_stats c (set_lastUsed (clock w)) (upd_stats c incr_requests w).

(** After the upstream round trip with outcome [o]. *)
Definition issue_call (o : Outcome) (w : World) : World :=
  mkWorld (this w) (heap w) (clock w + elapsed o) (S (calls w))
          (trace w ++ [EvCall (model (this w))]).

(** After [errors++] in the [catch] block. *)
Definition record_error (w : World) : World :=
  upd_stats (currentKeyIndex (this w)) incr_errors w.

(** The world in which a failed attempt is classified. *)
Definition after_failure (o : Outcome) (w : World) : World :=
  record_error (issue_call o (record_attempt w)).

(** After [await this.sleep(ms)]. *)
Definition slept (ms : Z) (w : World) : World :=
  mkWorld (this w) (heap w) (clock w + timer_delay ms) (calls w) (trace w ++ [EvSleep ms]).

Definition next_index (s : PIIDetectionService) : nat :=
  ((currentKeyIndex s + 1) mod length (apiKeys s))%nat.

(** After [rotateAPIKey()]. *)
Definition rotated (w : World) : World :=
  let s := this w in
  let p := currentKeyIndex s in
  set_this (fun _ =>
      mkService (apiKeys s) (next_index s) (keyUsageStats s) (config s)
                (<[p := clock w + 60000]> (rateLimitResetTimes s))
                (apiKeys s !! next_index s))
    (upd_stats p incr_rateLimitHits w).

(** After [findAvailableKey()] has settled on key [k]. *)
Definition selected (k : nat) (w : World) : World :=
  if (k =? currentKeyIndex (this w))%nat then w
  else set_this (fun s => mkService (apiKeys s) k (keyUsageStats s) (config s)
                                    (rateLimitResetTimes s) (apiKeys s !! k)) w.

(** After the exponential backoff of the generic retry: the sleep, then
    the rotation that later attempts add. *)
Definition backed_off (attempt : Z) (w : World) : World :=
  let w' := slept (retryDelay (config (this w)) * 2 ^ (attempt - 1)) w in
  if 1 <? attempt then rotated w' else w'.

(** The key that the scan of [findAvailableKey] stops at, if any: the
    first available one among [n] keys from offset [i] after the current
    one, wrapping around. *)
Fixpoint scan (now : Z) (s : PIIDetectionService) (n i : nat) : option nat :=
  match n with
  | O => None
  | S n' =>
      let keyIndex := ((currentKeyIndex s + i) mod length (apiKeys s))%nat in
      if available now (rateLimitResetTimes s !! keyIndex) then Some keyIndex
      else scan now s n' (S i)
  end.

(** The state that the constructor establishes and every method keeps. *)
Definition is_stats (o : option Object) : Prop :=
  match o with
  | Some (ObjStats _) => True
  | _ => False
  end.

Record wf (w : World) : Prop := mkWf {
  wf_nonempty : (0 < length (apiKeys (this w)))%nat;
  wf_stats_length : length (keyUsageStats (this w)) = length (apiKeys (this w));
  wf_current : (currentKeyIndex (this w) < length (apiKeys (this w)))%nat;
  wf_distinct : NoDup (keyUsageStats (this w));
  wf_objects : Forall (fun l => is_stats (heap w !! l)) (keyUsageStats (this w));
  wf_model : model (this w) = apiKeys (this w) !! currentKeyIndex (this w)
}.

#[global] Instance is_stats_dec o : Decision (is_stats o).
Proof. destruct o as [[]|]; simpl; apply _. Defined.

#[global] Instance wf_dec w : Decision (wf w).
Proof.
  refine (cast_if (decide (
    (0 < length (apiKeys (this w)))%nat /\
    length (keyUsageStats (this w)) = length (apiKeys (this w)) /\
    (currentKeyIndex (this w) < length (apiKeys (this w)))%nat /\
    NoDup (keyUsageStats (this w)) /\
    Forall (fun l => is_stats (heap w !! l)) (keyUsageStats (this w)) /\
    model (this w) = apiKeys (this w) !! currentKeyIndex (this w))));
  [ destruct a as (?&?&?&?&?&?); by constructor
  | intros []; apply n; by repeat split ].
Defined.

(** ** Exercising the pool under a simulated clock *)

(** One [rotateAPIKey()] issued when the clock reads [t]. *)
Definition mark_at (t : Z) : M nat :=
  modify (set_clock t);; rotateAPIKey.

(** Consecutive [rotateAPIKey()] calls at the clock readings [ts]; the
    result lists the index that each call put into cooldown. *)
Fixpoint mark_all (ts : list Z) : M (list nat) :=
  match ts with
  | [] => ret []
  | t :: ts' =>
      marked <- the_currentKeyIndex;;
      mark_at t;;
      rest <- mark_all ts';;
      ret (marked :: rest)
  end.

(** ** Sample worlds and upstream behaviours *)

Definition blank : World :=
  mkWorld (mkService [] 0%nat [] (mkConfig 0 0) ∅ None) [] 1700000000000 0 [].

(** The world after [new PIIDetectionService(keys, c)] in [blank]. *)
Definition boot (keys : list string) (c : ConfigArg) : World :=
  match constructor keys c blank with
  | Return _ w => w
  | _ => blank
  end.

Definition defaults : ConfigArg := mkConfigArg None None.

Definition key_a : string := "AIzaSyA-sample-key-000000000000000000001".
Definition key_b : string := "AIzaSyB-sample-key-000000000000000000002".
Definition key_c : string := "AIzaSyC-sample-key-000000000000000000003".

Definition quota_error : JsError :=
  mkError (Some "[429 Too Many Requests] RESOURCE_EXHAUSTED") (Some 429).

Definition server_error : JsError :=
  mkError (Some "[500 Internal Server Error]") (Some 500).

Definition fails_with (e : JsError) : Outcome := mkOutcome 250 (Fails e).
Definition answers (text : string) : Outcome := mkOutcome 250 (Responds text).

(** The first [n] calls fail with [e], later ones answer [text]. *)
Definition failing_first (n : nat) (e : JsError) (text : string) : nat -> Outcome :=
  fun call => if (call <? n)%nat then fails_with e else answers text.

Definition sleeps (tr : list Event) : list Z :=
  omap (fun ev => match ev with EvSleep ms => Some ms | EvCall _ => None end) tr.

(** ** Statements that the properties below refute *)

Definition enumerated_riskLevel (v : JsValue) : Prop :=
  v = JStr "critical" \/ v = JStr "high" \/ v = JStr "medium" \/ v = JStr "low".

Definition in_confidence_range (v : JsValue) : Prop :=
  match v with
  | JNum (Finite q) => (0 <= q)%Q /\ (q <= 100)%Q
  | JNum NegZero => True
  | _ => False
  end.

(** Two numbers that [===] does not tell apart. *)
Definition same_number (a b : JsNumber) : Prop :=
  match a, b with
  | Finite p, Finite q => (p == q)%Q
  | NegZero, NegZero => True
  | NegZero, Finite q | Finite q, NegZero => (q == 0)%Q
  | Infinity s, Infinity s' => s = s'
  | _, _ => False
  end.

(** Whatever [JSON.parse] does not turn into an object goes through the
    fallback. *)
Definition fallback_unless_record (JSON_parse : string -> option JsValue) : Prop :=
  forall responseText,
    (forall fields, JSON_parse (cleanedText responseText) <> Some (JObj fields)) ->
    parseDetectionResult JSON_parse responseText = fallback_result responseText.

(** A record's confidence outside 0..100 and risk level outside the
    enumeration come back as [0] and ["low"]. *)
Definition coerces_out_of_range (JSON_parse : string -> option JsValue) : Prop :=
  forall responseText fields,
    JSON_parse (cleanedText responseText) = Some (JObj fields) ->
    let r := parseDetectionResult JSON_parse responseText in
    (forall v, own_property "confidence" fields = Some v ->
       ~ in_confidence_range v -> confidence r = num 0) /\
    (forall v, own_property "riskLevel" fields = Some v ->
       ~ enumerated_riskLevel v -> riskLevel r = JStr "low").

(** ** Totals over the pool *)

(** The usage object stored at [l], if there is one. *)
Definition stats_at (h : list Object) (l : nat) : option KeyUsageStats :=
  match h !! l with
  | Some (ObjStats s) => Some s
  | _ => None
  end.

(** The usage objects of the keys, in key order. *)
Definition stats_list (w : World) : list KeyUsageStats :=
  omap (stats_at (heap w)) (keyUsageStats (this w)).

(** A counter summed over all keys. *)
Definition total (counter : KeyUsageStats -> Z) (w : World) : Z :=
  foldr (fun s acc => counter s + acc) 0 (stats_list w).

(** How a finished dispatch that started at attempt [a] in [w] and ended
    in [w'] relates the two worlds; [failed] tells whether the last call
    failed. *)
Definition dispatch_delta (a : Z) (failed : bool) (w w' : World) : Prop :=
  let issued := Z.of_nat (calls w') - Z.of_nat (calls w) in
  config (this w') = config (this w) /\
  apiKeys (this w') = apiKeys (this w) /\
  1 <= issued <= Z.max 1 (maxRetries (config (this w)) + 2 - a) /\
  total requests w' = total requests w + issued /\
  total errors w' = total errors w + issued - (if failed then 0 else 1) /\
  0 <= total rateLimitHits w' - total rateLimitHits w <= issued - 1 /\
  Z.of_nat (length (sleeps (trace w'))) = Z.of_nat (length (sleeps (trace w))) + issued - 1.

(** The keys that the upstream calls of a trace went out on. *)
Definition calls_on (tr : list Event) : list (option string) :=
  omap (fun ev => match ev with EvCall k => Some k | EvSleep _ => None end) tr.

(** A run of events that starts with a call, ends with a call, and has
    exactly one sleep between two consecutive calls. *)
Fixpoint alternating (evs : list Event) : bool :=
  match evs with
  | [EvCall _] => true
  | EvCall _ :: EvSleep _ :: rest => alternating rest
  | _ => false
  end.

(** The time that a run of events takes when its first call is the
    [c]-th call issued: a call takes its round-trip time, a sleep the
    requested time when that lies between 1 and [2^31 - 1] milliseconds and
    one millisecond otherwise. *)
Fixpoint duration (upstream : nat -> Outcome) (c : nat) (evs : list Event) : Z :=
  match evs with
  | [] => 0
  | EvCall _ :: rest => elapsed (upstream c) + duration upstream (S c) rest
  | EvSleep ms :: rest =>
      (if (1 <=? ms) && (ms <=? 2147483647) then ms else 1) + duration upstream c rest
  end.

(** Attempt [a] of a dispatch starts in [w], its call goes out on [key]
    and fails, the dispatcher sleeps with [delay], and attempt [a + 1]
    starts in [w1]: the dispatch goes on from [w1] as a dispatch with the
    next attempt number, and the clock of [w1] reads the time at which the
    call came back plus the time of the sleep: [delay] milliseconds when
    [delay] lies between 1 and [2^31 - 1], one millisecond otherwise. *)
Definition attempt_step (upstream : nat -> Outcome) (content : string) (a : Z) (w : World)
    (key : option string) (delay : Z) (w1 : World) : Prop :=
  callGeminiWithRetry upstream content a w = callGeminiWithRetry upstream content (a + 1) w1 /\
  calls w1 = S (calls w) /\
  trace w1 = trace w ++ [EvCall key; EvSleep delay] /\
  clock w1 = clock w + elapsed (upstream (calls w)) +
             (if (1 <=? delay) && (delay <=? 2147483647) then delay else 1).

(** Attempt [a] of a dispatch starts in [w], its call goes out on [key]
    and fails with [e], and the dispatch throws [e] in [w']. *)
Definition last_attempt (upstream : nat -> Outcome) (content : string) (a : Z) (w : World)
    (key : option string) (e : JsError) (w' : World) : Prop :=
  callGeminiWithRetry upstream content a w = Throw e w' /\
  calls w' = S (calls w) /\
  trace w' = trace w ++ [EvCall key] /\
  clock w' = clock w + elapsed (upstream (calls w)).

(** The worlds in which the attempts of a dispatch start: [w] for the
    first one, then those of [ws]. *)
Definition chain_cons (w : World) (ws : nat -> World) : nat -> World :=
  fun j => match j with O => w | S j' => ws j' end.

(** ** Detection on top of the dispatcher *)

(** The options of [this.config] that [handleDetection] reads; like the
    rest of the configuration they are set by the constructor and never
    assigned afterwards. *)
Record ServiceOptions := mkOptions {
  enableLogging : bool;
  databaseUrl : option string;
  adminWebhook : option string
}.

(** [if (url)] for an option that is a string, [null] or [undefined]. *)
Definition is_set (url : option string) : bool :=
  match url with
  | Some s => negb (String.eqb s EmptyString)
  | None => false
  end.

Record DetectionData := mkData {
  data_type : string;
  data_userId : JsValue;
  data_content : JsValue;
  data_detection : DetectionResult;
  data_metadata : JsValue;
  data_timestamp : Z
}.

Record AdminWebhookPayload := mkPayload {
  alert : string;
  severity : JsValue;
  payload_userId : JsValue;
  payload_type : string;
  payload_detectedItems : JsValue;
  payload_timestamp : Z
}.

(** One [fetch(url, { method: 'POST', body: JSON.stringify(payload) })]. *)
Record Post := mkPost {
  post_url : string;
  post_body : AdminWebhookPayload
}.

(** What a [fetch] does: it takes [fetch_elapsed] milliseconds and either
    resolves with a response whose [ok] is the boolean, or rejects. *)
Record FetchOutcome := mkFetch {
  fetch_elapsed : Z;
  fetch_ok : option bool
}.

Section Detection.

Variable upstream : nat -> Outcome.
Variable JSON_parse : string -> option JsValue.

(** The webhook endpoint: the outcome of a post issued at a clock reading. *)
Variable webhook : Z -> Post -> FetchOutcome.

Variable options : ServiceOptions.

(** The fixed text of the template literal of [buildTextDetectionPrompt]
    before and after [${text}]. *)
Variables text_prompt_head text_prompt_tail : string.

Definition buildTextDetectionPrompt (text : string) : string :=
  text_prompt_head +:+ text +:+ text_prompt_tail.

(** [saveToDatabase] only logs. *)
Definition saveToDatabase (detectionData : DetectionData) : M unit := ret tt.

(** [notifyAdmin]: every exception of the post, and a response that is
    not [ok], end in the [catch] block, which only logs. *)
Definition notifyAdmin (detectionData : DetectionData) : M (list Post) :=
  let payload :=
    mkPayload "PII_DETECTED"
              (riskLevel (data_detection detectionData))
              (data_userId detectionData)
              (data_type detectionData)
              (detectedItems (data_detection detectionData))
              (data_timestamp detectionData) in
  match adminWebhook options with
  | Some url =>
      now <- Date_now;;
      let post := mkPost url payload in
      modify (set_clock (now + fetch_elapsed (webhook now post)));;
      ret [post]
  | None => ret []
  end.

(** [handleDetection]; the result lists the posts sent. *)
Definition handleDetection (detectionData : DetectionData) : M (list Post) :=
  when (is_set (databaseUrl options)) (saveToDatabase detectionData);;
  if is_set (adminWebhook options) then notifyAdmin detectionData else ret [].

(** [detectPIIInText(text, userId, metadata)]; the [catch] block logs and
    rethrows. *)
Definition detectPIIInText (text userId metadata : JsValue)
  : M (DetectionResult * list Post) :=
  match text with
  | JStr (String a s) =>
      let prompt := buildTextDetectionPrompt (String a s) in
      result <- callGeminiWithRetry upstream prompt 1;;
      let detection := parseDetectionResult JSON_parse result in
      if truthy (hasPII detection) then
        now <- Date_now;;
        posts <- handleDetection (mkData "text" userId text detection metadata now);;
        ret (detection, posts)
      else ret (detection, [])
  | _ => throw (Error "Valid text string is required")
  end.

(** ** The chat middleware *)

Record ChatMiddlewareConfig := mkChatConfig {
  blockOnDetection : bool;
  forwardToReceiver : bool;
  saveOriginalMessage : bool
}.

(** The configuration that the middleware's constructor sets. *)
Definition initial_chat_config : ChatMiddlewareConfig := mkChatConfig false true true.

(** A [Partial<ChatMiddlewareConfig>]. *)
Record ChatConfigPatch := mkPatch {
  patch_blockOnDetection : option bool;
  patch_forwardToReceiver : option bool;
  patch_saveOriginalMessage : option bool
}.

(** [updateConfig(newConfig)]: [{ ...this.config, ...newConfig }]. *)
Definition updateConfig (newConfig : ChatConfigPatch) (c : ChatMiddlewareConfig)
  : ChatMiddlewareConfig :=
  mkChatConfig (default (blockOnDetection c) (patch_blockOnDetection newConfig))
               (default (forwardToReceiver c) (patch_forwardToReceiver newConfig))
               (default (saveOriginalMessage c) (patch_saveOriginalMessage newConfig)).

(** [req.body] with the properties that the middleware reads and writes. *)
Record MessageRequestBody := mkBody {
  body_message : JsValue;
  body_senderId : JsValue;
  body_receiverId : JsValue;
  body_conversationId : JsValue;
  body_flagged : JsValue;
  body_flagReason : JsValue;
  body_detection : JsValue
}.

Record Request := mkRequest {
  body : MessageRequestBody;
  piiDetection : option DetectionResult
}.

(** How the middleware hands the request on: a response sent with
    [res.status(code).json(value)], or [next()]. *)
Inductive Handled :=
  | Responded (code : Z) (value : JsValue)
  | Next.

Definition set_flag (reason : string) (detection : JsValue) (req : Request) : Request :=
  let b := body req in
  mkRequest (mkBody (body_message b) (body_senderId b) (body_receiverId b)
                    (body_conversationId b) (JBool true) (JStr reason) detection)
            (piiDetection req).

(** [checkTextMessage(req, res, next)]; [req.body] is an object, and
    sending the response and calling [next] do not throw. *)
Definition checkTextMessage (cfg : ChatMiddlewareConfig) (req : Request)
  : M (Request * Handled * list Post) :=
  let b := body req in
  try_catch
    (if negb (truthy (body_message b)) || negb (truthy (body_senderId b)) then
       ret (req,
            Responded 400 (JObj [("error", JStr "Message and senderId are required")]),
            [])
     else
       found <- detectPIIInText (body_message b) (body_senderId b)
                  (JObj [("receiverId", body_receiverId b);
                         ("conversationId", body_conversationId b);
                         ("messageType", JStr "text")]);;
       let detection := fst found in
       let req1 := mkRequest (body req) (Some detection) in
       if truthy (hasPII detection) then
         if blockOnDetection cfg then
           ret (req1,
                Responded 403
                  (JObj [("success", JBool false);
                         ("error", JStr "Message blocked: Contains contact information");
                         ("message",
                          JStr "Please avoid sharing personal contact information in chat.");
                         ("detection",
                          JObj [("hasPII", JBool true);
                                ("riskLevel", riskLevel detection)])]),
                snd found)
         else
           ret (set_flag "PII_DETECTED"
                  (JObj [("hasPII", JBool true);
                         ("riskLevel", riskLevel detection);
                         ("confidence", confidence detection)])
                  req1,
                Next, snd found)
       else ret (req1, Next, snd found))
    (fun error =>
       ret (set_flag "PII_CHECK_ERROR" (body_detection (body req)) req, Next, [])).

End Detection.

(** ** Loading the keys at server start *)

(** The test that makes [loadAPIKeys] skip a key. *)
Definition placeholder (key : string) : bool :=
  JsString.includes "your-api-key" key
  || JsString.includes "your-key" key
  || (String.length (JsString.trim key) <? 20)%nat.

(** The [while (true)] loop of [loadAPIKeys]; [env !! k] is
    [process.env.GEMINI_API_KEY_k]. *)
Fixpoint loadAPIKeys_from (fuel : nat) (env : gmap nat string) (keyIndex : nat)
    (keys : list string) : option (list string) :=
  match fuel with
  | O => None
  | S fuel' =>
      match env !! keyIndex with
      | None => Some keys
      | Some key =>
          if String.eqb key EmptyString then Some keys
          else if placeholder key then loadAPIKeys_from fuel' env (S keyIndex) keys
          else loadAPIKeys_from fuel' env (S keyIndex) (keys ++ [key])
      end
  end.

(** The loop ends at the first index without a value; a finite
    environment has one among the first [size env + 1]. *)
Definition loadAPIKeys (env : gmap nat string) : option (list string) :=
  loadAPIKeys_from (S (size env)) env 1 [].

(** ** What a detection leaves behind *)

(** The post that reports detection [d] of a text of [userId] at clock
    reading [now] to [url]. *)
Definition report (url : string) (userId : JsValue) (d : DetectionResult) (now : Z) : Post :=
  mkPost url (mkPayload "PII_DETECTED" (riskLevel d) userId "text" (detectedItems d) now).

(** The posts of one [handleDetection] for a text: one to the configured
    webhook, or none. *)
Definition posts_for (options : ServiceOptions) (userId : JsValue) (d : DetectionResult)
    (now : Z) : list Post :=
  match adminWebhook options with
  | Some url => if is_set (adminWebhook options) then [report url userId d now] else []
  | None => []
  end.

(** The world after that [handleDetection]: the clock has moved by the
    time the post took. *)
Definition notified (webhook : Z -> Post -> FetchOutcome) (options : ServiceOptions)
    (userId : JsValue) (d : DetectionResult) (w : World) : World :=
  match posts_for options userId d (clock w) with
  | post :: _ => set_clock (clock w + fetch_elapsed (webhook (clock w) post)) w
  | [] => w
  end.

(** ** Fenced answers *)

(** An answer wrapped in a Markdown code fence: the opening fence with its
    language tag, a line feed, the body, a line feed, the closing fence. *)
Definition fenced (lang body : string) : string :=
  "```" +:+ lang +:+ String JsString.newline (body +:+ String JsString.newline "```").

(** The environment of a server start, by key number. *)
Definition sample_env : gmap nat string :=
  {[ 1%nat := key_a; 2%nat := "your-api-key-here"; 3%nat := key_b; 5%nat := key_c ]}.

(** ** Sample deployment *)

Definition sample_options : ServiceOptions :=
  mkOptions true None (Some "https://admin.example/pii-alerts").

(** A webhook that accepts every post after 30 ms. *)
Definition sample_webhook : Z -> Post -> FetchOutcome :=
  fun _ _ => mkFetch 30 (Some true).

Definition sample_request (message : JsValue) : Request :=
  mkRequest (mkBody message (JStr "user-1") (JStr "user-2") (JStr "conversation-1")
                    JUndefined JUndefined JUndefined)
            None.

Definition sample_metadata : JsValue :=
  JObj [("receiverId", JStr "user-2");
        ("conversationId", JStr "conversation-1");
        ("messageType", JStr "text")].

(** An upstream that answers every call with [text]. *)
Definition always (text : string) : nat -> Outcome := fun _ => answers text.

Definition sample_detect (upstream : nat -> Outcome) :=
  detectPIIInText upstream JsonRef.JSON_parse sample_webhook sample_options
                  "Analyze this message: " EmptyString.

Definition sample_check (upstream : nat -> Outcome) :=
  checkTextMessage upstream JsonRef.JSON_parse sample_webhook sample_options
                   "Analyze this message: " EmptyString.

Definition flagged_answer : string :=
  JsonRef.text_of "{'hasPII':true,'riskLevel':'high','confidence':90}".

(** * Properties *)

(** ** Projections of the step states *)

Lemma this_upd_stats i f w : this (upd_stats i f w) = this w.
Proof. unfold upd_stats. repeat case_match; reflexivity. Qed.

Lemma clock_upd_stats i f w : clock (upd_stats i f w) = clock w.
Proof. unfold upd_stats. repeat case_match; reflexivity. Qed.

Lemma calls_upd_stats i f w : calls (upd_stats i f w) = calls w.
Proof. unfold upd_stats. repeat case_match; reflexivity. Qed.

Lemma trace_upd_stats i f w : trace (upd_stats i f w) = trace w.
Proof. unfold upd_stats. repeat case_match; reflexivity. Qed.

Lemma length_heap_upd_stats i f w : length (heap (upd_stats i f w)) = length (heap w).
Proof. unfold upd_stats. repeat case_match; simpl; rewrite ?length_insert; reflexivity. Qed.

Lemma this_record_attempt w : this (record_attempt w) = this w.
Proof. unfold record_attempt. by rewrite !this_upd_stats. Qed.

Lemma clock_record_attempt w : clock (record_attempt w) = clock w.
Proof. unfold record_attempt. by rewrite !clock_upd_stats. Qed.

Lemma calls_record_attempt w : calls (record_attempt w) = calls w.
Proof. unfold record_attempt. by rewrite !calls_upd_stats. Qed.

Lemma trace_record_attempt w : trace (record_attempt w) = trace w.
Proof. unfold record_attempt. by rewrite !trace_upd_stats. Qed.

Lemma this_after_failure o w : this (after_failure o w) = this w.
Proof.
  unfold after_failure, record_error. rewrite this_upd_stats. simpl.
  apply this_record_attempt.
Qed.

Lemma clock_after_failure o w : clock (after_failure o w) = clock w + elapsed o.
Proof.
  unfold after_failure, record_error. rewrite clock_upd_stats. simpl.
  by rewrite clock_record_attempt.
Qed.

Lemma calls_after_failure o w : calls (after_failure o w) = S (calls w).
Proof.
  unfold after_failure, record_error. rewrite calls_upd_stats. simpl.
  by rewrite calls_record_attempt.
Qed.

Lemma trace_after_failure o w :
  trace (after_failure o w) = trace w ++ [EvCall (model (this w))].
Proof.
  unfold after_failure, record_error. rewrite trace_upd_stats. simpl.
  by rewrite trace_record_attempt, this_record_attempt.
Qed.

Lemma this_rotated w :
  this (rotated w) =
  mkService (apiKeys (this w)) (next_index (this w)) (keyUsageStats (this w))
            (config (this w))
            (<[currentKeyIndex (this w) := clock w + 60000]> (rateLimitResetTimes (this w)))
            (apiKeys (this w) !! next_index (this w)).
Proof. reflexivity. Qed.

Lemma clock_rotated w : clock (rotated w) = clock w.
Proof. unfold rotated. simpl. apply clock_upd_stats. Qed.

Lemma calls_rotated w : calls (rotated w) = calls w.
Proof. unfold rotated. simpl. apply calls_upd_stats. Qed.

Lemma trace_rotated w : trace (rotated w) = trace w.
Proof. unfold rotated. simpl. apply trace_upd_stats. Qed.

Lemma config_selected k w : config (this (selected k w)) = config (this w).
Proof. unfold selected. by case_match. Qed.

Lemma apiKeys_selected k w : apiKeys (this (selected k w)) = apiKeys (this w).
Proof. unfold selected. by case_match. Qed.

Lemma currentKeyIndex_selected k w : currentKeyIndex (this (selected k w)) = k.
Proof.
  unfold selected. case_match eqn:E; [|done].
  by apply Nat.eqb_eq in E.
Qed.

Lemma rateLimitResetTimes_selected k w :
  rateLimitResetTimes (this (selected k w)) = rateLimitResetTimes (this w).
Proof. unfold selected. by case_match. Qed.

Lemma heap_selected k w : heap (selected k w) = heap w.
Proof. unfold selected. by case_match. Qed.

Lemma clock_selected k w : clock (selected k w) = clock w.
Proof. unfold selected. by case_match. Qed.

Lemma calls_selected k w : calls (selected k w) = calls w.
Proof. unfold selected. by case_match. Qed.

Lemma trace_selected k w : trace (selected k w) = trace w.
Proof. unfold selected. by case_match. Qed.

(** ** The invariant is kept *)

Lemma is_stats_insert (h : list Object) (l l' : loc) s :
  is_stats (h !! l) -> is_stats (h !! l') -> is_stats (<[l := ObjStats s]> h !! l').
Proof.
  intros Hl Hl'. destruct (decide (l = l')) as [->|Hne].
  - rewrite list_lookup_insert_eq; [done|].
    apply lookup_lt_is_Some_1. destruct (h !! l'); [by eexists | done].
  - by rewrite list_lookup_insert_ne.
Qed.

Lemma wf_upd_stats i f w : wf w -> wf (upd_stats i f w).
Proof.
  intros [H1 H2 H3 H4 H5 H6]. unfold upd_stats.
  destruct (keyUsageStats (this w) !! i) as [l|] eqn:Hi; [|by constructor].
  destruct (heap w !! l) as [[s|u]|] eqn:Hl; try by constructor.
  constructor; simpl; try done.
  eapply Forall_impl; [exact H5|]. intros l' Hl'. simpl.
  apply is_stats_insert; [by rewrite Hl | done].
Qed.

Lemma wf_record_attempt w : wf w -> wf (record_attempt w).
Proof. intros H. unfold record_attempt. by do 2 apply wf_upd_stats. Qed.

Lemma wf_issue_call o w : wf w -> wf (issue_call o w).
Proof. intros []. by constructor. Qed.

Lemma wf_slept ms w : wf w -> wf (slept ms w).
Proof. intros []. by constructor. Qed.

Lemma wf_set_clock t w : wf w -> wf (set_clock t w).
Proof. intros []. by constructor. Qed.

Lemma wf_after_failure o w : wf w -> wf (after_failure o w).
Proof.
  intros H. unfold after_failure, record_error.
  by apply wf_upd_stats, wf_issue_call, wf_record_attempt.
Qed.

Lemma next_index_lt s : (0 < length (apiKeys s))%nat -> (next_index s < length (apiKeys s))%nat.
Proof. intros H. unfold next_index. apply Nat.mod_upper_bound. lia. Qed.

Lemma wf_rotated w : wf w -> wf (rotated w).
Proof.
  intros H. pose proof (wf_upd_stats (currentKeyIndex (this w)) incr_rateLimitHits w H) as H'.
  destruct H as [H1 H2 H3 H4 H5 H6], H' as [_ _ _ _ H5' _].
  rewrite this_upd_stats in H5'.
  constructor; simpl; try done.
  by apply next_index_lt.
Qed.

Lemma wf_selected k w : wf w -> (k < length (apiKeys (this w)))%nat -> wf (selected k w).
Proof.
  intros H Hk. unfold selected. case_match; [done|].
  destruct H. by constructor.
Qed.

(** ** The pool operations compute the step states *)

Lemma stats_of_is_Some w i :
  wf w -> (i < length (apiKeys (this w)))%nat -> is_Some (stats_of w i).
Proof.
  intros [H1 H2 H3 H4 H5 H6] Hi. unfold stats_of.
  destruct (lookup_lt_is_Some_2 (keyUsageStats (this w)) i) as [l Hl]; [lia|].
  rewrite Hl. rewrite Forall_lookup in H5. specialize (H5 _ _ Hl).
  destruct (heap w !! l) as [[]|]; simpl in H5; by eauto.
Qed.

Lemma update_stats_ok i f w :
  is_Some (stats_of w i) -> update_stats i f w = Return tt (upd_stats i f w).
Proof.
  unfold stats_of, update_stats, upd_stats. intros [s Hs].
  destruct (keyUsageStats (this w) !! i) as [l|]; [|done].
  by destruct (heap w !! l) as [[]|].
Qed.

Lemma rotateAPIKey_ok w :
  wf w -> rotateAPIKey w = Return (next_index (this w)) (rotated w).
Proof.
  intros H.
  destruct (stats_of_is_Some w (currentKeyIndex (this w)) H (wf_current w H)) as [s Hs].
  unfold stats_of in Hs. unfold rotateAPIKey, rotated, upd_stats, bind,
    the_currentKeyIndex, gets, modify, update_stats, Date_now, initializeClient.
  simpl.
  destruct (keyUsageStats (this w) !! currentKeyIndex (this w)) as [l|]; [|done].
  by destruct (heap w !! l) as [[]|].
Qed.

Lemma findAvailableKey_from_spec now n i w :
  findAvailableKey_from now n i w =
  match scan now (this w) n i with
  | Some k => Return true (selected k w)
  | None => Return false w
  end.
Proof.
  revert i. induction n as [|n IH]; intros i; simpl; [done|].
  case_match; [|apply IH].
  unfold selected, bind, when. simpl.
  destruct (_ =? _)%nat; simpl; [done|].
  unfold ret, modify, initializeClient, bind. simpl.
  destruct w as [[] ????]; reflexivity.
Qed.

Lemma findAvailableKey_ok w :
  findAvailableKey w =
  match scan (clock w) (this w) (length (apiKeys (this w))) 0 with
  | Some k => Return true (selected k w)
  | None => Return false w
  end.
Proof. unfold findAvailableKey, bind, Date_now, gets. apply findAvailableKey_from_spec. Qed.

(** ** What the scan finds *)

Lemma scan_Some now s n i k :
  scan now s n i = Some k ->
  exists j, (i <= j < i + n)%nat /\
            k = ((currentKeyIndex s + j) mod length (apiKeys s))%nat /\
            available now (rateLimitResetTimes s !! k) = true.
Proof.
  revert i. induction n as [|n IH]; intros i; simpl; [done|].
  case_match eqn:E.
  - intros [= <-]. exists i. repeat split; [lia..|done].
  - intros H. destruct (IH _ H) as (j & ? & ? & ?). exists j. repeat split; [lia..| |]; done.
Qed.

Lemma scan_None now s n i :
  scan now s n i = None ->
  forall j, (i <= j < i + n)%nat ->
    available now (rateLimitResetTimes s !! ((currentKeyIndex s + j) mod length (apiKeys s))%nat) = false.
Proof.
  revert i. induction n as [|n IH]; intros i; simpl; [lia|].
  case_match eqn:E; [done|].
  intros H j Hj. destruct (decide (j = i)) as [->|]; [done|].
  apply (IH _ H). lia.
Qed.

(** Every index is met within one round of the scan. *)
Lemma round_covers (c k n : nat) :
  (c < n)%nat -> (k < n)%nat -> exists j, (j < n)%nat /\ ((c + j) mod n)%nat = k.
Proof.
  intros Hc Hk. destruct (decide (c <= k)%nat).
  - exists (k - c)%nat. split; [lia|].
    replace (c + (k - c))%nat with k by lia. by apply Nat.mod_small.
  - exists (k + n - c)%nat. split; [lia|].
    replace (c + (k + n - c))%nat with (k + 1 * n)%nat by lia.
    rewrite Nat.Div0.mod_add. by apply Nat.mod_small.
Qed.

Lemma scan_round_None now s :
  (currentKeyIndex s < length (apiKeys s))%nat ->
  scan now s (length (apiKeys s)) 0 = None ->
  forall k, (k < length (apiKeys s))%nat ->
    available now (rateLimitResetTimes s !! k) = false.
Proof.
  intros Hc H k Hk.
  destruct (round_covers _ _ _ Hc Hk) as (j & Hj & <-).
  apply (scan_None _ _ _ _ H). lia.
Qed.

Lemma scan_round_Some now s k :
  (currentKeyIndex s < length (apiKeys s))%nat ->
  (k < length (apiKeys s))%nat ->
  available now (rateLimitResetTimes s !! k) = true ->
  exists k', scan now s (length (apiKeys s)) 0 = Some k'.
Proof.
  intros Hc Hk Hav.
  destruct (scan now s (length (apiKeys s)) 0) eqn:E; [eauto|].
  by rewrite (scan_round_None _ _ Hc E k Hk) in Hav.
Qed.

Lemma scan_lt now s n i k :
  (0 < length (apiKeys s))%nat -> scan now s n i = Some k -> (k < length (apiKeys s))%nat.
Proof.
  intros Hn H. destruct (scan_Some _ _ _ _ _ H) as (j & _ & -> & _).
  apply Nat.mod_upper_bound. lia.
Qed.

(** ** One attempt of the dispatcher *)

Lemma generateContent_eq upstream content w :
  generateContent upstream content w =
  match reply (upstream (calls w)) with
  | Responds text => Return text (issue_call (upstream (calls w)) w)
  | Fails e => Throw e (issue_call (upstream (calls w)) w)
  end.
Proof. reflexivity. Qed.

(** One unfolding of the dispatcher in a well-formed world: the attempt
    is recorded and issued; a success returns, a failure is recorded and
    then settled by its class, the attempt number and the scan. *)
Lemma loop_step upstream fuel content attempt w :
  wf w ->
  callGeminiWithRetry_loop upstream (S fuel) content attempt w =
  let o := upstream (calls w) in
  match reply o with
  | Responds text => Return text (issue_call o (record_attempt w))
  | Fails error =>
      let w2 := after_failure o w in
      let cfg := config (this w) in
      if isRateLimitError error then
        match scan (clock w2) (this w2) (length (apiKeys (this w2))) 0 with
        | Some k =>
            if attempt <=? maxRetries cfg
            then callGeminiWithRetry_loop upstream fuel content (attempt + 1)
                   (slept (retryDelay cfg) (selected k w2))
            else Throw error (selected k w2)
        | None => Throw AllKeysRateLimited w2
        end
      else if attempt <=? maxRetries cfg
           then callGeminiWithRetry_loop upstream fuel content (attempt + 1)
                  (backed_off attempt w2)
           else Throw error w2
  end.
Proof.
  intros Hw. cbn zeta.
  pose proof (wf_current w Hw) as Hc.
  pose proof (stats_of_is_Some w _ Hw Hc) as Hs1.
  pose proof (wf_upd_stats (currentKeyIndex (this w)) incr_requests w Hw) as Hw1.
  assert (is_Some (stats_of (upd_stats (currentKeyIndex (this w)) incr_requests w)
                            (currentKeyIndex (this w)))) as Hs2.
  { apply stats_of_is_Some; [done|]. by rewrite this_upd_stats. }
  cbn [callGeminiWithRetry_loop]. unfold try_catch at 1.
  unfold bind at 1. unfold the_currentKeyIndex at 1, gets at 1.
  unfold bind at 1. rewrite (update_stats_ok _ _ _ Hs1).
  unfold bind at 1. unfold the_currentKeyIndex at 1, gets at 1.
  unfold bind at 1. unfold Date_now at 1, gets at 1.
  unfold bind at 1. rewrite this_upd_stats, clock_upd_stats.
  rewrite (update_stats_ok _ _ _ Hs2).
  fold (record_attempt w).
  rewrite generateContent_eq, calls_record_attempt.
  destruct (reply (upstream (calls w))) as [text|error]; [done|].
  set (w1 := issue_call _ _).
  assert (wf w1) as Hw1' by by apply wf_issue_call, wf_record_attempt.
  assert (is_Some (stats_of w1 (currentKeyIndex (this w1)))) as Hs3.
  { apply stats_of_is_Some; [done|]. by apply wf_current. }
  unfold bind at 1. unfold the_currentKeyIndex at 1, gets at 1.
  unfold bind at 1. rewrite (update_stats_ok _ _ _ Hs3).
  fold (record_error w1). subst w1. fold (after_failure (upstream (calls w)) w).
  set (w2 := after_failure _ _).
  assert (config (this w2) = config (this w)) as Hcfg.
  { subst w2. by rewrite this_after_failure. }
  destruct (isRateLimitError error).
  - unfold bind at 1. rewrite findAvailableKey_ok.
    destruct (scan _ _ _ _) as [k|].
    + unfold bind at 1, the_config at 1, gets at 1.
      rewrite config_selected, Hcfg. simpl.
      destruct (attempt <=? maxRetries (config (this w))) eqn:E.
      * unfold bind at 1, the_config at 1, gets at 1.
        unfold bind at 1, sleep at 1, modify at 1.
        rewrite config_selected, Hcfg. reflexivity.
      * unfold bind at 1, the_config at 1, gets at 1.
        rewrite config_selected, Hcfg, E. reflexivity.
    + unfold bind at 1, the_config at 1, gets at 1. simpl. reflexivity.
  - unfold bind at 1, the_config at 1, gets at 1. rewrite Hcfg.
    destruct (attempt <=? maxRetries (config (this w))) eqn:E; [|done].
    unfold bind at 1, the_config at 1, gets at 1.
    unfold bind at 1, sleep at 1, modify at 1. rewrite Hcfg.
    fold (slept (retryDelay (config (this w)) * 2 ^ (attempt - 1)) w2).
    unfold bind at 1, backed_off at 1. rewrite Hcfg.
    destruct (1 <? attempt); simpl; [|done].
    unfold bind at 1. rewrite rotateAPIKey_ok by by apply wf_slept, wf_after_failure.
    reflexivity.
Qed.

Lemma config_backed_off attempt w : config (this (backed_off attempt w)) = config (this w).
Proof. unfold backed_off. by case_match. Qed.

Lemma wf_backed_off attempt w : wf w -> wf (backed_off attempt w).
Proof.
  intros H. unfold backed_off. case_match; [apply wf_rotated|]; by apply wf_slept.
Qed.

Lemma calls_backed_off attempt w : calls (backed_off attempt w) = calls w.
Proof. unfold backed_off. case_match; [rewrite calls_rotated|]; done. Qed.

Lemma budget_step (m a : Z) :
  a <= m -> Z.to_nat (m + 1 - a) = S (Z.to_nat (m + 1 - (a + 1))).
Proof. lia. Qed.

(** The same equation without the step budget: a retry is a fresh
    [callGeminiWithRetry] with the next attempt number. *)
Lemma callGeminiWithRetry_step upstream content attempt w :
  wf w ->
  callGeminiWithRetry upstream content attempt w =
  let o := upstream (calls w) in
  match reply o with
  | Responds text => Return text (issue_call o (record_attempt w))
  | Fails error =>
      let w2 := after_failure o w in
      let cfg := config (this w) in
      if isRateLimitError error then
        match scan (clock w2) (this w2) (length (apiKeys (this w2))) 0 with
        | Some k =>
            if attempt <=? maxRetries cfg
            then callGeminiWithRetry upstream content (attempt + 1)
                   (slept (retryDelay cfg) (selected k w2))
            else Throw error (selected k w2)
        | None => Throw AllKeysRateLimited w2
        end
      else if attempt <=? maxRetries cfg
           then callGeminiWithRetry upstream content (attempt + 1)
                  (backed_off attempt w2)
           else Throw error w2
  end.
Proof.
  intros Hw. unfold callGeminiWithRetry at 1, retry_budget.
  rewrite loop_step by done. cbn zeta.
  destruct (reply (upstream (calls w))) as [text|error]; [done|].
  destruct (attempt <=? maxRetries (config (this w))) eqn:E.
  - apply Z.leb_le in E.
    rewrite (budget_step _ _ E).
    destruct (isRateLimitError error).
    + destruct (scan _ _ _ _) as [k|]; [|done].
      unfold callGeminiWithRetry, retry_budget. simpl.
      by rewrite config_selected, this_after_failure.
    + unfold callGeminiWithRetry, retry_budget.
      by rewrite config_backed_off, this_after_failure.
  - destruct (isRateLimitError error); [|done].
    by destruct (scan _ _ _ _).
Qed.

(** The dispatcher always finishes, with a text or an error, and keeps
    the invariant. *)
Lemma callGeminiWithRetry_finishes upstream content attempt w :
  wf w ->
  (exists text w', callGeminiWithRetry upstream content attempt w = Return text w' /\ wf w')
  \/ (exists e w', callGeminiWithRetry upstream content attempt w = Throw e w' /\ wf w').
Proof.
  remember (Z.to_nat (maxRetries (config (this w)) + 1 - attempt)) as n eqn:Hn.
  revert attempt w Hn. induction n as [|n IH]; intros attempt w Hn Hw;
    rewrite callGeminiWithRetry_step by done; cbn zeta;
    pose proof (wf_after_failure (upstream (calls w)) w Hw) as Hw2;
    (destruct (reply (upstream (calls w))) as [text|error];
     [ left; do 2 eexists; split; [done|]; by apply wf_issue_call, wf_record_attempt |]).
  - assert ((attempt <=? maxRetries (config (this w))) = false) as -> by lia.
    destruct (isRateLimitError error).
    + destruct (scan _ _ _ _) as [k|] eqn:Hk; right; do 2 eexists; (split; [done|]); [|done].
      apply wf_selected; [done|]. eapply scan_lt; [|exact Hk]. by apply wf_nonempty.
    + right. by eexists _, _.
  - destruct (attempt <=? maxRetries (config (this w))) eqn:E.
    + destruct (isRateLimitError error).
      * destruct (scan _ _ _ _) as [k|] eqn:Hk; [|right; by eexists _, _].
        assert (wf (selected k (after_failure (upstream (calls w)) w))) as Hsel.
        { apply wf_selected; [done|]. eapply scan_lt; [|exact Hk]. by apply wf_nonempty. }
        apply IH; [|by apply wf_slept].
        simpl. rewrite config_selected, this_after_failure. lia.
      * apply IH; [|by apply wf_backed_off].
        rewrite config_backed_off, this_after_failure. lia.
    + destruct (isRateLimitError error).
      * destruct (scan _ _ _ _) as [k|] eqn:Hk; right; do 2 eexists; (split; [done|]); [|done].
        apply wf_selected; [done|]. eapply scan_lt; [|exact Hk]. by apply wf_nonempty.
      * right. by eexists _, _.
Qed.

(** ** The generic retry path *)

Arguments callGeminiWithRetry : simpl never.

Lemma trace_backed_off attempt w :
  trace (backed_off attempt w) =
  trace w ++ [EvSleep (retryDelay (config (this w)) * 2 ^ (attempt - 1))].
Proof. unfold backed_off. case_match; [rewrite trace_rotated|]; done. Qed.

Lemma apiKeys_backed_off attempt w : apiKeys (this (backed_off attempt w)) = apiKeys (this w).
Proof. unfold backed_off. by case_match. Qed.

Lemma currentKeyIndex_backed_off attempt w :
  currentKeyIndex (this (backed_off attempt w)) =
  if 1 <? attempt then next_index (this w) else currentKeyIndex (this w).
Proof. unfold backed_off. by case_match. Qed.

(** The world in which the retry after a generic failure starts. *)
Lemma generic_retry_world attempt o w :
  wf w ->
  let w' := backed_off attempt (after_failure o w) in
  wf w' /\ calls w' = S (calls w) /\ config (this w') = config (this w) /\
  apiKeys (this w') = apiKeys (this w) /\
  currentKeyIndex (this w') =
    (if 1 <? attempt then next_index (this w) else currentKeyIndex (this w)) /\
  trace w' = trace w ++ [EvCall (apiKeys (this w) !! currentKeyIndex (this w));
                         EvSleep (retryDelay (config (this w)) * 2 ^ (attempt - 1))].
Proof.
  intros Hw w'. subst w'.
  rewrite calls_backed_off, calls_after_failure, config_backed_off,
    apiKeys_backed_off, currentKeyIndex_backed_off, trace_backed_off,
    trace_after_failure, !this_after_failure, (wf_model w Hw), <- app_assoc.
  split; [by apply wf_backed_off, wf_after_failure | by repeat split].
Qed.

Lemma generic_retry upstream content attempt w e :
  wf w ->
  reply (upstream (calls w)) = Fails e ->
  isRateLimitError e = false ->
  attempt <= maxRetries (config (this w)) ->
  callGeminiWithRetry upstream content attempt w =
  callGeminiWithRetry upstream content (attempt + 1)
    (backed_off attempt (after_failure (upstream (calls w)) w)).
Proof.
  intros Hw Hr Hn Ha. rewrite callGeminiWithRetry_step by done. cbn zeta.
  rewrite Hr, Hn. by assert ((attempt <=? maxRetries (config (this w))) = true) as -> by lia.
Qed.

Lemma success upstream content attempt w text :
  wf w ->
  reply (upstream (calls w)) = Responds text ->
  callGeminiWithRetry upstream content attempt w =
  Return text (issue_call (upstream (calls w)) (record_attempt w)).
Proof.
  intros Hw Hr. rewrite callGeminiWithRetry_step by done. cbn zeta. by rewrite Hr.
Qed.

Lemma trace_success o w :
  wf w ->
  trace (issue_call o (record_attempt w)) =
  trace w ++ [EvCall (apiKeys (this w) !! currentKeyIndex (this w))].
Proof.
  intros Hw. unfold issue_call. cbn [trace].
  by rewrite trace_record_attempt, this_record_attempt, (wf_model w Hw).
Qed.

Lemma sleeps_app tr1 tr2 : sleeps (tr1 ++ tr2) = sleeps tr1 ++ sleeps tr2.
Proof. apply omap_app. Qed.

(** A timer fires after the requested time when that lies between 1 and
    [2^31 - 1] milliseconds, and after one millisecond otherwise. *)
Lemma timer_delay_eq ms :
  timer_delay ms = if (1 <=? ms) && (ms <=? 2147483647) then ms else 1.
Proof.
  unfold timer_delay.
  destruct (ms <? 1) eqn:E1, (2147483647 <? ms) eqn:E2,
           (1 <=? ms) eqn:E3, (ms <=? 2147483647) eqn:E4; simpl; lia.
Qed.

Lemma clock_backed_off attempt w :
  clock (backed_off attempt w) =
  clock w + timer_delay (retryDelay (config (this w)) * 2 ^ (attempt - 1)).
Proof. unfold backed_off. case_match; [rewrite clock_rotated|]; done. Qed.

(** The clock reading at which the retry after a generic failure starts. *)
Lemma clock_generic_retry attempt o w :
  clock (backed_off attempt (after_failure o w)) =
  clock w + elapsed o + timer_delay (retryDelay (config (this w)) * 2 ^ (attempt - 1)).
Proof. by rewrite clock_backed_off, clock_after_failure, this_after_failure. Qed.

Lemma clock_success o w : clock (issue_call o (record_attempt w)) = clock w + elapsed o.
Proof. unfold issue_call. cbn [clock]. by rewrite clock_record_attempt. Qed.

(** The retry after a failure that is not a rate limit: the world in
    which the next attempt starts. *)
Lemma generic_retry_step upstream content attempt next w e :
  wf w ->
  reply (upstream (calls w)) = Fails e ->
  isRateLimitError e = false ->
  attempt <= maxRetries (config (this w)) ->
  next = attempt + 1 ->
  let delay := retryDelay (config (this w)) * 2 ^ (attempt - 1) in
  exists w1,
    callGeminiWithRetry upstream content attempt w =
      callGeminiWithRetry upstream content next w1 /\
    wf w1 /\
    calls w1 = S (calls w) /\
    config (this w1) = config (this w) /\
    apiKeys (this w1) = apiKeys (this w) /\
    currentKeyIndex (this w1) =
      (if 1 <? attempt then next_index (this w) else currentKeyIndex (this w)) /\
    trace w1 = trace w ++ [EvCall (apiKeys (this w) !! currentKeyIndex (this w));
                           EvSleep delay] /\
    clock w1 = clock w + elapsed (upstream (calls w)) + timer_delay delay.
Proof.
  intros Hw Hr He Ha -> delay.
  exists (backed_off attempt (after_failure (upstream (calls w)) w)).
  destruct (generic_retry_world attempt (upstream (calls w)) w Hw)
    as (Hw1 & Q1 & G1 & A1 & I1 & T1).
  split; [by apply (generic_retry _ _ _ _ e)|].
  split; [exact Hw1|]. split; [exact Q1|]. split; [exact G1|]. split; [exact A1|].
  split; [exact I1|]. split; [exact T1|]. apply clock_generic_retry.
Qed.

(** An attempt that is answered. *)
Lemma success_step upstream content attempt w text :
  wf w ->
  reply (upstream (calls w)) = Responds text ->
  exists w',
    callGeminiWithRetry upstream content attempt w = Return text w' /\
    wf w' /\
    calls w' = S (calls w) /\
    trace w' = trace w ++ [EvCall (apiKeys (this w) !! currentKeyIndex (this w))] /\
    clock w' = clock w + elapsed (upstream (calls w)).
Proof.
  intros Hw Hr. exists (issue_call (upstream (calls w)) (record_attempt w)).
  split; [by apply success|].
  split; [by apply wf_issue_call, wf_record_attempt|].
  split; [unfold issue_call; cbn [calls]; by rewrite calls_record_attempt|].
  split; [by apply trace_success | apply clock_success].
Qed.

(** C4: with [maxRetries = 3] and [retryDelay = 1000], three failures
    that are not rate-limit failures followed by a success make the
    dispatcher wait 1000 ms before the second attempt, 2000 ms before the
    third and 4000 ms before the fourth, which returns the text.  The
    attempts 2, 3 and 4 start in the worlds [w1], [w2] and [w3]: the
    dispatch goes on from each of them as a dispatch with that attempt
    number, and the clock of each reads the time at which the previous
    call came back plus the delay.  The trace shows each sleep between the
    two calls that it separates. *)
Theorem backoff_schedule upstream content w e1 e2 e3 text :
  wf w ->
  maxRetries (config (this w)) = 3 ->
  retryDelay (config (this w)) = 1000 ->
  reply (upstream (calls w)) = Fails e1 -> isRateLimitError e1 = false ->
  reply (upstream (S (calls w))) = Fails e2 -> isRateLimitError e2 = false ->
  reply (upstream (S (S (calls w)))) = Fails e3 -> isRateLimitError e3 = false ->
  reply (upstream (S (S (S (calls w))))) = Responds text ->
  let key i := apiKeys (this w) !! ((currentKeyIndex (this w) + i) mod length (apiKeys (this w)))%nat in
  let took i := elapsed (upstream (calls w + i)%nat) in
  exists w1 w2 w3 w',
    callGeminiWithRetry upstream content 1 w = Return text w' /\
    trace w' = trace w ++
      [EvCall (key 0%nat); EvSleep 1000;
       EvCall (key 0%nat); EvSleep 2000;
       EvCall (key 1%nat); EvSleep 4000;
       EvCall (key 2%nat)] /\
    sleeps (trace w') = sleeps (trace w) ++ [1000; 2000; 4000] /\
    callGeminiWithRetry upstream content 1 w = callGeminiWithRetry upstream content 2 w1 /\
    callGeminiWithRetry upstream content 2 w1 = callGeminiWithRetry upstream content 3 w2 /\
    callGeminiWithRetry upstream content 3 w2 = callGeminiWithRetry upstream content 4 w3 /\
    callGeminiWithRetry upstream content 4 w3 = Return text w' /\
    calls w1 = (calls w + 1)%nat /\
    calls w2 = (calls w + 2)%nat /\
    calls w3 = (calls w + 3)%nat /\
    calls w' = (calls w + 4)%nat /\
    clock w1 = clock w + took 0%nat + 1000 /\
    clock w2 = clock w1 + took 1%nat + 2000 /\
    clock w3 = clock w2 + took 2%nat + 4000 /\
    clock w' = clock w3 + took 3%nat /\
    trace w1 = trace w ++ [EvCall (key 0%nat); EvSleep 1000] /\
    trace w2 = trace w1 ++ [EvCall (key 0%nat); EvSleep 2000] /\
    trace w3 = trace w2 ++ [EvCall (key 1%nat); EvSleep 4000] /\
    trace w' = trace w3 ++ [EvCall (key 2%nat)].
Proof.
  intros Hw Hmax Hdelay H1 N1 H2 N2 H3 N3 H4 key took.
  assert (key 0%nat = apiKeys (this w) !! currentKeyIndex (this w)) as K0.
  { subst key. cbn beta. rewrite Nat.add_0_r, Nat.mod_small; [done|]. by apply wf_current. }
  assert (took 0%nat = elapsed (upstream (calls w)) /\
          took 1%nat = elapsed (upstream (S (calls w))) /\
          took 2%nat = elapsed (upstream (S (S (calls w)))) /\
          took 3%nat = elapsed (upstream (S (S (S (calls w)))))) as (E0 & E1 & E2 & E3).
  { subst took. cbn beta. rewrite Nat.add_0_r.
    replace (calls w + 1)%nat with (S (calls w)) by lia.
    replace (calls w + 2)%nat with (S (S (calls w))) by lia.
    by replace (calls w + 3)%nat with (S (S (S (calls w)))) by lia. }
  assert (1000 * 2 ^ (1 - 1) = 1000 /\ 1000 * 2 ^ (2 - 1) = 2000 /\
          1000 * 2 ^ (3 - 1) = 4000) as (D1 & D2 & D3) by (vm_compute; done).
  assert (timer_delay 1000 = 1000 /\ timer_delay 2000 = 2000 /\ timer_delay 4000 = 4000)
    as (L1 & L2 & L3) by (vm_compute; done).
  assert ((1 <? 1) = false /\ (1 <? 2) = true /\ (1 <? 3) = true) as (B1 & B2 & B3) by done.
  (* the first failure *)
  destruct (generic_retry_step upstream content 1 2 w e1 Hw H1 N1)
    as (w1 & S1 & Hw1 & Q1 & G1 & A1 & I1 & T1 & C1); [lia | done |].
  rewrite Hdelay, D1 in T1, C1. rewrite L1 in C1. rewrite B1 in I1. rewrite <- K0 in T1.
  (* the second failure *)
  rewrite <- Q1 in H2.
  destruct (generic_retry_step upstream content 2 3 w1 e2 Hw1 H2 N2)
    as (w2 & S2 & Hw2 & Q2 & G2 & A2 & I2 & T2 & C2); [rewrite G1; lia | done |].
  rewrite G1, Hdelay, D2 in T2, C2. rewrite L2, Q1 in C2. rewrite B2 in I2.
  unfold next_index in I2. rewrite A1, I1 in I2, T2. rewrite <- K0 in T2.
  (* the third failure *)
  rewrite <- Q1, <- Q2 in H3.
  destruct (generic_retry_step upstream content 3 4 w2 e3 Hw2 H3 N3)
    as (w3 & S3 & Hw3 & Q3 & G3 & A3 & I3 & T3 & C3); [rewrite G2, G1; lia | done |].
  rewrite G2, G1, Hdelay, D3 in T3, C3. rewrite L3, Q2, Q1 in C3. rewrite B3 in I3.
  unfold next_index in I3. rewrite A2, A1, I2, Nat.Div0.add_mod_idemp_l in I3.
  replace (currentKeyIndex (this w) + 1 + 1)%nat with (currentKeyIndex (this w) + 2)%nat
    in I3 by lia.
  rewrite A2, A1, I2 in T3.
  (* the answer *)
  rewrite <- Q1, <- Q2, <- Q3 in H4.
  destruct (success_step upstream content 4 w3 text Hw3 H4)
    as (w' & S4 & Hw' & Q4 & T4 & C4).
  rewrite A3, A2, A1, I3 in T4. rewrite Q3, Q2, Q1 in C4.
  assert (trace w' = trace w ++
      [EvCall (key 0%nat); EvSleep 1000;
       EvCall (key 0%nat); EvSleep 2000;
       EvCall (key 1%nat); EvSleep 4000;
       EvCall (key 2%nat)]) as Htr.
  { rewrite T4, T3, T2, T1, <- !app_assoc. reflexivity. }
  exists w1, w2, w3, w'.
  split; [by rewrite S1, S2, S3|]. split; [exact Htr|].
  split; [rewrite Htr, sleeps_app; reflexivity|].
  split; [exact S1|]. split; [exact S2|]. split; [exact S3|]. split; [exact S4|].
  split; [lia|]. split; [lia|]. split; [lia|]. split; [lia|].
  rewrite E0, E1, E2, E3.
  split; [exact C1|]. split; [exact C2|]. split; [exact C3|]. split; [exact C4|].
  split; [exact T1|]. split; [exact T2|]. split; [exact T3|]. exact T4.
Qed.

(** ** Rotation and cooldown *)

Lemma mod_shift_ne (c d n : nat) :
  (c < n)%nat -> (0 < d < n)%nat -> ((c + d) mod n)%nat <> c.
Proof.
  intros Hc Hd. destruct (decide (c + d < n)%nat).
  - rewrite Nat.mod_small by done. lia.
  - replace (c + d)%nat with ((c + d - n) + 1 * n)%nat by lia.
    rewrite Nat.Div0.mod_add, Nat.mod_small by lia. lia.
Qed.

Lemma round_injective (c j k n : nat) :
  (j < n)%nat -> (k < n)%nat ->
  ((c + j) mod n)%nat = ((c + k) mod n)%nat -> j = k.
Proof.
  intros Hj Hk H.
  assert (forall a b, (a < b < n)%nat -> ((c + a) mod n)%nat <> ((c + b) mod n)%nat) as Hlt.
  { intros a b Hab E.
    replace (c + b)%nat with (c + a + (b - a))%nat in E by lia.
    rewrite <- (Nat.Div0.add_mod_idemp_l (c + a) (b - a) n) in E. symmetry in E. revert E.
    apply mod_shift_ne; [apply Nat.mod_upper_bound|]; lia. }
  destruct (lt_eq_lt_dec j k) as [[Hlt'| ->]|Hgt]; [|done|].
  - exfalso. by apply (Hlt j k).
  - exfalso. by apply (Hlt k j).
Qed.

Lemma mark_at_ok t w :
  wf w -> mark_at t w = Return (next_index (this w)) (rotated (set_clock t w)).
Proof.
  intros Hw. unfold mark_at, bind, modify.
  by rewrite rotateAPIKey_ok by by apply wf_set_clock.
Qed.

Lemma mark_all_spec ts : forall w,
  wf w ->
  (length ts <= length (apiKeys (this w)))%nat ->
  let c := currentKeyIndex (this w) in
  let n := length (apiKeys (this w)) in
  exists w',
    mark_all ts w = Return ((fun k => ((c + k) mod n)%nat) <$> seq 0 (length ts)) w' /\
    wf w' /\
    apiKeys (this w') = apiKeys (this w) /\
    currentKeyIndex (this w') = ((c + length ts) mod n)%nat /\
    (forall k t, ts !! k = Some t ->
       rateLimitResetTimes (this w') !! ((c + k) mod n)%nat = Some (t + 60000)) /\
    (forall i, (forall k, (k < length ts)%nat -> ((c + k) mod n)%nat <> i) ->
       rateLimitResetTimes (this w') !! i = rateLimitResetTimes (this w) !! i).
Proof.
  induction ts as [|t ts IH]; intros w Hw Hlen c n.
  - exists w. cbn [mark_all length seq fmap list_fmap]. unfold ret.
    split; [done|]. split; [done|]. split; [done|]. split; [|split].
    + subst c n. rewrite Nat.add_0_r, Nat.mod_small; [done|]. by apply wf_current.
    + intros k t. by rewrite lookup_nil.
    + done.
  - cbn [length] in Hlen.
    pose proof (wf_current w Hw) as Hc.
    pose proof (wf_rotated _ (wf_set_clock t w Hw)) as Hw1.
    set (w1 := rotated (set_clock t w)) in *.
    assert (apiKeys (this w1) = apiKeys (this w)) as A1 by done.
    assert (currentKeyIndex (this w1) = ((c + 1) mod n)%nat) as I1 by done.
    destruct (IH w1 Hw1) as (w' & Hrun & Hw' & A' & I' & Hmarked & Hframe);
      [rewrite A1; lia|].
    rewrite A1, I1 in *. fold n in Hrun, I', Hmarked, Hframe.
    assert (forall k, ((c + 1) mod n + k) mod n = (c + S k) mod n)%nat as Hshift.
    { intros k. rewrite Nat.Div0.add_mod_idemp_l. f_equal. lia. }
    exists w'. split; [|split; [done|split; [done|split; [|split]]]].
    + cbn [mark_all]. unfold bind at 1, the_currentKeyIndex at 1, gets at 1.
      unfold bind at 1. rewrite mark_at_ok by done. fold w1.
      unfold bind at 1. rewrite Hrun. unfold ret. f_equal.
      cbn [length seq fmap list_fmap]. fold c. f_equal.
      * rewrite Nat.add_0_r, Nat.mod_small; done.
      * rewrite <- fmap_S_seq, <- list_fmap_compose.
        apply list_fmap_ext. intros _ k _. apply Hshift.
    + by rewrite I', Hshift.
    + intros [|k] t' Hk.
      * injection Hk as <-. rewrite Nat.add_0_r, Nat.mod_small by done.
        rewrite Hframe.
        -- subst w1. rewrite this_rotated. cbn. fold c. by rewrite lookup_insert_eq.
        -- intros k Hk. rewrite Hshift. apply mod_shift_ne; [done|]. subst n. lia.
      * rewrite <- Hshift. by apply Hmarked.
    + intros i Hi. rewrite Hframe.
      * subst w1. rewrite this_rotated. cbn. fold c. apply lookup_insert_ne.
        specialize (Hi 0%nat). rewrite Nat.add_0_r, Nat.mod_small in Hi by done.
        apply Hi. cbn. lia.
      * intros k Hk. rewrite Hshift. apply Hi. cbn. lia.
Qed.

Lemma available_marked now t :
  0 <= t -> available now (Some (t + 60000)) = (t + 60000 <? now).
Proof. intros H. unfold available. by assert ((t + 60000 =? 0) = false) as -> by lia. Qed.

Lemma findAvailableKey_picks_available w b w' :
  wf w ->
  findAvailableKey w = Return b w' -> b = true ->
  available (clock w) (rateLimitResetTimes (this w) !! currentKeyIndex (this w')) = true /\
  (currentKeyIndex (this w') < length (apiKeys (this w)))%nat.
Proof.
  intros Hw. rewrite findAvailableKey_ok.
  destruct (scan _ _ _ _) as [k|] eqn:Hk; [|by intros [= <- <-]].
  intros [= <- <-] _. rewrite currentKeyIndex_selected.
  destruct (scan_Some _ _ _ _ _ Hk) as (j & _ & _ & Hav). split; [done|].
  eapply scan_lt; [|exact Hk]. by apply wf_nonempty.
Qed.

(** C8: in a pool of [n] keys, [n] consecutive [rotateAPIKey()] calls put
    the indices [c], [c+1], ... (mod [n]) into cooldown one after the
    other, each exactly once, and come back to [c]; an index marked at
    clock reading [t] is never chosen by [findAvailableKey] while the
    clock reads at most [t + 60000], and is available again afterwards. *)
Theorem round_robin_cooldown ts w :
  wf w ->
  length ts = length (apiKeys (this w)) ->
  Forall (fun t => 0 <= t) ts ->
  let c := currentKeyIndex (this w) in
  let n := length (apiKeys (this w)) in
  exists visited w',
    mark_all ts w = Return visited w' /\
    visited = (fun k => ((c + k) mod n)%nat) <$> seq 0 n /\
    NoDup visited /\
    (forall i, (i < n)%nat -> i ∈ visited) /\
    currentKeyIndex (this w') = c /\
    (forall k t, ts !! k = Some t ->
       let i := ((c + k) mod n)%nat in
       rateLimitResetTimes (this w') !! i = Some (t + 60000) /\
       (forall now, available now (rateLimitResetTimes (this w') !! i) = (t + 60000 <? now)) /\
       (forall now b w'',
          now <= t + 60000 ->
          findAvailableKey (set_clock now w') = Return b w'' -> b = true ->
          currentKeyIndex (this w'') <> i)) /\
    (forall now, Forall (fun t => now <= t + 60000) ts ->
       findAvailableKey (set_clock now w') = Return false (set_clock now w')) /\
    (forall now, Exists (fun t => t + 60000 < now) ts ->
       exists w'', findAvailableKey (set_clock now w') = Return true w'').
Proof.
  intros Hw Hlen Hpos c n.
  pose proof (wf_current w Hw) as Hc. fold c n in Hc.
  destruct (mark_all_spec ts w Hw) as (w' & Hrun & Hw' & A' & I' & Hmarked & _); [lia|].
  fold c n in Hrun, I', Hmarked. rewrite Hlen in Hrun, I'. fold n in Hrun, I'.
  assert (forall k t, ts !! k = Some t -> (k < n)%nat /\ 0 <= t) as Hts.
  { intros k t Hk. split.
    - subst n. rewrite <- Hlen. by eapply lookup_lt_Some.
    - rewrite Forall_lookup in Hpos. by eapply Hpos. }
  assert (forall now k', (k' < n)%nat ->
            available now (rateLimitResetTimes (this w') !! k') = true ->
            exists t, t ∈ ts /\ t + 60000 < now) as Hfree.
  { intros now k' Hk' Hav.
    destruct (round_covers c k' n Hc Hk') as (j & Hj & <-).
    destruct (lookup_lt_is_Some_2 ts j) as [t Ht]; [lia|].
    rewrite (Hmarked _ _ Ht), available_marked in Hav by by eapply Hts.
    exists t. split; [by eapply list_elem_of_lookup_2 | lia]. }
  exists ((fun k => ((c + k) mod n)%nat) <$> seq 0 n), w'.
  split; [done|]. split; [done|]. split; [|split; [|split; [|split; [|split]]]].
  - apply NoDup_fmap_2_strong; [|apply NoDup_seq].
    intros j k Hj Hk. apply elem_of_seq in Hj, Hk. apply round_injective; lia.
  - intros i Hi. destruct (round_covers c i n Hc Hi) as (j & Hj & <-).
    apply list_elem_of_fmap. exists j. split; [done|]. apply elem_of_seq. lia.
  - rewrite I'. replace (c + n)%nat with (c + 1 * n)%nat by lia.
    rewrite Nat.Div0.mod_add. by apply Nat.mod_small.
  - intros k t Hk i. destruct (Hts _ _ Hk) as [Hkn Ht].
    pose proof (Hmarked _ _ Hk) as Hi. fold i in Hi.
    split; [done|]. split.
    + intros now. rewrite Hi. by apply available_marked.
    + intros now b w'' Hnow Hfind Hb Heq.
      destruct (findAvailableKey_picks_available _ _ _ (wf_set_clock now w' Hw') Hfind Hb)
        as [Hav _].
      cbn [set_clock this clock] in Hav. rewrite Heq, Hi, available_marked in Hav by done. lia.
  - intros now Hall. rewrite findAvailableKey_ok.
    destruct (scan _ _ _ _) as [k'|] eqn:Hk'; [exfalso|done].
    destruct (scan_Some _ _ _ _ _ Hk') as (j & _ & _ & Hav).
    cbn [set_clock this clock] in Hav.
    destruct (Hfree now k') as (t & Hin & Hlt); [|done|].
    + cbn [set_clock this] in Hk'. unfold n. rewrite <- A'. eapply scan_lt; [|exact Hk'].
      by apply wf_nonempty.
    + rewrite Forall_forall in Hall. specialize (Hall _ Hin). lia.
  - intros now Hex. apply Exists_exists in Hex as (t & Hin & Hlt).
    apply list_elem_of_lookup_1 in Hin as [k Hk].
    destruct (Hts _ _ Hk) as [Hkn Ht].
    rewrite findAvailableKey_ok. cbn [set_clock this clock].
    destruct (scan_round_Some now (this w') ((c + k) mod n)%nat) as [k' ->].
    + by apply wf_current.
    + rewrite A'. apply Nat.mod_upper_bound. fold n. lia.
    + rewrite (Hmarked _ _ Hk), available_marked by done. lia.
    + eauto.
Qed.

(** ** The rate-limit path *)

(** C10: a rate-limit failure at an attempt number beyond [maxRetries],
    while some key is available, ends the dispatch by rethrowing the error
    that the upstream call raised; no sleep and no further call happen, and
    the [All API keys are currently rate limited] error is not created. *)
Theorem rate_limit_after_last_retry upstream content attempt w e :
  wf w ->
  reply (upstream (calls w)) = Fails e ->
  isRateLimitError e = true ->
  (exists i, (i < length (apiKeys (this w)))%nat /\
     available (clock w + elapsed (upstream (calls w)))
               (rateLimitResetTimes (this w) !! i) = true) ->
  maxRetries (config (this w)) < attempt ->
  exists w',
    callGeminiWithRetry upstream content attempt w = Throw e w' /\
    trace w' = trace w ++ [EvCall (model (this w))] /\
    calls w' = S (calls w).
Proof.
  intros Hw Hr He (i & Hi & Hav) Hmax.
  rewrite callGeminiWithRetry_step by done. cbn zeta. rewrite Hr, He.
  rewrite clock_after_failure, this_after_failure.
  destruct (scan_round_Some _ (this w) i (wf_current w Hw) Hi Hav) as [k ->].
  assert ((attempt <=? maxRetries (config (this w))) = false) as -> by lia.
  eexists. split; [reflexivity|].
  by rewrite trace_selected, calls_selected, trace_after_failure, calls_after_failure.
Qed.

(** C1: on a fresh two-key pool whose first call is rejected for quota:
    the failure is classified as a rate limit, yet the key's
    [rateLimitHits] stays 0, no reset time is stored, the current index
    stays 0, and the retry goes out on the same key. *)
Lemma rate_limit_failure_marks_nothing :
  exists w',
    callGeminiWithRetry (failing_first 1 quota_error "ok") "prompt" 1
      (boot [key_a; key_b] defaults) = Return "ok" w' /\
    isRateLimitError quota_error = true /\
    rateLimitHits <$> stats_of w' 0 = Some 0 /\
    rateLimitResetTimes (this w') = ∅ /\
    currentKeyIndex (this w') = 0%nat /\
    trace w' = [EvCall (Some key_a); EvSleep 1000; EvCall (Some key_a)].
Proof. eexists. split; [vm_compute; reflexivity|]. by vm_compute. Qed.

(** C2: on a fresh one-key pool whose every call is rejected for quota:
    the dispatcher sleeps and retries three times and then rethrows the
    upstream error. *)
Lemma single_key_rate_limit_retries :
  exists w',
    callGeminiWithRetry (fun _ => fails_with quota_error) "prompt" 1
      (boot [key_a] defaults) = Throw quota_error w' /\
    quota_error <> AllKeysRateLimited /\
    trace w' = [EvCall (Some key_a); EvSleep 1000; EvCall (Some key_a); EvSleep 1000;
                EvCall (Some key_a); EvSleep 1000; EvCall (Some key_a)].
Proof. eexists. split; [vm_compute; reflexivity|]. by vm_compute. Qed.

(** C3: on a fresh three-key pool whose first two calls fail with a server
    error: the rotation before the third attempt records a rate-limit hit
    on key 0 and puts it into a one-minute cooldown. *)
Lemma generic_retry_marks_rate_limited :
  exists w',
    callGeminiWithRetry (failing_first 2 server_error "ok") "prompt" 1
      (boot [key_a; key_b; key_c] defaults) = Return "ok" w' /\
    isRateLimitError server_error = false /\
    rateLimitHits <$> stats_of w' 0 = Some 1 /\
    rateLimitResetTimes (this w') !! 0%nat = Some (clock blank + 3500 + 60000) /\
    currentKeyIndex (this w') = 1%nat.
Proof. eexists. split; [vm_compute; reflexivity|]. by vm_compute. Qed.

(** ** Usage statistics *)

Lemma length_app_string (s t : string) :
  String.length (s +:+ t) = (String.length s + String.length t)%nat.
Proof. induction s as [|a s IH]; simpl; [done | by rewrite IH]. Qed.

Lemma length_substring0 n s :
  String.length (JsString.substring0 n s) = (n `min` String.length s)%nat.
Proof.
  revert s. induction n as [|n IH]; intros [|a s]; simpl; try done. by rewrite IH.
Qed.

Lemma substring0_all n s :
  (String.length s <= n)%nat -> JsString.substring0 n s = s.
Proof.
  revert s. induction n as [|n IH]; intros [|a s] H; simpl in *; try done; [lia|].
  rewrite IH; [done | lia].
Qed.

Lemma startsWith_substring0 n s : JsString.startsWith (JsString.substring0 n s) s = true.
Proof.
  revert s. induction n as [|n IH]; intros [|a s]; simpl; try done.
  by rewrite Ascii.eqb_refl.
Qed.

Lemma startsWith_app s t : JsString.startsWith s (s +:+ t) = true.
Proof. induction s as [|a s IH]; simpl; [done | by rewrite Ascii.eqb_refl]. Qed.

Lemma startsWith_length p s :
  JsString.startsWith p s = true -> (String.length p <= String.length s)%nat.
Proof.
  revert s. induction p as [|a p IH]; intros [|b s]; simpl; try done; [lia|].
  destruct (Ascii.eqb a b); [|done]. intros H. apply IH in H. lia.
Qed.

Lemma includes_length sub s :
  JsString.includes sub s = true -> (String.length sub <= String.length s)%nat.
Proof.
  induction s as [|b s IH]; simpl.
  - destruct (JsString.startsWith sub EmptyString) eqn:E; [|done].
    intros _. by apply startsWith_length in E.
  - destruct (JsString.startsWith sub (String b s)) eqn:E.
    + intros _. by apply startsWith_length in E.
    + intros H. apply IH in H. lia.
Qed.

Lemma includes_startsWith sub s :
  JsString.startsWith sub s = true -> JsString.includes sub s = true.
Proof. intros H. destruct s; simpl in *; by rewrite H. Qed.

(** The preview of a key: its first eight code units and three dots. *)
Lemma preview_facts key :
  let preview := JsString.substring0 8 key +:+ "..." in
  (String.length preview <= 11)%nat /\
  JsString.startsWith (JsString.substring0 8 key) key = true /\
  String.length (JsString.substring0 8 key) = (8 `min` String.length key)%nat /\
  ((11 < String.length key)%nat -> JsString.includes key preview = false) /\
  ((String.length key <= 8)%nat -> JsString.includes key preview = true).
Proof.
  intros preview. subst preview.
  pose proof (length_substring0 8 key) as Hl.
  change (String.length "...") with 3%nat in *.
  split; [rewrite length_app_string, Hl; change (String.length "...") with 3%nat; lia|].
  split; [apply startsWith_substring0|]. split; [done|]. split.
  - intros Hlong. destruct (JsString.includes key _) eqn:E; [|done].
    apply includes_length in E. rewrite length_app_string, Hl in E.
    change (String.length "...") with 3%nat in E. lia.
  - intros Hshort. rewrite substring0_all by done.
    apply includes_startsWith, startsWith_app.
Qed.

Lemma stats_of_alloc_usage u w j :
  stats_of (set_heap (heap w ++ [ObjUsage u]) w) j = stats_of w j.
Proof.
  unfold stats_of. simpl. destruct (keyUsageStats (this w) !! j) as [l|]; [|done].
  destruct (decide (l < length (heap w))%nat).
  - by rewrite lookup_app_l.
  - rewrite lookup_app_r, (lookup_ge_None_2 (heap w)) by lia.
    by destruct (l - length (heap w))%nat.
Qed.

Lemma usage_entries_spec keys : forall index w,
  exists objs,
    usage_entries index keys w =
      Return (seq (length (heap w)) (length keys)) (set_heap (heap w ++ objs) w) /\
    length objs = length keys /\
    forall j key, keys !! j = Some key ->
      objs !! j = Some (ObjUsage (mkUsage (index + j)
                                          (JsString.substring0 8 key +:+ "...")
                                          (index + j =? currentKeyIndex (this w))%nat
                                          (stats_of w (index + j)%nat))).
Proof.
  induction keys as [|key keys IH]; intros index w.
  - exists []. simpl. unfold ret, set_heap. rewrite app_nil_r.
    destruct w; by repeat split.
  - set (o := ObjUsage (mkUsage index (JsString.substring0 8 key +:+ "...")
                                (index =? currentKeyIndex (this w))%nat (stats_of w index))).
    destruct (IH (S index) (set_heap (heap w ++ [o]) w)) as (objs & Hrun & Hlen & Hobjs).
    exists (o :: objs). split; [|split].
    + cbn [usage_entries]. unfold bind at 1. unfold usage_entry, alloc.
      fold (stats_of w index). fold o. unfold bind at 1. rewrite Hrun.
      unfold ret, set_heap. cbn [heap this clock calls trace length].
      rewrite length_app, <- app_assoc. cbn [length app].
      by rewrite Nat.add_1_r.
    + cbn [length]. by rewrite Hlen.
    + intros [|j] key' Hj.
      * injection Hj as <-. by rewrite Nat.add_0_r.
      * change (keys !! j = Some key') in Hj.
        change ((o :: objs) !! S j) with (objs !! j). rewrite (Hobjs _ _ Hj).
        subst o. rewrite stats_of_alloc_usage. cbn [this set_heap].
        by rewrite Nat.add_succ_r.
Qed.

Lemma length_trimStart s : (String.length (JsString.trimStart s) <= String.length s)%nat.
Proof. induction s as [|a s IH]; simpl; [done|]. destruct (JsString.is_space a); simpl; lia. Qed.

Lemma length_trimEnd s : (String.length (JsString.trimEnd s) <= String.length s)%nat.
Proof.
  induction s as [|a s IH]; simpl; [done|].
  destruct (JsString.trimEnd s); [destruct (JsString.is_space a)|]; simpl in *; lia.
Qed.

Lemma length_trim s : (String.length (JsString.trim s) <= String.length s)%nat.
Proof.
  unfold JsString.trim. etrans; [apply length_trimEnd | apply length_trimStart].
Qed.

(** A key that [loadAPIKeys] keeps. *)
Lemma kept_key key :
  placeholder key = false ->
  (20 <= String.length key)%nat /\
  JsString.includes "your-api-key" key = false /\
  JsString.includes "your-key" key = false.
Proof.
  unfold placeholder. rewrite !orb_false_iff. intros [[H1 H2] H3].
  apply Nat.ltb_ge in H3. pose proof (length_trim key). split_and!; [lia|done..].
Qed.

(** C9: [getUsageStats()] is read-only and masking.  It only adds fresh
    objects to the store: the service, the clock and every object that
    existed before are as they were, the returned references are new, so a
    write through any of them leaves the earlier objects alone.  The keys
    of a pool are validated by the caller before construction, as
    [loadAPIKeys] does: no placeholder, at least 20 code units after
    trimming.  For such a pool, entry [j] reports the counters of key [j]
    and a preview made of the first eight code units of the key and three
    dots, which never contains the key. *)
Theorem getUsageStats_readonly_preview w :
  Forall (fun key => placeholder key = false) (apiKeys (this w)) ->
  exists objs,
    let refs := seq (length (heap w)) (length (apiKeys (this w))) in
    getUsageStats w = Return refs (set_heap (heap w ++ objs) w) /\
    length objs = length (apiKeys (this w)) /\
    (forall l, (l < length (heap w))%nat -> (heap w ++ objs) !! l = heap w !! l) /\
    (forall r o l, r ∈ refs -> (l < length (heap w))%nat ->
       <[r := o]> (heap w ++ objs) !! l = heap w !! l) /\
    (forall j key, apiKeys (this w) !! j = Some key ->
       exists u,
         (heap w ++ objs) !! (length (heap w) + j)%nat = Some (ObjUsage u) /\
         keyIndex u = j /\
         isCurrent u = (j =? currentKeyIndex (this w))%nat /\
         spread u = stats_of w j /\
         keyPreview u = JsString.substring0 8 key +:+ "..." /\
         (String.length (keyPreview u) <= 11)%nat /\
         JsString.startsWith (JsString.substring0 8 key) key = true /\
         String.length (JsString.substring0 8 key) = 8%nat /\
         JsString.includes key (keyPreview u) = false).
Proof.
  intros Hvalid.
  destruct (usage_entries_spec (apiKeys (this w)) 0 w) as (objs & Hrun & Hlen & Hobjs).
  exists objs. cbn zeta. split; [|split; [done|split; [|split]]].
  - unfold getUsageStats, bind, gets. exact Hrun.
  - intros l Hl. by apply lookup_app_l.
  - intros r o l Hr Hl. apply elem_of_seq in Hr.
    rewrite list_lookup_insert_ne by lia. by apply lookup_app_l.
  - intros j key Hj. eexists. split.
    + rewrite lookup_app_r by lia.
      replace (length (heap w) + j - length (heap w))%nat with j by lia.
      by apply Hobjs.
    + cbn [keyIndex isCurrent spread keyPreview].
      assert (placeholder key = false) as Hkey.
      { eapply Forall_forall in Hvalid; [done|]. by eapply list_elem_of_lookup_2. }
      apply kept_key in Hkey as [Hlong _].
      destruct (preview_facts key) as (Hmax & Hprefix & Hsub & Hhide & _).
      split_and!; try done; [rewrite Hsub; lia | apply Hhide; lia].
Qed.

(** ** The response parser *)

Lemma parse_try_None JSON_parse responseText :
  parse_try JSON_parse responseText = None <->
  JSON_parse (cleanedText responseText) = None \/
  JSON_parse (cleanedText responseText) = Some JNull \/
  JSON_parse (cleanedText responseText) = Some JUndefined.
Proof.
  unfold parse_try. destruct (JSON_parse (cleanedText responseText)) as [v|]; simpl.
  - destruct v; simpl; split; intros H; try done; eauto;
      destruct H as [H|[H|H]]; done.
  - split; eauto.
Qed.

Lemma parse_try_object JSON_parse responseText fields :
  JSON_parse (cleanedText responseText) = Some (JObj fields) ->
  let prop name := default JUndefined (own_property name fields) in
  parseDetectionResult JSON_parse responseText =
  mkDetection (js_or (prop "hasPII") (JBool false))
              (js_or (prop "confidence") (num 0))
              (js_or (prop "detectedItems") (JArr []))
              (js_or (prop "reasoning") (JStr EmptyString))
              (js_or (prop "riskLevel") (JStr "low"))
              (prop "imageContainsText")
              JUndefined.
Proof. intros H. unfold parseDetectionResult, parse_try. by rewrite H. Qed.

(** A value that is neither an object nor [null] has none of the
    properties, so every field gets its default. *)
Lemma parse_try_primitive JSON_parse responseText v :
  JSON_parse (cleanedText responseText) = Some v ->
  match v with JBool _ | JNum _ | JStr _ | JArr _ => True | _ => False end ->
  parseDetectionResult JSON_parse responseText =
  mkDetection (JBool false) (num 0) (JArr []) (JStr EmptyString) (JStr "low")
              JUndefined JUndefined.
Proof.
  intros H Hv. unfold parseDetectionResult, parse_try. rewrite H.
  by destruct v.
Qed.

Lemma hasPIIIndicators_true responseText :
  hasPIIIndicators responseText = true <->
  exists trigger, trigger ∈ ["detected"; "found"; "phone"; "email"] /\
    JsString.includes trigger (JsString.toLowerCase responseText) = true.
Proof.
  unfold hasPIIIndicators. rewrite !orb_true_iff. split.
  - intros [[[H|H]|H]|H]; eexists; (split; [|exact H]); set_solver.
  - intros (trigger & Hin & H).
    repeat (apply elem_of_cons in Hin as [->|Hin]); [tauto..|].
    by apply elem_of_nil in Hin.
Qed.

(** C5 (as amended): [parseDetectionResult] returns a result for every
    text.  The [try] block raises exactly when [JSON.parse] throws on the
    cleaned text or yields [null]; the result is then the fallback object:
    [hasPII] tells whether the lower-cased raw text contains [detected],
    [found], [phone] or [email], [confidence] is 50, [riskLevel] is
    [medium], [detectedItems] is empty and [reasoning] is the fixed
    message.  A parsed boolean, number, string or array is not such a
    failure: it yields the all-defaults result. *)
Theorem parseDetectionResult_fallback JSON_parse responseText :
  (exists r, parseDetectionResult JSON_parse responseText = r) /\
  (JSON_parse (cleanedText responseText) = None \/
   JSON_parse (cleanedText responseText) = Some JNull ->
   let r := parseDetectionResult JSON_parse responseText in
   r = fallback_result responseText /\
   (hasPII r = JBool true <->
      exists trigger, trigger ∈ ["detected"; "found"; "phone"; "email"] /\
        JsString.includes trigger (JsString.toLowerCase responseText) = true) /\
   (hasPII r = JBool true \/ hasPII r = JBool false) /\
   confidence r = num 50 /\
   riskLevel r = JStr "medium" /\
   detectedItems r = JArr [] /\
   reasoning r = JStr "Failed to parse response, flagging as potential PII") /\
  (forall v, JSON_parse (cleanedText responseText) = Some v ->
     match v with JBool _ | JNum _ | JStr _ | JArr _ => True | _ => False end ->
     parseDetectionResult JSON_parse responseText =
     mkDetection (JBool false) (num 0) (JArr []) (JStr EmptyString) (JStr "low")
                 JUndefined JUndefined).
Proof.
  split; [eauto|]. split; [|intros v; apply parse_try_primitive].
  intros H r.
  assert (r = fallback_result responseText) as ->.
  { subst r. unfold parseDetectionResult.
    replace (parse_try JSON_parse responseText) with (@None DetectionResult); [done|].
    symmetry. apply parse_try_None. tauto. }
  split; [done|]. cbn [fallback_result hasPII confidence riskLevel detectedItems reasoning].
  split; [|split; [destruct (hasPIIIndicators responseText); tauto | done]].
  rewrite <- hasPIIIndicators_true. split; [by intros [= ->] | by intros ->].
Qed.

(** C5 as stated fails on a quoted sentence: it is valid JSON but not a
    record, holds the trigger [detected], and comes back unflagged with
    confidence 0 instead of going through the fallback. *)
Lemma quoted_text_is_not_fallback : ~ fallback_unless_record JsonRef.JSON_parse.
Proof.
  intros H. specialize (H (JsonRef.text_of "'PII detected'")).
  assert (hasPII (parseDetectionResult JsonRef.JSON_parse (JsonRef.text_of "'PII detected'"))
          = JBool true) as Hflag.
  { rewrite H; [by vm_compute|]. intros fields. by vm_compute. }
  by vm_compute in Hflag.
Qed.

Lemma truthy_number_kept n d :
  exists n', js_or (JNum n) (num d) = JNum n' /\
             (truthy (JNum n) = true -> n' = n) /\
             (d = 0 -> same_number n' n).
Proof.
  unfold js_or. destruct (truthy (JNum n)) eqn:E.
  - exists n. split; [done|]. split; [done|]. intros _.
    destruct n as [q| |s]; simpl; [reflexivity|done..].
  - exists (Finite (inject_Z d)). split; [done|]. split; [done|]. intros ->.
    destruct n as [q| |s]; simpl in *; [|reflexivity|done].
    apply negb_false_iff, Z.eqb_eq in E. unfold Qeq. simpl. lia.
Qed.

(** C6: when the cleaned text parses to an object, the result is built
    from it field by field ([hasPII], [confidence], [detectedItems],
    [reasoning], [riskLevel] are the spec's [flagged], [confidence],
    [items], [reasoning], [severity]): an absent field gets its default,
    a present boolean, number, array or string is kept (an empty
    [riskLevel] aside), and so is any other truthy value.  On the text
    [{"hasPII":true}] the reference parser gives [hasPII = true] and
    defaults everywhere else. *)
Theorem partial_record_defaults :
  (forall JSON_parse responseText fields,
     JSON_parse (cleanedText responseText) = Some (JObj fields) ->
     let r := parseDetectionResult JSON_parse responseText in
     rawResponse r = JUndefined /\
     (own_property "hasPII" fields = None -> hasPII r = JBool false) /\
     (own_property "confidence" fields = None -> confidence r = num 0) /\
     (own_property "detectedItems" fields = None -> detectedItems r = JArr []) /\
     (own_property "reasoning" fields = None -> reasoning r = JStr EmptyString) /\
     (own_property "riskLevel" fields = None -> riskLevel r = JStr "low") /\
     (forall b, own_property "hasPII" fields = Some (JBool b) -> hasPII r = JBool b) /\
     (forall n, own_property "confidence" fields = Some (JNum n) ->
        exists n', confidence r = JNum n' /\ same_number n' n) /\
     (forall l, own_property "detectedItems" fields = Some (JArr l) -> detectedItems r = JArr l) /\
     (forall s, own_property "reasoning" fields = Some (JStr s) -> reasoning r = JStr s) /\
     (forall s, own_property "riskLevel" fields = Some (JStr s) -> s <> EmptyString ->
        riskLevel r = JStr s) /\
     (forall v, truthy v = true ->
        (own_property "hasPII" fields = Some v -> hasPII r = v) /\
        (own_property "confidence" fields = Some v -> confidence r = v) /\
        (own_property "detectedItems" fields = Some v -> detectedItems r = v) /\
        (own_property "reasoning" fields = Some v -> reasoning r = v) /\
        (own_property "riskLevel" fields = Some v -> riskLevel r = v))) /\
  parseDetectionResult JsonRef.JSON_parse (JsonRef.text_of "{'hasPII':true}") =
  mkDetection (JBool true) (num 0) (JArr []) (JStr EmptyString) (JStr "low")
              JUndefined JUndefined.
Proof.
  split; [|by vm_compute].
  intros JSON_parse responseText fields H r. subst r.
  rewrite (parse_try_object _ _ _ H).
  cbn [hasPII confidence detectedItems reasoning riskLevel rawResponse].
  split; [done|].
  split_and!.
  1-5: by intros ->.
  - intros b ->. by destruct b.
  - intros n ->. cbn [default from_option id].
    destruct (truthy_number_kept n 0) as (n' & -> & _ & Hsame).
    exists n'. split; [done|]. by apply Hsame.
  - by intros l ->.
  - intros s ->. by destruct s.
  - intros s -> Hs. by destruct s.
  - intros v Hv. unfold js_or.
    split_and!; intros ->; cbn [default from_option id]; by rewrite Hv.
Qed.

Lemma truthy_Finite q : truthy (JNum (Finite q)) = true <-> ~ (q == 0)%Q.
Proof.
  simpl. rewrite negb_true_iff, Z.eqb_neq. unfold Qeq. simpl. lia.
Qed.

(** C7 (as amended): for a parsed object, [confidence] and [riskLevel]
    are [parsed.confidence || 0] and [parsed.riskLevel || 'low']: the
    default replaces an absent or falsy value only, and every other value
    is returned as it is, a confidence outside 0..100 and a risk level
    outside the enumeration included. *)
Theorem only_falsy_values_are_defaulted JSON_parse responseText fields :
  JSON_parse (cleanedText responseText) = Some (JObj fields) ->
  let r := parseDetectionResult JSON_parse responseText in
  (own_property "confidence" fields = None -> confidence r = num 0) /\
  (forall v, own_property "confidence" fields = Some v ->
     confidence r = if truthy v then v else num 0) /\
  (forall q, own_property "confidence" fields = Some (JNum (Finite q)) ->
     ~ (q == 0)%Q -> confidence r = JNum (Finite q)) /\
  (own_property "riskLevel" fields = None -> riskLevel r = JStr "low") /\
  (forall v, own_property "riskLevel" fields = Some v ->
     riskLevel r = if truthy v then v else JStr "low") /\
  (forall s, own_property "riskLevel" fields = Some (JStr s) ->
     s <> EmptyString -> riskLevel r = JStr s).
Proof.
  intros H r. subst r. rewrite (parse_try_object _ _ _ H).
  cbn [confidence riskLevel]. unfold js_or. split_and!.
  - by intros ->.
  - by intros v ->.
  - intros q -> Hq. cbn [default from_option id].
    apply truthy_Finite in Hq. by rewrite Hq.
  - by intros ->.
  - by intros v ->.
  - intros s -> Hs. by destruct s.
Qed.

(** C7 as stated fails on a record with confidence 150 and risk level
    [extreme]: both come back unchanged. *)
Lemma out_of_range_is_kept : ~ coerces_out_of_range JsonRef.JSON_parse.
Proof.
  intros H.
  destruct (H (JsonRef.text_of "{'hasPII':true,'confidence':150,'riskLevel':'extreme'}")
              [("hasPII", JBool true); ("confidence", num 150); ("riskLevel", JStr "extreme")])
    as [Hconf _]; [by vm_compute|].
  specialize (Hconf (num 150) eq_refl).
  assert (~ in_confidence_range (num 150)) as Hout.
  { intros [_ Hle]. by vm_compute in Hle. }
  specialize (Hconf Hout). by vm_compute in Hconf.
Qed.

(** ** Where the rate-limit marks are written *)

Lemma stats_of_issue_call o w i : stats_of (issue_call o w) i = stats_of w i.
Proof. reflexivity. Qed.

Lemma stats_of_slept ms w i : stats_of (slept ms w) i = stats_of w i.
Proof. reflexivity. Qed.

Lemma stats_of_selected k w i : stats_of (selected k w) i = stats_of w i.
Proof. unfold selected. by case_match. Qed.

Lemma stats_of_rotated w i :
  stats_of (rotated w) i =
  stats_of (upd_stats (currentKeyIndex (this w)) incr_rateLimitHits w) i.
Proof. unfold stats_of, rotated. cbn [this heap set_this]. by rewrite this_upd_stats. Qed.

Lemma stats_of_upd_stats_same i f w :
  stats_of (upd_stats i f w) i = f <$> stats_of w i.
Proof.
  unfold stats_of, upd_stats.
  destruct (keyUsageStats (this w) !! i) as [l|] eqn:Hi; [|by rewrite Hi].
  destruct (heap w !! l) as [[s|u]|] eqn:Hl; rewrite ?Hi, ?Hl; try done.
  cbn [this heap set_heap]. rewrite Hi, list_lookup_insert_eq; [done|].
  by eapply lookup_lt_Some.
Qed.

(** A bookkeeping update that does not touch [rateLimitHits] leaves that
    counter of every key as it was. *)
Lemma rateLimitHits_upd_stats i f w j :
  (forall s, rateLimitHits (f s) = rateLimitHits s) ->
  rateLimitHits <$> stats_of (upd_stats i f w) j = rateLimitHits <$> stats_of w j.
Proof.
  intros Hf. unfold stats_of, upd_stats.
  destruct (keyUsageStats (this w) !! i) as [l|] eqn:Hi; [|done].
  destruct (heap w !! l) as [[s|u]|] eqn:Hl; try done.
  cbn [this heap set_heap].
  destruct (keyUsageStats (this w) !! j) as [l'|]; [|done].
  destruct (decide (l = l')) as [<-|Hne].
  - rewrite list_lookup_insert_eq, Hl by by eapply lookup_lt_Some.
    simpl. by rewrite Hf.
  - by rewrite list_lookup_insert_ne.
Qed.

Lemma rateLimitHits_after_failure o w j :
  rateLimitHits <$> stats_of (after_failure o w) j = rateLimitHits <$> stats_of w j.
Proof.
  unfold after_failure, record_error, record_attempt.
  rewrite rateLimitHits_upd_stats, stats_of_issue_call, !rateLimitHits_upd_stats; done.
Qed.

(** Handling a rate-limit failure writes no mark: whether the dispatcher
    retries or throws, the world it goes on with has the reset times and
    the [rateLimitHits] of every key that the call started with. *)
Lemma rate_limit_path_writes_no_mark upstream content attempt w e :
  wf w ->
  reply (upstream (calls w)) = Fails e ->
  isRateLimitError e = true ->
  exists w',
    (callGeminiWithRetry upstream content attempt w =
       callGeminiWithRetry upstream content (attempt + 1) w' \/
     exists err, callGeminiWithRetry upstream content attempt w = Throw err w') /\
    rateLimitResetTimes (this w') = rateLimitResetTimes (this w) /\
    forall j, rateLimitHits <$> stats_of w' j = rateLimitHits <$> stats_of w j.
Proof.
  intros Hw Hr He. rewrite callGeminiWithRetry_step by done. cbn zeta. rewrite Hr, He.
  destruct (scan _ _ _ _) as [k|].
  - destruct (attempt <=? maxRetries (config (this w))).
    + eexists. split; [by left|]. cbn [this slept].
      rewrite rateLimitResetTimes_selected, this_after_failure. split; [done|].
      intros j. by rewrite stats_of_slept, stats_of_selected, rateLimitHits_after_failure.
    + eexists. split; [right; by eexists|].
      rewrite rateLimitResetTimes_selected, this_after_failure. split; [done|].
      intros j. by rewrite stats_of_selected, rateLimitHits_after_failure.
  - eexists. split; [right; by eexists|].
    rewrite this_after_failure. split; [done|].
    intros j. by rewrite rateLimitHits_after_failure.
Qed.

(** The retry after a failure that is not a rate limit, from the second
    attempt on, goes through [rotateAPIKey()]: the key that was current
    gets one more [rateLimitHits] and a reset time one minute after the
    backoff sleep. *)
Lemma generic_retry_writes_mark upstream content attempt w e :
  wf w ->
  reply (upstream (calls w)) = Fails e ->
  isRateLimitError e = false ->
  1 < attempt <= maxRetries (config (this w)) ->
  let o := upstream (calls w) in
  let c := currentKeyIndex (this w) in
  let w' := backed_off attempt (after_failure o w) in
  callGeminiWithRetry upstream content attempt w =
    callGeminiWithRetry upstream content (attempt + 1) w' /\
  rateLimitResetTimes (this w') !! c =
    Some (clock w + elapsed o + timer_delay (retryDelay (config (this w)) * 2 ^ (attempt - 1))
          + 60000) /\
  rateLimitHits <$> stats_of w' c = (fun n => n + 1) <$> (rateLimitHits <$> stats_of w c).
Proof.
  intros Hw Hr He Ha o c w'.
  split; [apply (generic_retry _ _ _ _ e); (done || lia)|].
  subst w'. unfold backed_off.
  assert ((1 <? attempt) = true) as -> by lia.
  rewrite this_rotated. cbn [rateLimitResetTimes this slept clock].
  rewrite this_after_failure, clock_after_failure. fold c o.
  split; [by rewrite lookup_insert_eq|].
  rewrite stats_of_rotated. cbn [this slept].
  rewrite this_after_failure. fold c.
  rewrite stats_of_upd_stats_same, stats_of_slept.
  rewrite <- (rateLimitHits_after_failure o w c), <- !option_fmap_compose.
  by destruct (stats_of (after_failure o w) c).
Qed.

(** ** The theorems at sample inputs *)

Ltac by_computation := apply (bool_decide_unpack _); vm_compute; exact I.

Lemma backoff_schedule_witness :
  exists w1 w2 w3 w',
    callGeminiWithRetry (failing_first 3 server_error "ok") "prompt" 1
      (boot [key_a; key_b; key_c] defaults) = Return "ok" w' /\
    sleeps (trace w') = [1000; 2000; 4000] /\
    clock w1 = clock (boot [key_a; key_b; key_c] defaults) + 250 + 1000 /\
    clock w2 = clock w1 + 250 + 2000 /\
    clock w3 = clock w2 + 250 + 4000 /\
    clock w' = clock w3 + 250.
Proof.
  destruct (backoff_schedule (failing_first 3 server_error "ok") "prompt"
              (boot [key_a; key_b; key_c] defaults)
              server_error server_error server_error "ok")
    as (w1 & w2 & w3 & w' & Hrun & _ & Hsleeps & _ & _ & _ & _ & _ & _ & _ & _ &
        C1 & C2 & C3 & C4 & _).
  - by_computation.
  - reflexivity.
  - reflexivity.
  - reflexivity.
  - reflexivity.
  - reflexivity.
  - reflexivity.
  - reflexivity.
  - reflexivity.
  - reflexivity.
  - exists w1, w2, w3, w'.
    split; [exact Hrun|]. split; [exact Hsleeps|].
    split; [exact C1|]. split; [exact C2|]. split; [exact C3|]. exact C4.
Defined.

Lemma round_robin_cooldown_witness :
  exists visited w',
    mark_all [1000; 2000; 3000] (boot [key_a; key_b; key_c] defaults) = Return visited w' /\
    visited = [0; 1; 2]%nat /\
    currentKeyIndex (this w') = 0%nat /\
    findAvailableKey (set_clock 61000 w') = Return false (set_clock 61000 w').
Proof.
  destruct (round_robin_cooldown [1000; 2000; 3000] (boot [key_a; key_b; key_c] defaults))
    as (visited & w' & Hrun & Hvisited & _ & _ & Hcur & _ & Hall & _).
  - by_computation.
  - reflexivity.
  - repeat constructor; discriminate.
  - exists visited, w'. split; [exact Hrun|]. split; [exact Hvisited|].
    split; [exact Hcur|]. apply Hall. repeat constructor; discriminate.
Defined.

Lemma rate_limit_after_last_retry_witness :
  exists w',
    callGeminiWithRetry (fun _ => fails_with quota_error) "prompt" 1
      (boot [key_a; key_b] (mkConfigArg (Some 0) None)) = Throw quota_error w' /\
    calls w' = 1%nat.
Proof.
  destruct (rate_limit_after_last_retry (fun _ => fails_with quota_error) "prompt" 1
              (boot [key_a; key_b] (mkConfigArg (Some 0) None)) quota_error)
    as (w' & Hrun & _ & Hcalls).
  - by_computation.
  - reflexivity.
  - reflexivity.
  - exists 0%nat. split; [vm_compute; lia | reflexivity].
  - reflexivity.
  - exists w'. split; [exact Hrun | exact Hcalls].
Defined.

Lemma getUsageStats_readonly_preview_witness :
  exists objs u,
    getUsageStats (boot [key_a; key_b] defaults) =
      Return [2; 3]%nat (set_heap (heap (boot [key_a; key_b] defaults) ++ objs)
                                  (boot [key_a; key_b] defaults)) /\
    objs !! 0%nat = Some (ObjUsage u) /\
    keyPreview u = "AIzaSyA-..." /\
    JsString.includes key_a (keyPreview u) = false.
Proof.
  destruct (getUsageStats_readonly_preview (boot [key_a; key_b] defaults))
    as (objs & Hrun & _ & _ & _ & Hentries).
  - by_computation.
  - destruct (Hentries 0%nat key_a eq_refl)
      as (u & Hu & _ & _ & _ & Hprev & _ & _ & _ & Hhide).
    exists objs, u. split; [exact Hrun|]. split; [exact Hu|]. split; [exact Hprev|].
    exact Hhide.
Defined.

Lemma parseDetectionResult_fallback_witness :
  parseDetectionResult JsonRef.JSON_parse "I detected a phone number" =
    fallback_result "I detected a phone number" /\
  confidence (parseDetectionResult JsonRef.JSON_parse "I detected a phone number") = num 50.
Proof.
  destruct (parseDetectionResult_fallback JsonRef.JSON_parse "I detected a phone number")
    as (_ & Hfallback & _).
  destruct Hfallback as (Hr & _ & _ & Hconf & _); [left; reflexivity|].
  split; [exact Hr | exact Hconf].
Defined.

Lemma partial_record_defaults_witness :
  hasPII (parseDetectionResult JsonRef.JSON_parse (JsonRef.text_of "{'hasPII':true}"))
    = JBool true /\
  riskLevel (parseDetectionResult JsonRef.JSON_parse (JsonRef.text_of "{'hasPII':true}"))
    = JStr "low".
Proof.
  destruct partial_record_defaults as [Hgeneral _].
  destruct (Hgeneral JsonRef.JSON_parse (JsonRef.text_of "{'hasPII':true}")
              [("hasPII", JBool true)] eq_refl)
    as (_ & _ & _ & _ & _ & Hrisk & Hflag & _).
  split; [apply Hflag; reflexivity | apply Hrisk; reflexivity].
Defined.

Lemma only_falsy_values_are_defaulted_witness :
  confidence (parseDetectionResult JsonRef.JSON_parse
                (JsonRef.text_of "{'confidence':150,'riskLevel':'extreme'}")) = num 150 /\
  riskLevel (parseDetectionResult JsonRef.JSON_parse
                (JsonRef.text_of "{'confidence':150,'riskLevel':'extreme'}")) = JStr "extreme".
Proof.
  destruct (only_falsy_values_are_defaulted JsonRef.JSON_parse
              (JsonRef.text_of "{'confidence':150,'riskLevel':'extreme'}")
              [("confidence", num 150); ("riskLevel", JStr "extreme")] eq_refl)
    as (_ & _ & Hconf & _ & _ & Hrisk).
  split.
  - apply Hconf; [reflexivity | discriminate].
  - apply Hrisk; [reflexivity | discriminate].
Defined.

(** * Further properties of the service *)

(** ** The constructor *)

Lemma alloc_stats_spec keys : forall w,
  alloc_stats keys w =
  Return (seq (length (heap w)) (length keys))
         (set_heap (heap w ++ replicate (length keys) (ObjStats fresh_stats)) w).
Proof.
  induction keys as [|key keys IH]; intros w.
  - simpl. unfold ret, set_heap. rewrite app_nil_r. by destruct w.
  - cbn [alloc_stats]. unfold bind at 1, alloc. unfold bind at 1. rewrite IH.
    unfold ret, set_heap. cbn [heap this clock calls trace length seq replicate].
    rewrite length_app, <- app_assoc. cbn [length app]. by rewrite Nat.add_1_r.
Qed.

(** What the constructor builds from a non-empty key list. *)
Lemma constructor_ok keys c w :
  keys <> [] ->
  exists w',
    constructor keys c w = Return tt w' /\
    wf w' /\
    apiKeys (this w') = keys /\
    currentKeyIndex (this w') = 0%nat /\
    model (this w') = head keys /\
    config (this w') = default_config c /\
    rateLimitResetTimes (this w') = ∅ /\
    (forall i, (i < length keys)%nat -> stats_of w' i = Some fresh_stats) /\
    (forall l, (l < length (heap w))%nat -> heap w' !! l = heap w !! l) /\
    clock w' = clock w /\ trace w' = trace w.
Proof.
  intros Hne. destruct keys as [|key keys]; [done|].
  eexists. split.
  { unfold constructor.
    unfold bind at 1. rewrite alloc_stats_spec.
    unfold bind, modify, initializeClient. reflexivity. }
  set (ks := key :: keys) in *.
  assert (0 < length ks)%nat as Hpos by (cbn; lia). clearbody ks.
  assert (forall i, (i < length ks)%nat ->
            (heap w ++ replicate (length ks) (ObjStats fresh_stats)) !! (length (heap w) + i)%nat
            = Some (ObjStats fresh_stats)) as Hnew.
  { intros i Hi. rewrite lookup_app_r by lia.
    replace (length (heap w) + i - length (heap w))%nat with i by lia.
    by apply lookup_replicate_2. }
  simpl. split_and!; try done.
  - constructor; simpl; try done.
    + by rewrite length_seq.
    + apply NoDup_seq.
    + apply Forall_forall. intros l Hl. apply elem_of_seq in Hl.
      replace l with (length (heap w) + (l - length (heap w)))%nat by lia.
      rewrite Hnew by lia. done.
  - by rewrite head_lookup.
  - intros i Hi. unfold stats_of. simpl.
    rewrite lookup_seq_lt by done. by rewrite Hnew.
  - intros l Hl. by apply lookup_app_l.
Qed.

(** X1: the constructor refuses an empty key list with the error
    [At least one API key is required] and leaves the world alone; for any
    other list it succeeds and sets up a well-formed service on key 0 with
    all counters at zero, no cooldown, and every earlier object untouched. *)
Theorem constructor_sets_up_pool keys c w :
  (keys = [] ->
     constructor keys c w = Throw (Error "At least one API key is required") w) /\
  (keys <> [] ->
     exists w',
       constructor keys c w = Return tt w' /\
       wf w' /\
       apiKeys (this w') = keys /\
       currentKeyIndex (this w') = 0%nat /\
       model (this w') = head keys /\
       config (this w') = default_config c /\
       rateLimitResetTimes (this w') = ∅ /\
       (forall i, (i < length keys)%nat -> stats_of w' i = Some fresh_stats) /\
       (forall l, (l < length (heap w))%nat -> heap w' !! l = heap w !! l) /\
       clock w' = clock w /\ trace w' = trace w).
Proof. split; [by intros -> | apply constructor_ok]. Qed.

Lemma constructor_sets_up_pool_witness :
  exists w',
    constructor [key_a; key_b] defaults blank = Return tt w' /\ wf w' /\
    stats_of w' 1 = Some fresh_stats.
Proof.
  destruct (constructor_sets_up_pool [key_a; key_b] defaults blank) as [_ H].
  destruct H as (w' & Hrun & Hwf & _ & _ & _ & _ & _ & Hstats & _); [discriminate|].
  exists w'. split; [exact Hrun|]. split; [exact Hwf|]. apply Hstats. simpl. lia.
Defined.

(** ** Key selection *)

Lemma scan_first now s n i k :
  scan now s n i = Some k ->
  exists j, (i <= j < i + n)%nat /\
    k = ((currentKeyIndex s + j) mod length (apiKeys s))%nat /\
    available now (rateLimitResetTimes s !! k) = true /\
    forall j', (i <= j' < j)%nat ->
      available now (rateLimitResetTimes s !!
        ((currentKeyIndex s + j') mod length (apiKeys s))%nat) = false.
Proof.
  revert i. induction n as [|n IH]; intros i; simpl; [done|].
  case_match eqn:E.
  - intros [= <-]. exists i. split_and!; [lia..|done|]. intros j' Hj'. lia.
  - intros H. destruct (IH _ H) as (j & Hj & Hk & Hav & Hbefore).
    exists j. split_and!; [lia..|done|done|].
    intros j' Hj'. destruct (decide (j' = i)) as [->|]; [done|]. apply Hbefore. lia.
Qed.

Lemma scan_current now s :
  (currentKeyIndex s < length (apiKeys s))%nat ->
  available now (rateLimitResetTimes s !! currentKeyIndex s) = true ->
  scan now s (length (apiKeys s)) 0 = Some (currentKeyIndex s).
Proof.
  intros Hc Hav. destruct (length (apiKeys s)) as [|n] eqn:Hn; [lia|].
  cbn [scan]. rewrite Hn, Nat.add_0_r, Nat.mod_small by lia. by rewrite Hav.
Qed.

Lemma selected_current w : selected (currentKeyIndex (this w)) w = w.
Proof. unfold selected. by rewrite Nat.eqb_refl. Qed.

(** X2: [findAvailableKey()] never throws.  It answers [false] exactly
    when every key is in cooldown, and then changes nothing.  When the
    current key is available it stays where it is; otherwise it moves to
    the first available key after the current one, wrapping around, and
    rebuilds the client from that key; usage objects, reset times, clock
    and trace are never touched. *)
Theorem findAvailableKey_first_available w :
  wf w ->
  let s := this w in
  let n := length (apiKeys s) in
  (exists b w', findAvailableKey w = Return b w') /\
  (available (clock w) (rateLimitResetTimes s !! currentKeyIndex s) = true ->
     findAvailableKey w = Return true w) /\
  ((forall i, (i < n)%nat -> available (clock w) (rateLimitResetTimes s !! i) = false) ->
     findAvailableKey w = Return false w) /\
  (forall w', findAvailableKey w = Return false w' ->
     w' = w /\
     forall i, (i < n)%nat -> available (clock w) (rateLimitResetTimes s !! i) = false) /\
  (forall w', findAvailableKey w = Return true w' ->
     exists j, (j < n)%nat /\
       currentKeyIndex (this w') = ((currentKeyIndex s + j) mod n)%nat /\
       available (clock w) (rateLimitResetTimes s !! currentKeyIndex (this w')) = true /\
       (forall j', (j' < j)%nat ->
          available (clock w) (rateLimitResetTimes s !! ((currentKeyIndex s + j') mod n)%nat)
          = false) /\
       model (this w') = apiKeys s !! currentKeyIndex (this w') /\
       apiKeys (this w') = apiKeys s /\
       keyUsageStats (this w') = keyUsageStats s /\
       config (this w') = config s /\
       rateLimitResetTimes (this w') = rateLimitResetTimes s /\
       heap w' = heap w /\ clock w' = clock w /\ calls w' = calls w /\ trace w' = trace w).
Proof.
  intros Hw s n. pose proof (wf_current w Hw) as Hc. fold s n in Hc.
  rewrite findAvailableKey_ok. fold s n. split_and!.
  - destruct (scan _ _ _ _); eauto.
  - intros Hav. unfold n, s in *. rewrite scan_current by done. by rewrite selected_current.
  - intros Hall. destruct (scan _ _ _ _) as [k|] eqn:Hk; [|done].
    destruct (scan_Some _ _ _ _ _ Hk) as (j & _ & Hkj & Hav).
    rewrite Hall in Hav; [done|]. rewrite Hkj. apply Nat.mod_upper_bound. unfold n. lia.
  - intros w'. destruct (scan _ _ _ _) as [k|] eqn:Hk; [done|].
    intros [= <-]. split; [done|]. by apply scan_round_None.
  - intros w'. destruct (scan _ _ _ _) as [k|] eqn:Hk; [|done].
    intros [= <-]. destruct (scan_first _ _ _ _ _ Hk) as (j & Hj & Hkj & Hav & Hbefore).
    rewrite currentKeyIndex_selected, apiKeys_selected, config_selected,
      rateLimitResetTimes_selected, heap_selected, clock_selected, calls_selected,
      trace_selected.
    exists j. split_and!; try done; try lia.
    + intros j' Hj'. apply Hbefore. lia.
    + unfold selected. case_match eqn:E; [|done].
      apply Nat.eqb_eq in E. rewrite E. by apply wf_model.
    + unfold selected. by case_match.
Qed.

Lemma findAvailableKey_first_available_witness :
  findAvailableKey (boot [key_a; key_b] defaults) = Return true (boot [key_a; key_b] defaults).
Proof.
  destruct (findAvailableKey_first_available (boot [key_a; key_b] defaults)) as (_ & H & _).
  - by_computation.
  - apply H. reflexivity.
Defined.

(** ** Counters summed over the pool *)

Arguments stats_at : simpl never.

Lemma stats_at_insert_ne (h : list Object) (l l0 : nat) o :
  l <> l0 -> stats_at (<[l := o]> h) l0 = stats_at h l0.
Proof. intros H. unfold stats_at. by rewrite list_lookup_insert_ne. Qed.

Lemma stats_at_insert_eq (h : list Object) (l : nat) s s' :
  h !! l = Some (ObjStats s) -> stats_at (<[l := ObjStats s']> h) l = Some s'.
Proof.
  intros H. unfold stats_at. rewrite list_lookup_insert_eq; [done|]. by eapply lookup_lt_Some.
Qed.

Lemma omap_cons_eq {A B} (f : A -> option B) x L :
  omap f (x :: L) = match f x with Some y => y :: omap f L | None => omap f L end.
Proof. reflexivity. Qed.

Lemma omap_stats_at_insert_notin (h : list Object) (l : nat) o (L : list nat) :
  l ∉ L -> omap (stats_at (<[l := o]> h)) L = omap (stats_at h) L.
Proof.
  induction L as [|l0 L IH]; intros Hnotin; [done|].
  apply not_elem_of_cons in Hnotin as [Hne Hnotin].
  by rewrite !omap_cons_eq, stats_at_insert_ne, IH.
Qed.

Lemma sum_stats_insert (counter : KeyUsageStats -> Z) (h : list Object) (l : nat) s s'
      (L : list nat) :
  NoDup L -> l ∈ L -> h !! l = Some (ObjStats s) ->
  foldr (fun x acc => counter x + acc) 0 (omap (stats_at (<[l := ObjStats s']> h)) L) =
  foldr (fun x acc => counter x + acc) 0 (omap (stats_at h) L) + (counter s' - counter s).
Proof.
  intros Hnd Hin Hl. induction L as [|l0 L IH]; [by apply elem_of_nil in Hin|].
  apply NoDup_cons in Hnd as [Hnotin Hnd]. rewrite !omap_cons_eq.
  destruct (decide (l0 = l)) as [->|Hne].
  - rewrite (stats_at_insert_eq _ _ _ _ Hl), omap_stats_at_insert_notin by done.
    unfold stats_at at 2. rewrite Hl. simpl. lia.
  - apply elem_of_cons in Hin as [->|Hin]; [done|].
    rewrite stats_at_insert_ne by done. specialize (IH Hnd Hin).
    destruct (stats_at h l0); simpl; lia.
Qed.

Lemma total_upd_stats counter i f w s :
  wf w -> stats_of w i = Some s ->
  total counter (upd_stats i f w) = total counter w + (counter (f s) - counter s).
Proof.
  intros Hw Hs. unfold total, stats_list, upd_stats. unfold stats_of in Hs.
  destruct (keyUsageStats (this w) !! i) as [l|] eqn:Hi; [|done].
  destruct (heap w !! l) as [[s0|]|] eqn:Hl; try done. injection Hs as ->.
  cbn [this heap set_heap].
  apply sum_stats_insert; [by apply wf_distinct | by eapply list_elem_of_lookup_2 | done].
Qed.

Lemma total_current counter f w :
  wf w ->
  exists s, stats_of w (currentKeyIndex (this w)) = Some s /\
    total counter (upd_stats (currentKeyIndex (this w)) f w) =
    total counter w + (counter (f s) - counter s).
Proof.
  intros Hw. destruct (stats_of_is_Some w _ Hw (wf_current w Hw)) as [s Hs].
  exists s. split; [done|]. by apply total_upd_stats.
Qed.

Lemma total_index counter i f w :
  wf w -> (i < length (apiKeys (this w)))%nat ->
  exists s, total counter (upd_stats i f w) = total counter w + (counter (f s) - counter s).
Proof.
  intros Hw Hi. destruct (stats_of_is_Some w _ Hw Hi) as [s Hs].
  exists s. by apply total_upd_stats.
Qed.

Lemma total_record_attempt w :
  wf w ->
  total requests (record_attempt w) = total requests w + 1 /\
  total errors (record_attempt w) = total errors w /\
  total rateLimitHits (record_attempt w) = total rateLimitHits w.
Proof.
  intros Hw. unfold record_attempt.
  pose proof (wf_current w Hw) as Hc.
  pose proof (wf_upd_stats (currentKeyIndex (this w)) incr_requests w Hw) as Hw1.
  assert (currentKeyIndex (this w) <
          length (apiKeys (this (upd_stats (currentKeyIndex (this w)) incr_requests w))))%nat
    as Hc1 by by rewrite this_upd_stats.
  split_and!.
  - destruct (total_index requests _ (set_lastUsed (clock w)) _ Hw1 Hc1) as (s1 & ->).
    destruct (total_index requests _ incr_requests w Hw Hc) as (s & ->).
    simpl. lia.
  - destruct (total_index errors _ (set_lastUsed (clock w)) _ Hw1 Hc1) as (s1 & ->).
    destruct (total_index errors _ incr_requests w Hw Hc) as (s & ->).
    simpl. lia.
  - destruct (total_index rateLimitHits _ (set_lastUsed (clock w)) _ Hw1 Hc1) as (s1 & ->).
    destruct (total_index rateLimitHits _ incr_requests w Hw Hc) as (s & ->).
    simpl. lia.
Qed.

Lemma total_issue_call counter o w : total counter (issue_call o w) = total counter w.
Proof. reflexivity. Qed.

Lemma total_slept counter ms w : total counter (slept ms w) = total counter w.
Proof. reflexivity. Qed.

Lemma total_selected counter k w : total counter (selected k w) = total counter w.
Proof. unfold selected. by case_match. Qed.

Lemma total_after_failure o w :
  wf w ->
  total requests (after_failure o w) = total requests w + 1 /\
  total errors (after_failure o w) = total errors w + 1 /\
  total rateLimitHits (after_failure o w) = total rateLimitHits w.
Proof.
  intros Hw. unfold after_failure, record_error.
  destruct (total_record_attempt w Hw) as (Hr & He & Hh).
  assert (wf (issue_call o (record_attempt w))) as Hw1
    by by apply wf_issue_call, wf_record_attempt.
  split_and!.
  - destruct (total_current requests incr_errors _ Hw1) as (s & _ & ->).
    rewrite total_issue_call, Hr. simpl. lia.
  - destruct (total_current errors incr_errors _ Hw1) as (s & _ & ->).
    rewrite total_issue_call, He. simpl. lia.
  - destruct (total_current rateLimitHits incr_errors _ Hw1) as (s & _ & ->).
    rewrite total_issue_call, Hh. simpl. lia.
Qed.

Lemma total_rotated w :
  wf w ->
  total requests (rotated w) = total requests w /\
  total errors (rotated w) = total errors w /\
  total rateLimitHits (rotated w) = total rateLimitHits w + 1.
Proof.
  intros Hw.
  assert (forall counter, total counter (rotated w) =
            total counter (upd_stats (currentKeyIndex (this w)) incr_rateLimitHits w)) as Heq.
  { intros counter. unfold total, stats_list, rotated. cbn [this heap set_this].
    by rewrite this_upd_stats. }
  rewrite !Heq. split_and!.
  - destruct (total_current requests incr_rateLimitHits w Hw) as (s & _ & ->). simpl. lia.
  - destruct (total_current errors incr_rateLimitHits w Hw) as (s & _ & ->). simpl. lia.
  - destruct (total_current rateLimitHits incr_rateLimitHits w Hw) as (s & _ & ->). simpl. lia.
Qed.

Lemma total_backed_off attempt w :
  wf w ->
  total requests (backed_off attempt w) = total requests w /\
  total errors (backed_off attempt w) = total errors w /\
  total rateLimitHits (backed_off attempt w) =
    total rateLimitHits w + (if 1 <? attempt then 1 else 0).
Proof.
  intros Hw. unfold backed_off. destruct (1 <? attempt).
  - destruct (total_rotated _ (wf_slept (retryDelay (config (this w)) * 2 ^ (attempt - 1)) w Hw))
      as (-> & -> & ->). by rewrite !total_slept.
  - rewrite !total_slept. split_and!; lia.
Qed.

(** ** Reasoning along the retries *)

(** A property of the dispatcher's result follows from the six ways in
    which one attempt can end. *)
Lemma dispatch_ind upstream content (P : Z -> World -> Result string -> Prop) :
  (forall a w text, wf w ->
     reply (upstream (calls w)) = Responds text ->
     P a w (Return text (issue_call (upstream (calls w)) (record_attempt w)))) ->
  (forall a w e, wf w ->
     reply (upstream (calls w)) = Fails e -> isRateLimitError e = true ->
     let w2 := after_failure (upstream (calls w)) w in
     scan (clock w2) (this w2) (length (apiKeys (this w2))) 0 = None ->
     P a w (Throw AllKeysRateLimited w2)) ->
  (forall a w e k, wf w ->
     reply (upstream (calls w)) = Fails e -> isRateLimitError e = true ->
     let w2 := after_failure (upstream (calls w)) w in
     scan (clock w2) (this w2) (length (apiKeys (this w2))) 0 = Some k ->
     maxRetries (config (this w)) < a ->
     P a w (Throw e (selected k w2))) ->
  (forall a w e k r, wf w ->
     reply (upstream (calls w)) = Fails e -> isRateLimitError e = true ->
     let w2 := after_failure (upstream (calls w)) w in
     scan (clock w2) (this w2) (length (apiKeys (this w2))) 0 = Some k ->
     a <= maxRetries (config (this w)) ->
     let w' := slept (retryDelay (config (this w))) (selected k w2) in
     wf w' -> P (a + 1) w' r -> P a w r) ->
  (forall a w e, wf w ->
     reply (upstream (calls w)) = Fails e -> isRateLimitError e = false ->
     maxRetries (config (this w)) < a ->
     P a w (Throw e (after_failure (upstream (calls w)) w))) ->
  (forall a w e r, wf w ->
     reply (upstream (calls w)) = Fails e -> isRateLimitError e = false ->
     a <= maxRetries (config (this w)) ->
     let w' := backed_off a (after_failure (upstream (calls w)) w) in
     wf w' -> P (a + 1) w' r -> P a w r) ->
  forall a w, wf w -> P a w (callGeminiWithRetry upstream content a w).
Proof.
  intros Hok Hnone Hrl_stop Hrl_retry Hgen_stop Hgen_retry a w.
  remember (Z.to_nat (maxRetries (config (this w)) + 1 - a)) as n eqn:Hn.
  revert a w Hn. induction n as [|n IH]; intros a w Hn Hw;
    rewrite callGeminiWithRetry_step by done; cbn zeta;
    pose proof (wf_after_failure (upstream (calls w)) w Hw) as Hw2;
    (destruct (reply (upstream (calls w))) as [text|e] eqn:Hr; [by apply Hok|]);
    destruct (a <=? maxRetries (config (this w))) eqn:E;
    try (apply Z.leb_le in E; lia); try apply Z.leb_le in E; try apply Z.leb_gt in E;
    destruct (isRateLimitError e) eqn:He.
  - destruct (scan _ _ _ _) as [k|] eqn:Hk; [by eapply Hrl_stop | by eapply Hnone].
  - by apply Hgen_stop.
  - destruct (scan _ _ _ _) as [k|] eqn:Hk; [|by eapply Hnone].
    assert (wf (slept (retryDelay (config (this w)))
                  (selected k (after_failure (upstream (calls w)) w)))) as Hw'.
    { apply wf_slept, wf_selected; [done|]. eapply scan_lt; [|exact Hk]. by apply wf_nonempty. }
    eapply Hrl_retry; try done. apply IH; [|done].
    simpl. rewrite config_selected, this_after_failure. lia.
  - eapply Hgen_retry; try done; [by apply wf_backed_off|].
    apply IH; [|by apply wf_backed_off].
    rewrite config_backed_off, this_after_failure. lia.
  - destruct (scan _ _ _ _) as [k|] eqn:Hk; [by eapply Hrl_stop | by eapply Hnone].
  - by apply Hgen_stop.
Qed.

Lemma sleeps_after_failure o w :
  sleeps (trace (after_failure o w)) = sleeps (trace w).
Proof. rewrite trace_after_failure, sleeps_app. simpl. by rewrite app_nil_r. Qed.

Lemma dispatch_delta_retry a failed w w1 w' :
  config (this w1) = config (this w) ->
  apiKeys (this w1) = apiKeys (this w) ->
  calls w1 = S (calls w) ->
  total requests w1 = total requests w + 1 ->
  total errors w1 = total errors w + 1 ->
  0 <= total rateLimitHits w1 - total rateLimitHits w <= 1 ->
  length (sleeps (trace w1)) = S (length (sleeps (trace w))) ->
  a <= maxRetries (config (this w)) ->
  dispatch_delta (a + 1) failed w1 w' -> dispatch_delta a failed w w'.
Proof.
  intros Hcfg Hkeys Hcalls Hreq Herr Hhits Hsl Ha.
  unfold dispatch_delta. cbn zeta. rewrite Hcfg, Hkeys, Hcalls, Hreq, Herr, Hsl.
  intros (-> & -> & ? & -> & -> & ? & ->). split_and!; try done; lia.
Qed.

Lemma dispatch_accounting upstream content a w :
  wf w ->
  match callGeminiWithRetry upstream content a w with
  | Return _ w' => dispatch_delta a false w w'
  | Throw _ w' => dispatch_delta a true w w'
  | OutOfFuel => False
  end.
Proof.
  revert a w.
  apply (dispatch_ind upstream content (fun a w r =>
           match r with
           | Return _ w' => dispatch_delta a false w w'
           | Throw _ w' => dispatch_delta a true w w'
           | OutOfFuel => False
           end)).
  - intros a w text Hw Hr. destruct (total_record_attempt w Hw) as (Hreq & Herr & Hhits).
    unfold dispatch_delta. cbn zeta.
    rewrite !total_issue_call, Hreq, Herr, Hhits. unfold issue_call. cbn [this calls trace].
    rewrite this_record_attempt, calls_record_attempt, trace_record_attempt, sleeps_app.
    simpl. rewrite app_nil_r. split_and!; try done; lia.
  - intros a w e Hw Hr He w2 Hk. destruct (total_after_failure (upstream (calls w)) w Hw)
      as (Hreq & Herr & Hhits).
    unfold dispatch_delta. cbn zeta. subst w2.
    rewrite Hreq, Herr, Hhits, this_after_failure, calls_after_failure, sleeps_after_failure.
    split_and!; try done; lia.
  - intros a w e k Hw Hr He w2 Hk Ha.
    destruct (total_after_failure (upstream (calls w)) w Hw) as (Hreq & Herr & Hhits).
    unfold dispatch_delta. cbn zeta. subst w2.
    rewrite !total_selected, Hreq, Herr, Hhits, config_selected, apiKeys_selected,
      calls_selected, trace_selected, this_after_failure, calls_after_failure,
      sleeps_after_failure.
    split_and!; try done; lia.
  - intros a w e k r Hw Hr He w2 Hk Ha w' Hw'.
    destruct (total_after_failure (upstream (calls w)) w Hw) as (Hreq & Herr & Hhits).
    assert (forall failed wr, dispatch_delta (a + 1) failed w' wr -> dispatch_delta a failed w wr)
      as Hstep.
    { intros failed wr. apply dispatch_delta_retry; subst w' w2; try done.
      - cbn [slept this]. by rewrite config_selected, this_after_failure.
      - cbn [slept this]. by rewrite apiKeys_selected, this_after_failure.
      - cbn [slept calls]. by rewrite calls_selected, calls_after_failure.
      - by rewrite total_slept, total_selected.
      - by rewrite total_slept, total_selected.
      - rewrite total_slept, total_selected, Hhits. lia.
      - cbn [slept trace]. rewrite sleeps_app, trace_selected, sleeps_after_failure.
        rewrite length_app. simpl. lia. }
    destruct r; [by apply Hstep..|done].
  - intros a w e Hw Hr He Ha.
    destruct (total_after_failure (upstream (calls w)) w Hw) as (Hreq & Herr & Hhits).
    unfold dispatch_delta. cbn zeta.
    rewrite Hreq, Herr, Hhits, this_after_failure, calls_after_failure, sleeps_after_failure.
    split_and!; try done; lia.
  - intros a w e r Hw Hr He Ha w' Hw'.
    pose proof (wf_after_failure (upstream (calls w)) w Hw) as Hw2.
    destruct (total_after_failure (upstream (calls w)) w Hw) as (Hreq & Herr & Hhits).
    destruct (total_backed_off a _ Hw2) as (Hreq' & Herr' & Hhits').
    assert (forall failed wr, dispatch_delta (a + 1) failed w' wr -> dispatch_delta a failed w wr)
      as Hstep.
    { intros failed wr. apply dispatch_delta_retry; subst w'; try done.
      - by rewrite config_backed_off, this_after_failure.
      - by rewrite apiKeys_backed_off, this_after_failure.
      - by rewrite calls_backed_off, calls_after_failure.
      - by rewrite Hreq'.
      - by rewrite Herr'.
      - rewrite Hhits', Hhits. destruct (1 <? a); lia.
      - rewrite trace_backed_off, sleeps_app, sleeps_after_failure, length_app. simpl. lia. }
    destruct r; [by apply Hstep..|done].
Qed.

Lemma alternating_retry key ms evs :
  alternating (EvCall key :: EvSleep ms :: evs) = alternating evs.
Proof. done. Qed.

(** The events of a dispatch and the time they take. *)
Lemma dispatch_timeline upstream content a w :
  wf w ->
  match callGeminiWithRetry upstream content a w with
  | Return _ w' | Throw _ w' =>
      exists evs,
        trace w' = trace w ++ evs /\
        alternating evs = true /\
        calls w' = (calls w + length (calls_on evs))%nat /\
        clock w' = clock w + duration upstream (calls w) evs
  | OutOfFuel => False
  end.
Proof.
  revert a w.
  assert (forall w, wf w ->
            let w2 := after_failure (upstream (calls w)) w in
            trace w2 = trace w ++ [EvCall (model (this w))] /\
            alternating [EvCall (model (this w))] = true /\
            calls w2 = (calls w + length (calls_on [EvCall (model (this w))]))%nat /\
            clock w2 = clock w + duration upstream (calls w) [EvCall (model (this w))])
    as Hstop.
  { intros w Hw. cbn zeta.
    rewrite trace_after_failure, calls_after_failure, clock_after_failure.
    split_and!; try done; [cbn; lia | cbn [duration]; lia]. }
  assert (forall (r : Result string) w w1 key ms,
            trace w1 = trace w ++ [EvCall key; EvSleep ms] ->
            calls w1 = S (calls w) ->
            clock w1 = clock w + elapsed (upstream (calls w)) + timer_delay ms ->
            match r with
            | Return _ w' | Throw _ w' =>
                exists evs,
                  trace w' = trace w1 ++ evs /\
                  alternating evs = true /\
                  calls w' = (calls w1 + length (calls_on evs))%nat /\
                  clock w' = clock w1 + duration upstream (calls w1) evs
            | OutOfFuel => False
            end ->
            match r with
            | Return _ w' | Throw _ w' =>
                exists evs,
                  trace w' = trace w ++ evs /\
                  alternating evs = true /\
                  calls w' = (calls w + length (calls_on evs))%nat /\
                  clock w' = clock w + duration upstream (calls w) evs
            | OutOfFuel => False
            end) as Hretry.
  { intros r w w1 key ms Htr Hcalls Hclock.
    assert (forall w', (exists evs,
                trace w' = trace w1 ++ evs /\
                alternating evs = true /\
                calls w' = (calls w1 + length (calls_on evs))%nat /\
                clock w' = clock w1 + duration upstream (calls w1) evs) ->
              exists evs,
                trace w' = trace w ++ evs /\
                alternating evs = true /\
                calls w' = (calls w + length (calls_on evs))%nat /\
                clock w' = clock w + duration upstream (calls w) evs) as Hone.
    { intros w' (evs & Ht & Ha & Hc & Hk).
      exists (EvCall key :: EvSleep ms :: evs).
      rewrite timer_delay_eq in Hclock.
      rewrite Ht, Htr, Hc, Hk, Hclock, Hcalls, alternating_retry, <- app_assoc.
      split_and!; try done.
      - cbn [calls_on omap list_omap length]. fold (calls_on evs). lia.
      - cbn [duration]. lia. }
    destruct r; [apply Hone..|done]. }
  apply (dispatch_ind upstream content (fun a w r =>
           match r with
           | Return _ w' | Throw _ w' =>
               exists evs,
                 trace w' = trace w ++ evs /\
                 alternating evs = true /\
                 calls w' = (calls w + length (calls_on evs))%nat /\
                 clock w' = clock w + duration upstream (calls w) evs
           | OutOfFuel => False
           end)).
  - intros a w text Hw Hr. exists [EvCall (model (this w))].
    rewrite clock_success. unfold issue_call. cbn [trace calls].
    rewrite trace_record_attempt, this_record_attempt, calls_record_attempt.
    split_and!; try done; [cbn; lia | cbn [duration]; lia].
  - intros a w e Hw Hr He w2 Hk. exists [EvCall (model (this w))].
    apply (Hstop w Hw).
  - intros a w e k Hw Hr He w2 Hk Ha. exists [EvCall (model (this w))].
    rewrite trace_selected, calls_selected, clock_selected.
    apply (Hstop w Hw).
  - intros a w e k r Hw Hr He w2 Hk Ha w' Hw'.
    apply (Hretry r w w' (model (this w)) (retryDelay (config (this w)))); subst w' w2.
    + cbn [slept trace]. by rewrite trace_selected, trace_after_failure, <- app_assoc.
    + cbn [slept calls]. by rewrite calls_selected, calls_after_failure.
    + cbn [slept clock]. by rewrite clock_selected, clock_after_failure.
  - intros a w e Hw Hr He Ha. exists [EvCall (model (this w))].
    apply (Hstop w Hw).
  - intros a w e r Hw Hr He Ha w' Hw'.
    apply (Hretry r w w' (model (this w))
             (retryDelay (config (this w)) * 2 ^ (a - 1))); subst w'.
    + by rewrite trace_backed_off, trace_after_failure, this_after_failure, <- app_assoc.
    + by rewrite calls_backed_off, calls_after_failure.
    + apply clock_generic_retry.
Qed.

(** X3: a dispatch from attempt 1 in a well-formed service always ends,
    with a text or with an error, after at least one and at most
    [maxRetries + 1] upstream calls (one call when [maxRetries] is not
    positive).  The events it adds to the trace start with a call, end with
    a call and have exactly one sleep between two consecutive calls, and
    time passes for each of them: the clock moves on by the round-trip
    times of the calls plus, for each sleep, the requested time (one
    millisecond when that is below 1 or above [2^31 - 1]).  The service stays well formed and its configuration and keys
    are as they were. *)
Theorem dispatch_is_bounded upstream content w :
  wf w ->
  exists w' evs,
    ((exists text, callGeminiWithRetry upstream content 1 w = Return text w') \/
     (exists e, callGeminiWithRetry upstream content 1 w = Throw e w')) /\
    wf w' /\
    config (this w') = config (this w) /\
    apiKeys (this w') = apiKeys (this w) /\
    (calls w < calls w')%nat /\
    Z.of_nat (calls w' - calls w) <= Z.max 1 (maxRetries (config (this w)) + 1) /\
    length (sleeps (trace w')) = (length (sleeps (trace w)) + (calls w' - calls w - 1))%nat /\
    trace w' = trace w ++ evs /\
    alternating evs = true /\
    length (calls_on evs) = (calls w' - calls w)%nat /\
    clock w' = clock w + duration upstream (calls w) evs.
Proof.
  intros Hw. pose proof (dispatch_accounting upstream content 1 w Hw) as Hd.
  pose proof (dispatch_timeline upstream content 1 w Hw) as Ht.
  destruct (callGeminiWithRetry_finishes upstream content 1 w Hw)
    as [(text & w' & Hrun & Hw')|(e & w' & Hrun & Hw')];
    rewrite Hrun in Hd, Ht; destruct Hd as (Hcfg & Hkeys & Hcalls & _ & _ & _ & Hsl);
    destruct Ht as (evs & Htr & Halt & Hc & Hclock);
    exists w', evs; (split; [eauto|]); split_and!; try done; lia.
Qed.

Lemma dispatch_is_bounded_witness :
  exists w' evs,
    ((exists text, callGeminiWithRetry (fun _ => fails_with quota_error) "prompt" 1
                     (boot [key_a] defaults) = Return text w') \/
     (exists e, callGeminiWithRetry (fun _ => fails_with quota_error) "prompt" 1
                  (boot [key_a] defaults) = Throw e w')) /\
    Z.of_nat (calls w' - calls (boot [key_a] defaults)) <= 4 /\
    trace w' = trace (boot [key_a] defaults) ++ evs /\
    alternating evs = true /\
    clock w' = clock (boot [key_a] defaults) +
               duration (fun _ => fails_with quota_error) 0 evs.
Proof.
  destruct (dispatch_is_bounded (fun _ => fails_with quota_error) "prompt"
              (boot [key_a] defaults))
    as (w' & evs & Hrun & _ & _ & _ & _ & Hbound & _ & Htr & Halt & _ & Hclock).
  - by_computation.
  - exists w', evs. split; [exact Hrun|]. split; [exact Hbound|].
    split; [exact Htr|]. split; [exact Halt | exact Hclock].
Defined.

(** X4: over a dispatch, the [requests] counters of the pool grow in sum by
    the number of upstream calls issued and the [errors] counters by the
    number of calls that failed (all of them when the dispatch throws, all
    but the last when it returns); [rateLimitHits] grow in sum by at most
    the number of retries. *)
Theorem dispatch_counts_every_call upstream content w :
  wf w ->
  let issued w' := Z.of_nat (calls w') - Z.of_nat (calls w) in
  match callGeminiWithRetry upstream content 1 w with
  | Return _ w' =>
      total requests w' = total requests w + issued w' /\
      total errors w' = total errors w + issued w' - 1 /\
      0 <= total rateLimitHits w' - total rateLimitHits w <= issued w' - 1
  | Throw _ w' =>
      total requests w' = total requests w + issued w' /\
      total errors w' = total errors w + issued w' /\
      0 <= total rateLimitHits w' - total rateLimitHits w <= issued w' - 1
  | OutOfFuel => False
  end.
Proof.
  intros Hw issued. pose proof (dispatch_accounting upstream content 1 w Hw) as Hd.
  destruct (callGeminiWithRetry upstream content 1 w) as [text w'|e w'|]; [| |done];
    destruct Hd as (_ & _ & _ & Hreq & Herr & Hhits & _); subst issued; cbn beta;
    split_and!; lia.
Qed.

Lemma dispatch_counts_every_call_witness :
  match callGeminiWithRetry (failing_first 2 server_error "ok") "prompt" 1
          (boot [key_a; key_b] defaults) with
  | Return _ w' => total requests w' = 3 /\ total errors w' = 2
  | _ => False
  end.
Proof.
  pose proof (dispatch_counts_every_call (failing_first 2 server_error "ok") "prompt"
                (boot [key_a; key_b] defaults)) as H.
  cbn zeta in H.
  assert (wf (boot [key_a; key_b] defaults)) as Hw by by_computation.
  specialize (H Hw).
  destruct (callGeminiWithRetry (failing_first 2 server_error "ok") "prompt" 1
              (boot [key_a; key_b] defaults)) as [text w'|e w'|] eqn:Hrun.
  - assert (calls w' = 3%nat) as Hc by (vm_compute in Hrun; by injection Hrun as _ <-).
    destruct H as (Hreq & Herr & _). rewrite Hc in Hreq, Herr.
    split; [rewrite Hreq | rewrite Herr]; reflexivity.
  - by vm_compute in Hrun.
  - exact H.
Defined.

(** ** Failure schedules *)

Lemma scan_all_cooling now s n i :
  (0 < length (apiKeys s))%nat ->
  (forall k, (k < length (apiKeys s))%nat ->
     available now (rateLimitResetTimes s !! k) = false) ->
  scan now s n i = None.
Proof.
  intros Hn Hall. destruct (scan now s n i) as [k|] eqn:Hk; [|done].
  destruct (scan_Some _ _ _ _ _ Hk) as (j & _ & Hkj & Hav).
  rewrite Hall in Hav; [done|]. rewrite Hkj. apply Nat.mod_upper_bound. lia.
Qed.

(** X5: when a call fails with a rate-limit error while every key is in
    cooldown, the dispatch throws [All API keys are currently rate
    limited] at once, whatever the attempt number and the retries left:
    one call is recorded, nothing is slept, no key is switched. *)
Theorem all_keys_cooling_fails_fast upstream content attempt w e :
  wf w ->
  reply (upstream (calls w)) = Fails e ->
  isRateLimitError e = true ->
  (forall i, (i < length (apiKeys (this w)))%nat ->
     available (clock w + elapsed (upstream (calls w)))
               (rateLimitResetTimes (this w) !! i) = false) ->
  let w' := after_failure (upstream (calls w)) w in
  callGeminiWithRetry upstream content attempt w = Throw AllKeysRateLimited w' /\
  this w' = this w /\
  calls w' = S (calls w) /\
  trace w' = trace w ++ [EvCall (model (this w))].
Proof.
  intros Hw Hr He Hall w'. subst w'.
  rewrite callGeminiWithRetry_step by done. cbn zeta. rewrite Hr, He.
  rewrite clock_after_failure, this_after_failure, calls_after_failure, trace_after_failure.
  rewrite scan_all_cooling; [done | by apply wf_nonempty | done].
Qed.

Lemma all_keys_cooling_fails_fast_witness :
  callGeminiWithRetry (fun _ => fails_with quota_error) "prompt" 1
    (rotated (boot [key_a] defaults)) =
  Throw AllKeysRateLimited
    (after_failure (fails_with quota_error) (rotated (boot [key_a] defaults))).
Proof.
  apply (all_keys_cooling_fails_fast (fun _ => fails_with quota_error) "prompt" 1
           (rotated (boot [key_a] defaults)) quota_error).
  - by_computation.
  - reflexivity.
  - reflexivity.
  - intros i Hi. assert (i = 0%nat) as -> by (vm_compute in Hi; lia). reflexivity.
Defined.

Lemma calls_on_app tr1 tr2 : calls_on (tr1 ++ tr2) = calls_on tr1 ++ calls_on tr2.
Proof. apply omap_app. Qed.

Lemma sleeps_slept ms w : sleeps (trace (slept ms w)) = sleeps (trace w) ++ [ms].
Proof. cbn [slept trace]. by rewrite sleeps_app. Qed.

(** The retry after a rate-limit failure on a key without reset time. *)
Lemma rate_limit_retry_step upstream content attempt w e :
  wf w ->
  rateLimitResetTimes (this w) !! currentKeyIndex (this w) = None ->
  reply (upstream (calls w)) = Fails e ->
  isRateLimitError e = true ->
  attempt <= maxRetries (config (this w)) ->
  exists w1,
    attempt_step upstream content attempt w (model (this w))
                 (retryDelay (config (this w))) w1 /\
    wf w1 /\ this w1 = this w.
Proof.
  intros Hw Hfree Hr He Ha.
  pose proof (wf_after_failure (upstream (calls w)) w Hw) as Hw2.
  pose proof (this_after_failure (upstream (calls w)) w) as Hthis2.
  exists (slept (retryDelay (config (this w))) (after_failure (upstream (calls w)) w)).
  split; [|split; [by apply wf_slept | cbn [slept this]; done]].
  unfold attempt_step. split.
  - rewrite callGeminiWithRetry_step by done. cbn zeta. rewrite Hr, He.
    rewrite (scan_current _ (this (after_failure (upstream (calls w)) w)))
      by (by apply wf_current || by rewrite Hthis2, Hfree).
    rewrite selected_current.
    by assert ((attempt <=? maxRetries (config (this w))) = true) as -> by lia.
  - cbn [slept calls trace clock].
    rewrite calls_after_failure, trace_after_failure, clock_after_failure, <- app_assoc,
      timer_delay_eq.
    done.
Qed.

(** The last rate-limit failure on a key without reset time. *)
Lemma rate_limit_stop upstream content attempt w e :
  wf w ->
  rateLimitResetTimes (this w) !! currentKeyIndex (this w) = None ->
  reply (upstream (calls w)) = Fails e ->
  isRateLimitError e = true ->
  maxRetries (config (this w)) < attempt ->
  exists w',
    last_attempt upstream content attempt w (model (this w)) e w' /\
    this w' = this w.
Proof.
  intros Hw Hfree Hr He Ha.
  pose proof (wf_after_failure (upstream (calls w)) w Hw) as Hw2.
  pose proof (this_after_failure (upstream (calls w)) w) as Hthis2.
  exists (after_failure (upstream (calls w)) w).
  split; [|done]. unfold last_attempt. split.
  - rewrite callGeminiWithRetry_step by done. cbn zeta. rewrite Hr, He.
    rewrite (scan_current _ (this (after_failure (upstream (calls w)) w)))
      by (by apply wf_current || by rewrite Hthis2, Hfree).
    rewrite selected_current.
    by assert ((attempt <=? maxRetries (config (this w))) = false) as -> by lia.
  - by rewrite calls_after_failure, trace_after_failure, clock_after_failure.
Qed.

(** X6: while the current key has no reset time, a run of rate-limit
    failures never leaves that key.  From attempt [attempt] on, the
    dispatcher makes [r + 1] calls, where [r] is the number of retries
    left, all on the current key, and then rethrows the error of the last
    call; the current index and the reset times are as before.  Before
    each retry it sleeps with the plain [retryDelay] (no backoff): attempt
    [attempt + j + 1] starts in the world [ws (j + 1)], after the call of
    attempt [attempt + j] and the sleep that follows it, at the clock
    reading at which that call came back plus [retryDelay] milliseconds
    (one millisecond when [retryDelay] is below 1 or above [2^31 - 1]). *)
Theorem rate_limit_retries_stay_on_key upstream content (err : nat -> JsError) :
  forall (r : nat) attempt w,
  wf w ->
  rateLimitResetTimes (this w) !! currentKeyIndex (this w) = None ->
  (forall n, (calls w <= n)%nat ->
     reply (upstream n) = Fails (err n) /\ isRateLimitError (err n) = true) ->
  Z.of_nat r = maxRetries (config (this w)) + 1 - attempt ->
  exists (ws : nat -> World) w',
    callGeminiWithRetry upstream content attempt w = Throw (err (calls w + r)%nat) w' /\
    calls w' = (calls w + r + 1)%nat /\
    sleeps (trace w') = sleeps (trace w) ++ replicate r (retryDelay (config (this w))) /\
    calls_on (trace w') = calls_on (trace w) ++ replicate (r + 1) (model (this w)) /\
    currentKeyIndex (this w') = currentKeyIndex (this w) /\
    rateLimitResetTimes (this w') = rateLimitResetTimes (this w) /\
    ws 0%nat = w /\
    (forall j, (j < r)%nat ->
       attempt_step upstream content (attempt + Z.of_nat j) (ws j)
                    (model (this w)) (retryDelay (config (this w))) (ws (S j))) /\
    (forall j, (j <= r)%nat -> this (ws j) = this w) /\
    last_attempt upstream content (attempt + Z.of_nat r) (ws r) (model (this w))
                 (err (calls w + r)%nat) w'.
Proof.
  induction r as [|r IH]; intros attempt w Hw Hfree Hfail Hr;
    destruct (Hfail (calls w) (le_n _)) as [Hreply Hrl].
  - destruct (rate_limit_stop upstream content attempt w _ Hw Hfree Hreply Hrl)
      as (w' & Hlast & Hthis); [lia|].
    pose proof Hlast as (Hrun & Hcalls & Htr & Hclock).
    exists (fun _ => w), w'. rewrite Nat.add_0_r, Z.add_0_r, Hrun, Hcalls, Htr, Hthis.
    rewrite sleeps_app, calls_on_app. cbn. rewrite !app_nil_r.
    split_and!; try done; [lia | intros j Hj; lia].
  - destruct (rate_limit_retry_step upstream content attempt w _ Hw Hfree Hreply Hrl)
      as (w1 & Hstep & Hw1 & Hthis); [lia|].
    pose proof Hstep as (Hrun & Hcalls & Htr & Hclock).
    destruct (IH (attempt + 1) w1) as (ws & w' & Hrun' & Hc & Hs & Hk & Hi & Ht & H0 & Hchain
                                       & Hsame & Hlast); [done | by rewrite Hthis | | |].
    { intros n Hn. apply Hfail. lia. }
    { rewrite Hthis. lia. }
    rewrite Hthis, Hcalls in *.
    exists (chain_cons w ws), w'.
    rewrite Hrun, Hrun', Hc, Hs, Hk, Hi, Ht, Htr, !sleeps_app, !calls_on_app.
    cbn [sleeps calls_on omap list_omap app replicate chain_cons].
    rewrite <- !app_assoc. cbn [app].
    replace (S (calls w) + r)%nat with (calls w + S r)%nat in * by lia.
    replace (attempt + 1 + Z.of_nat r) with (attempt + Z.of_nat (S r)) in Hlast by lia.
    split_and!; try done; try lia.
    + intros [|j] Hj; cbn [chain_cons].
      * cbn [Z.of_nat]. rewrite Z.add_0_r, H0. exact Hstep.
      * replace (attempt + Z.of_nat (S j)) with (attempt + 1 + Z.of_nat j) by lia.
        apply Hchain. lia.
    + intros [|j] Hj; cbn [chain_cons]; [done|]. apply Hsame. lia.
Qed.

Lemma rate_limit_retries_stay_on_key_witness :
  exists (ws : nat -> World) w',
    callGeminiWithRetry (fun _ => fails_with quota_error) "prompt" 1
      (boot [key_a; key_b] defaults) = Throw quota_error w' /\
    sleeps (trace w') = [1000; 1000; 1000] /\
    calls_on (trace w') = [Some key_a; Some key_a; Some key_a; Some key_a] /\
    clock (ws 1%nat) = clock (boot [key_a; key_b] defaults) + 250 + 1000.
Proof.
  destruct (rate_limit_retries_stay_on_key (fun _ => fails_with quota_error) "prompt"
              (fun _ => quota_error) 3 1 (boot [key_a; key_b] defaults))
    as (ws & w' & Hrun & _ & Hsleeps & Hkeys & _ & _ & H0 & Hchain & _).
  - by_computation.
  - reflexivity.
  - intros n _. split; reflexivity.
  - reflexivity.
  - exists ws, w'. split; [exact Hrun|]. split; [exact Hsleeps|]. split; [exact Hkeys|].
    destruct (Hchain 0%nat) as (_ & _ & _ & Hclock); [lia|].
    rewrite H0 in Hclock. exact Hclock.
Defined.

(** The last failure that is not a rate limit. *)
Lemma generic_stop upstream content attempt w e :
  wf w ->
  reply (upstream (calls w)) = Fails e ->
  isRateLimitError e = false ->
  maxRetries (config (this w)) < attempt ->
  exists w',
    last_attempt upstream content attempt w
                 (apiKeys (this w) !! currentKeyIndex (this w)) e w' /\
    this w' = this w.
Proof.
  intros Hw Hr He Ha. exists (after_failure (upstream (calls w)) w).
  split; [|apply this_after_failure]. unfold last_attempt. split.
  - rewrite callGeminiWithRetry_step by done. cbn zeta. rewrite Hr, He.
    by assert ((attempt <=? maxRetries (config (this w))) = false) as -> by lia.
  - by rewrite calls_after_failure, trace_after_failure, clock_after_failure,
      (wf_model w Hw).
Qed.

(** The number of rotations before the [j]-th call of a run of generic
    failures that starts at attempt [attempt]: the retry after attempt 1
    does not rotate. *)
Lemma rotations_shift (attempt : Z) (cur n j : nat) :
  1 <= attempt ->
  (((if (1 <? attempt)%Z then ((cur + 1) mod n)%nat else cur) +
    (j - (if (1 <? attempt + 1)%Z then 0 else 1))) mod n)%nat =
  ((cur + (S j - (if (1 <? attempt)%Z then 0 else 1))) mod n)%nat.
Proof.
  intros Ha. assert ((1 <? attempt + 1) = true) as -> by lia.
  destruct (1 <? attempt).
  - rewrite Nat.Div0.add_mod_idemp_l. f_equal. lia.
  - f_equal; lia.
Qed.

Lemma generic_chain upstream content (err : nat -> JsError) :
  forall (r : nat) attempt w,
  wf w ->
  (forall n, (calls w <= n)%nat ->
     reply (upstream n) = Fails (err n) /\ isRateLimitError (err n) = false) ->
  1 <= attempt ->
  Z.of_nat r = maxRetries (config (this w)) + 1 - attempt ->
  exists (ws : nat -> World) w',
    callGeminiWithRetry upstream content attempt w = Throw (err (calls w + r)%nat) w' /\
    calls w' = (calls w + r + 1)%nat /\
    sleeps (trace w') = sleeps (trace w) ++
      ((fun j => retryDelay (config (this w)) * 2 ^ (attempt - 1 + Z.of_nat j)) <$> seq 0 r) /\
    currentKeyIndex (this w') =
      ((currentKeyIndex (this w) + (r - (if (1 <? attempt)%Z then 0 else 1)))
         mod length (apiKeys (this w)))%nat /\
    ws 0%nat = w /\
    (forall j, (j < r)%nat ->
       attempt_step upstream content (attempt + Z.of_nat j) (ws j)
         (apiKeys (this w) !!
            ((currentKeyIndex (this w) + (j - (if (1 <? attempt)%Z then 0 else 1)))
               mod length (apiKeys (this w)))%nat)
         (retryDelay (config (this w)) * 2 ^ (attempt - 1 + Z.of_nat j))
         (ws (S j))) /\
    (forall j, (j <= r)%nat ->
       currentKeyIndex (this (ws j)) =
         ((currentKeyIndex (this w) + (j - (if (1 <? attempt)%Z then 0 else 1)))
            mod length (apiKeys (this w)))%nat /\
       apiKeys (this (ws j)) = apiKeys (this w) /\
       config (this (ws j)) = config (this w)) /\
    last_attempt upstream content (attempt + Z.of_nat r) (ws r)
      (apiKeys (this w) !!
         ((currentKeyIndex (this w) + (r - (if (1 <? attempt)%Z then 0 else 1)))
            mod length (apiKeys (this w)))%nat)
      (err (calls w + r)%nat) w'.
Proof.
  induction r as [|r IH]; intros attempt w Hw Hfail Ha Hr;
    destruct (Hfail (calls w) (le_n _)) as [Hreply Hrl];
    pose proof (wf_current w Hw) as Hcur.
  - destruct (generic_stop upstream content attempt w _ Hw Hreply Hrl)
      as (w' & Hlast & Hthis); [lia|].
    pose proof Hlast as (Hrun & Hcalls & Htr & Hclock).
    exists (fun _ => w), w'.
    rewrite Nat.add_0_r, Z.add_0_r, Hrun, Hcalls, Htr, Hthis, sleeps_app.
    cbn [seq fmap list_fmap sleeps omap list_omap]. rewrite !app_nil_r.
    rewrite Nat.sub_0_l, Nat.add_0_r, Nat.mod_small by done.
    split_and!; try done; [lia | intros j Hj; lia |].
    intros j Hj. assert (j = 0%nat) as -> by lia.
    by rewrite Nat.sub_0_l, Nat.add_0_r, Nat.mod_small.
  - destruct (generic_retry_step upstream content attempt (attempt + 1) w _ Hw Hreply Hrl)
      as (w1 & Hrun & Hw1 & Hcalls & Hcfg & Hkeys & Hidx & Htr & Hclock); [lia | done |].
    cbn zeta in Htr, Hclock.
    assert (attempt_step upstream content attempt w
              (apiKeys (this w) !! currentKeyIndex (this w))
              (retryDelay (config (this w)) * 2 ^ (attempt - 1)) w1) as Hstep.
    { unfold attempt_step. rewrite timer_delay_eq in Hclock. by split_and!. }
    destruct (IH (attempt + 1) w1) as (ws & w' & Hrun' & Hc & Hs & Hi & H0 & Hchain
                                       & Hsame & Hlast); [done | | lia | |].
    { intros n Hn. apply Hfail. lia. }
    { rewrite Hcfg. lia. }
    rewrite Hcfg, Hkeys, Hcalls, Hidx in *.
    assert (forall j,
      ((if (1 <? attempt)%Z then next_index (this w) else currentKeyIndex (this w)) +
       (j - (if (1 <? attempt + 1)%Z then 0 else 1))) mod length (apiKeys (this w)) =
      (currentKeyIndex (this w) + (S j - (if (1 <? attempt)%Z then 0 else 1)))
        mod length (apiKeys (this w)))%nat as Hrot.
    { intros j. unfold next_index. by apply rotations_shift. }
    assert (forall j, retryDelay (config (this w)) * 2 ^ (attempt + 1 - 1 + Z.of_nat j) =
                      retryDelay (config (this w)) * 2 ^ (attempt - 1 + Z.of_nat (S j)))
      as Hdelay.
    { intros j. f_equal. f_equal. lia. }
    replace (S (calls w) + r)%nat with (calls w + S r)%nat in * by lia.
    replace (attempt + 1 + Z.of_nat r) with (attempt + Z.of_nat (S r)) in Hlast by lia.
    rewrite Hrot in Hi, Hlast.
    exists (chain_cons w ws), w'.
    rewrite Hrun, Hrun', Hc, Hs, Hi, Htr, !sleeps_app.
    cbn [sleeps omap list_omap app seq fmap list_fmap chain_cons].
    rewrite <- !app_assoc. cbn [app].
    split_and!; try done; try lia.
    + f_equal. cbn [Z.of_nat]. rewrite Z.add_0_r. f_equal.
      rewrite <- fmap_S_seq, <- list_fmap_compose.
      apply list_fmap_ext. intros _ j _. cbn [compose]. apply Hdelay.
    + intros [|j] Hj; cbn [chain_cons].
      * change (Z.of_nat 0) with 0.
        rewrite !Z.add_0_r, Nat.sub_0_l, Nat.add_0_r, Nat.mod_small, H0 by done.
        exact Hstep.
      * replace (attempt + Z.of_nat (S j)) with (attempt + 1 + Z.of_nat j) by lia.
        rewrite <- Hrot, <- Hdelay. apply Hchain. lia.
    + intros [|j] Hj; cbn [chain_cons].
      * by rewrite Nat.sub_0_l, Nat.add_0_r, Nat.mod_small.
      * rewrite <- Hrot. apply Hsame. lia.
Qed.

(** X7: a run of failures that are not rate limits, from attempt
    [attempt >= 1] on, is retried until the attempt number passes
    [maxRetries], and in the end the error of the last call is rethrown.
    The sleep after the [j]-th failed call is requested with
    [delay j = retryDelay * 2 ^ (attempt - 1 + j)] milliseconds and takes
    that long when [delay j] lies between 1 and [2^31 - 1], and one
    millisecond otherwise.  Every retry made after attempt
    1 first rotates to the next key, so the [j]-th call goes out on the
    key [rot j] places after the first one.  Attempt [attempt + j + 1]
    starts in the world [ws (j + 1)], after the call of attempt
    [attempt + j] and the sleep that follows it, at the clock reading at
    which that call came back plus the time of the sleep. *)
Theorem generic_failures_back_off upstream content (err : nat -> JsError) :
  forall (r : nat) attempt w,
  wf w ->
  (forall n, (calls w <= n)%nat ->
     reply (upstream n) = Fails (err n) /\ isRateLimitError (err n) = false) ->
  1 <= attempt ->
  Z.of_nat r = maxRetries (config (this w)) + 1 - attempt ->
  let rot j := (j - (if (1 <? attempt)%Z then 0 else 1))%nat in
  let index j := ((currentKeyIndex (this w) + rot j) mod length (apiKeys (this w)))%nat in
  let key j := apiKeys (this w) !! index j in
  let delay j := retryDelay (config (this w)) * 2 ^ (attempt - 1 + Z.of_nat j) in
  exists (ws : nat -> World) w',
    callGeminiWithRetry upstream content attempt w = Throw (err (calls w + r)%nat) w' /\
    calls w' = (calls w + r + 1)%nat /\
    sleeps (trace w') = sleeps (trace w) ++ (delay <$> seq 0 r) /\
    currentKeyIndex (this w') = index r /\
    ws 0%nat = w /\
    (forall j, (j < r)%nat ->
       attempt_step upstream content (attempt + Z.of_nat j) (ws j) (key j) (delay j)
                    (ws (S j))) /\
    (forall j, (j <= r)%nat ->
       currentKeyIndex (this (ws j)) = index j /\
       apiKeys (this (ws j)) = apiKeys (this w) /\
       config (this (ws j)) = config (this w)) /\
    last_attempt upstream content (attempt + Z.of_nat r) (ws r) (key r)
                 (err (calls w + r)%nat) w'.
Proof. intros r attempt w Hw Hfail Ha Hr. cbn zeta. by apply generic_chain. Qed.

Lemma generic_failures_back_off_witness :
  exists (ws : nat -> World) w',
    callGeminiWithRetry (fun _ => fails_with server_error) "prompt" 1
      (boot [key_a; key_b; key_c] defaults) = Throw server_error w' /\
    sleeps (trace w') = [1000; 2000; 4000] /\
    currentKeyIndex (this w') = 2%nat /\
    clock (ws 1%nat) = clock (boot [key_a; key_b; key_c] defaults) + 250 + 1000 /\
    clock (ws 2%nat) = clock (ws 1%nat) + 250 + 2000.
Proof.
  destruct (generic_failures_back_off (fun _ => fails_with server_error) "prompt"
              (fun _ => server_error) 3 1 (boot [key_a; key_b; key_c] defaults))
    as (ws & w' & Hrun & _ & Hsleeps & Hidx & H0 & Hchain & _).
  - by_computation.
  - intros n _. split; reflexivity.
  - lia.
  - reflexivity.
  - exists ws, w'. split; [exact Hrun|]. split; [exact Hsleeps|]. split; [exact Hidx|].
    destruct (Hchain 0%nat) as (_ & _ & _ & Hclock0); [lia|].
    destruct (Hchain 1%nat) as (_ & _ & _ & Hclock1); [lia|].
    rewrite H0 in Hclock0. split; [exact Hclock0 | exact Hclock1].
Defined.

(** * Detection and the chat middleware *)

Section DetectionFacts.

Variable upstream : nat -> Outcome.
Variable JSON_parse : string -> option JsValue.
Variable webhook : Z -> Post -> FetchOutcome.
Variable options : ServiceOptions.
Variables text_prompt_head text_prompt_tail : string.

Local Abbreviation detect :=
  (detectPIIInText upstream JSON_parse webhook options text_prompt_head text_prompt_tail).
Local Abbreviation check :=
  (checkTextMessage upstream JSON_parse webhook options text_prompt_head text_prompt_tail).
Local Abbreviation prompt_of := (buildTextDetectionPrompt text_prompt_head text_prompt_tail).

Lemma handleDetection_ok userId text d metadata w :
  handleDetection webhook options (mkData "text" userId text d metadata (clock w)) w =
  Return (posts_for options userId d (clock w)) (notified webhook options userId d w).
Proof.
  unfold handleDetection, notified, posts_for, notifyAdmin, report, bind, when, saveToDatabase.
  destruct (is_set (databaseUrl options)); cbn [ret];
    destruct (adminWebhook options) as [url|]; cbn [is_set];
    try destruct (negb (String.eqb url EmptyString)); reflexivity.
Qed.

Lemma wf_notified userId d w : wf w -> wf (notified webhook options userId d w).
Proof. intros Hw. unfold notified. case_match; [done|]. by apply wf_set_clock. Qed.

(** How [detectPIIInText] ends, by how the dispatch ends. *)
Lemma detect_eq a s userId metadata w :
  detect (JStr (String a s)) userId metadata w =
  match callGeminiWithRetry upstream (prompt_of (String a s)) 1 w with
  | Return result w1 =>
      let d := parseDetectionResult JSON_parse result in
      if truthy (hasPII d)
      then Return (d, posts_for options userId d (clock w1))
                  (notified webhook options userId d w1)
      else Return (d, []) w1
  | Throw e w1 => Throw e w1
  | OutOfFuel => OutOfFuel
  end.
Proof.
  unfold detectPIIInText. unfold bind at 1.
  destruct (callGeminiWithRetry _ _ _ _) as [result w1|e w1|]; try done.
  cbn zeta. destruct (truthy _); [|done].
  unfold bind at 1, Date_now, gets. unfold bind at 1.
  by rewrite handleDetection_ok.
Qed.

(** A detection ends with a result or an error and keeps the invariant. *)
Lemma detect_finishes text userId metadata w :
  wf w ->
  (exists d posts w1, detect text userId metadata w = Return (d, posts) w1 /\ wf w1) \/
  (exists e w1, detect text userId metadata w = Throw e w1 /\ wf w1).
Proof.
  intros Hw.
  destruct text as [| | | |[|a s]| |]; try (right; by do 2 eexists).
  rewrite detect_eq.
  destruct (callGeminiWithRetry_finishes upstream (prompt_of (String a s)) 1 w Hw)
    as [(result & w1 & -> & Hw1)|(e & w1 & -> & Hw1)]; [|right; by do 2 eexists].
  cbn zeta. left. destruct (truthy _); do 3 eexists; (split; [reflexivity|]); [|done].
  by apply wf_notified.
Qed.

Lemma detect_non_text text userId metadata w :
  (forall a s, text <> JStr (String a s)) ->
  detect text userId metadata w = Throw (Error "Valid text string is required") w.
Proof.
  intros Hno. unfold detectPIIInText.
  destruct text as [| | | |[|a s]| |]; try done. by destruct (Hno a s).
Qed.

(** X8: for a non-empty text in a well-formed service, [detectPIIInText]
    ends as the dispatch ends.  An error of the dispatch is rethrown as it
    is and nothing is posted.  A returned text is parsed and the parsed
    result is returned whatever the webhook answers; one post goes out,
    to the configured webhook, exactly when [hasPII] is truthy and a
    webhook is set, and it moves nothing but the clock. *)
Theorem detect_reports_flagged_only a s userId metadata w :
  wf w ->
  match callGeminiWithRetry upstream (prompt_of (String a s)) 1 w with
  | Throw e w1 => detect (JStr (String a s)) userId metadata w = Throw e w1
  | Return result w1 =>
      let d := parseDetectionResult JSON_parse result in
      exists posts w',
        detect (JStr (String a s)) userId metadata w = Return (d, posts) w' /\
        wf w' /\
        this w' = this w1 /\ heap w' = heap w1 /\ calls w' = calls w1 /\
        trace w' = trace w1 /\
        (posts <> [] <-> truthy (hasPII d) = true /\ is_set (adminWebhook options) = true) /\
        (posts = [] -> w' = w1) /\
        (posts <> [] -> exists url,
           adminWebhook options = Some url /\
           posts = [report url userId d (clock w1)] /\
           clock w' = clock w1 +
                      fetch_elapsed (webhook (clock w1) (report url userId d (clock w1))))
  | OutOfFuel => False
  end.
Proof.
  intros Hw. rewrite detect_eq.
  destruct (callGeminiWithRetry_finishes upstream (prompt_of (String a s)) 1 w Hw)
    as [(result & w1 & -> & Hw1)|(e & w1 & -> & Hw1)]; [|done].
  cbn zeta. set (d := parseDetectionResult JSON_parse result).
  destruct (truthy (hasPII d)) eqn:Ht.
  - exists (posts_for options userId d (clock w1)), (notified webhook options userId d w1).
    split; [done|]. split; [by apply wf_notified|].
    unfold notified, posts_for.
    destruct (adminWebhook options) as [url|]; cbn [is_set].
    + destruct (negb (String.eqb url EmptyString)).
      * split_and!; try done. intros _. by exists url.
      * split_and!; try done. split; [done | by intros [_ ?]].
    + split_and!; try done. split; [done | by intros [_ ?]].
  - exists [], w1. split_and!; try done. split; [done | by intros [? _]].
Qed.

(** X9: when the first upstream call returns a text that [JSON.parse]
    rejects and whose lower-cased form contains [detected], [found],
    [phone] or [email], [detectPIIInText] returns the fallback result,
    flagged with [hasPII = true], confidence 50 and risk level [medium],
    and reports it like any other detection. *)
Theorem unparseable_answer_is_flagged a s userId metadata w result :
  wf w ->
  reply (upstream (calls w)) = Responds result ->
  JSON_parse (cleanedText result) = None ->
  (exists trigger, trigger ∈ ["detected"; "found"; "phone"; "email"] /\
     JsString.includes trigger (JsString.toLowerCase result) = true) ->
  let w1 := issue_call (upstream (calls w)) (record_attempt w) in
  let d := fallback_result result in
  detect (JStr (String a s)) userId metadata w =
    Return (d, posts_for options userId d (clock w1)) (notified webhook options userId d w1) /\
  hasPII d = JBool true /\ confidence d = num 50 /\ riskLevel d = JStr "medium" /\
  rawResponse d = JStr result.
Proof.
  intros Hw Hr Hparse Htrigger w1 d.
  apply hasPIIIndicators_true in Htrigger.
  assert (parseDetectionResult JSON_parse result = d) as Hd.
  { unfold parseDetectionResult.
    replace (parse_try JSON_parse result) with (@None DetectionResult); [done|].
    symmetry. apply parse_try_None. by left. }
  rewrite detect_eq, (success _ _ _ _ result) by done. cbn zeta. rewrite Hd.
  subst d. cbn [fallback_result hasPII confidence riskLevel rawResponse truthy].
  by rewrite Htrigger.
Qed.

(** ** The middleware *)

Local Abbreviation metadata_of b :=
  (JObj [("receiverId", body_receiverId b);
         ("conversationId", body_conversationId b);
         ("messageType", JStr "text")]).

(** How the middleware ends for a complete request, by how the detection
    ends. *)
Lemma check_eq cfg req w :
  truthy (body_message (body req)) = true ->
  truthy (body_senderId (body req)) = true ->
  check cfg req w =
  match detect (body_message (body req)) (body_senderId (body req))
               (metadata_of (body req)) w with
  | Return found w1 =>
      let d := fst found in
      let req1 := mkRequest (body req) (Some d) in
      if truthy (hasPII d) then
        if blockOnDetection cfg then
          Return (req1,
                  Responded 403
                    (JObj [("success", JBool false);
                           ("error", JStr "Message blocked: Contains contact information");
                           ("message",
                            JStr "Please avoid sharing personal contact information in chat.");
                           ("detection",
                            JObj [("hasPII", JBool true); ("riskLevel", riskLevel d)])]),
                  snd found) w1
        else
          Return (set_flag "PII_DETECTED"
                    (JObj [("hasPII", JBool true); ("riskLevel", riskLevel d);
                           ("confidence", confidence d)]) req1,
                  Next, snd found) w1
      else Return (req1, Next, snd found) w1
  | Throw e w1 =>
      Return (set_flag "PII_CHECK_ERROR" (body_detection (body req)) req, Next, []) w1
  | OutOfFuel => OutOfFuel
  end.
Proof.
  intros Hm Hs. unfold checkTextMessage, try_catch. cbn zeta.
  rewrite Hm, Hs. cbn [negb orb]. unfold bind.
  destruct (detect _ _ _ w) as [found w1|e w1|]; try done.
  destruct (truthy (hasPII found.1)); [|done]. by destruct (blockOnDetection cfg).
Qed.

Lemma check_incomplete cfg req w :
  truthy (body_message (body req)) = false \/ truthy (body_senderId (body req)) = false ->
  check cfg req w =
  Return (req, Responded 400 (JObj [("error", JStr "Message and senderId are required")]), [])
         w.
Proof.
  intros H. unfold checkTextMessage, try_catch.
  by destruct H as [-> | ->]; rewrite ?orb_true_r.
Qed.

(** X10: a message that is not a non-empty string never reaches the
    upstream: [detectPIIInText] refuses it with the error [Valid text string
    is required] and leaves the service alone.  The middleware's guard lets
    a truthy message of another type (a number, an object) through to the
    detection, catches that error, and passes the request on unchecked,
    flagged with the reason [PII_CHECK_ERROR]. *)
Theorem non_text_message_passes_unchecked cfg req w :
  (forall a s, body_message (body req) <> JStr (String a s)) ->
  detect (body_message (body req)) (body_senderId (body req)) (metadata_of (body req)) w =
    Throw (Error "Valid text string is required") w /\
  (truthy (body_message (body req)) = true ->
   truthy (body_senderId (body req)) = true ->
   check cfg req w =
     Return (set_flag "PII_CHECK_ERROR" (body_detection (body req)) req, Next, []) w).
Proof.
  intros Hno. split; [by apply detect_non_text|].
  intros Hm Hs. by rewrite check_eq, detect_non_text.
Qed.

(** X11: in a well-formed service the middleware never throws, whatever
    the request, the upstream and the webhook do, and it keeps the service
    well formed.  It answers 400 exactly for a request whose [message] or
    [senderId] is missing or falsy, and then nothing else happens: no
    detection, no post, request and service as they were.  It answers 403
    only when [blockOnDetection] is on and the detection it stored in the
    request is flagged; in every other case it calls [next]. *)
Theorem middleware_always_answers cfg req w :
  wf w ->
  exists req' handled posts w',
    check cfg req w = Return (req', handled, posts) w' /\
    wf w' /\
    (handled = Next \/ (exists v, handled = Responded 400 v) \/
     (exists v, handled = Responded 403 v)) /\
    ((exists v, handled = Responded 400 v) <->
       truthy (body_message (body req)) = false \/
       truthy (body_senderId (body req)) = false) /\
    ((exists v, handled = Responded 400 v) ->
       handled = Responded 400 (JObj [("error", JStr "Message and senderId are required")]) /\
       req' = req /\ posts = [] /\ w' = w) /\
    ((exists v, handled = Responded 403 v) ->
       blockOnDetection cfg = true /\
       exists d, piiDetection req' = Some d /\ truthy (hasPII d) = true) /\
    (handled <> Next -> body req' = body req).
Proof.
  intros Hw.
  destruct (truthy (body_message (body req))) eqn:Hm;
    [destruct (truthy (body_senderId (body req))) eqn:Hs|].
  2,3: (rewrite check_incomplete by eauto;
        do 4 eexists; split; [reflexivity|]; split; [done|];
        split_and!; [eauto | split; eauto | done | by intros [v [=]] | done]).
  rewrite check_eq by done.
  destruct (detect_finishes (body_message (body req)) (body_senderId (body req))
              (metadata_of (body req)) w Hw)
    as [(d & posts & w1 & -> & Hw1)|(e & w1 & -> & Hw1)].
  - cbn [fst snd]. cbn zeta. destruct (truthy (hasPII d)) eqn:Ht.
    + destruct (blockOnDetection cfg) eqn:Hb.
      * do 4 eexists. split; [reflexivity|]. split; [done|].
        split_and!; [eauto | | by intros [v [=]] | | done].
        -- split; [by intros [v [=]] | by intros [?|?]].
        -- intros _. split; [done|]. by exists d.
      * do 4 eexists. split; [reflexivity|]. split; [done|].
        split_and!; [eauto | | by intros [v [=]] | by intros [v [=]] | done].
        split; [by intros [v [=]] | by intros [?|?]].
    + do 4 eexists. split; [reflexivity|]. split; [done|].
      split_and!; [eauto | | by intros [v [=]] | by intros [v [=]] | done].
      split; [by intros [v [=]] | by intros [?|?]].
  - do 4 eexists. split; [reflexivity|]. split; [done|].
    split_and!; [eauto | | by intros [v [=]] | by intros [v [=]] | done].
    split; [by intros [v [=]] | by intros [?|?]].
Qed.

(** X12: when the dispatch for a text message throws (all keys rate
    limited, the retries used up), the middleware does not block, whatever
    [blockOnDetection] says: it sets [flagged] and the reason
    [PII_CHECK_ERROR] on the request body, stores no detection, posts
    nothing, and calls [next]. *)
Theorem middleware_fails_open cfg req a s w e w1 :
  body_message (body req) = JStr (String a s) ->
  truthy (body_senderId (body req)) = true ->
  callGeminiWithRetry upstream (prompt_of (String a s)) 1 w = Throw e w1 ->
  exists req',
    check cfg req w = Return (req', Next, []) w1 /\
    body_flagged (body req') = JBool true /\
    body_flagReason (body req') = JStr "PII_CHECK_ERROR" /\
    body_message (body req') = body_message (body req) /\
    body_detection (body req') = body_detection (body req) /\
    piiDetection req' = piiDetection req.
Proof.
  intros Hm Hs Hthrow. rewrite check_eq by (by rewrite ?Hm).
  rewrite Hm, detect_eq, Hthrow. eexists. split; [reflexivity|]. done.
Qed.

(** X13: with [blockOnDetection] off, as the constructor leaves it, a
    text message whose dispatch returns is always passed on, with the
    parsed answer stored in [req.piiDetection].  When [hasPII] is truthy
    the body is flagged with the reason [PII_DETECTED] and a summary of risk
    level and confidence, and the detection is reported; otherwise body and
    service are left as the dispatch left them and nothing is posted. *)
Theorem middleware_flags_and_forwards cfg req a s w result w1 :
  blockOnDetection cfg = false ->
  body_message (body req) = JStr (String a s) ->
  truthy (body_senderId (body req)) = true ->
  callGeminiWithRetry upstream (prompt_of (String a s)) 1 w = Return result w1 ->
  let d := parseDetectionResult JSON_parse result in
  exists req' posts w',
    check cfg req w = Return (req', Next, posts) w' /\
    piiDetection req' = Some d /\
    body_message (body req') = body_message (body req) /\
    (truthy (hasPII d) = false -> body req' = body req /\ posts = [] /\ w' = w1) /\
    (truthy (hasPII d) = true ->
       body_flagged (body req') = JBool true /\
       body_flagReason (body req') = JStr "PII_DETECTED" /\
       body_detection (body req') =
         JObj [("hasPII", JBool true); ("riskLevel", riskLevel d);
               ("confidence", confidence d)] /\
       posts = posts_for options (body_senderId (body req)) d (clock w1) /\
       w' = notified webhook options (body_senderId (body req)) d w1).
Proof.
  intros Hb Hm Hs Hret d. rewrite check_eq by (by rewrite ?Hm).
  rewrite Hm, detect_eq, Hret. cbn zeta. fold d.
  destruct (truthy (hasPII d)) eqn:Ht; cbn [fst snd]; rewrite Ht, ?Hb;
    (do 3 eexists; split; [reflexivity|]); by split_and!.
Qed.

(** X14: once [updateConfig] has switched [blockOnDetection] on, a text
    message whose parsed answer has a truthy [hasPII] is answered with
    status 403 instead of being passed on.  The response names nothing of
    the detection but the risk level; the request body is not flagged; the
    detection is still stored in the request and still reported to the
    webhook. *)
Theorem middleware_blocks_when_switched_on cfg newConfig req a s w result w1 :
  patch_blockOnDetection newConfig = Some true ->
  body_message (body req) = JStr (String a s) ->
  truthy (body_senderId (body req)) = true ->
  callGeminiWithRetry upstream (prompt_of (String a s)) 1 w = Return result w1 ->
  let d := parseDetectionResult JSON_parse result in
  truthy (hasPII d) = true ->
  check (updateConfig newConfig cfg) req w =
  Return (mkRequest (body req) (Some d),
          Responded 403
            (JObj [("success", JBool false);
                   ("error", JStr "Message blocked: Contains contact information");
                   ("message",
                    JStr "Please avoid sharing personal contact information in chat.");
                   ("detection", JObj [("hasPII", JBool true); ("riskLevel", riskLevel d)])]),
          posts_for options (body_senderId (body req)) d (clock w1))
         (notified webhook options (body_senderId (body req)) d w1).
Proof.
  intros Hb Hm Hs Hret d Ht. rewrite check_eq by (by rewrite ?Hm).
  rewrite Hm, detect_eq, Hret. cbn zeta. fold d. rewrite Ht. cbn [fst snd].
  rewrite Ht. unfold updateConfig. cbn [blockOnDetection]. by rewrite Hb.
Qed.

End DetectionFacts.

(** ** The sample deployment *)

Lemma non_text_message_passes_unchecked_witness :
  sample_check (always "ok") initial_chat_config (sample_request (num 5))
               (boot [key_a] defaults) =
  Return (set_flag "PII_CHECK_ERROR" JUndefined (sample_request (num 5)), Next, [])
         (boot [key_a] defaults).
Proof.
  destruct (non_text_message_passes_unchecked (always "ok") JsonRef.JSON_parse
              sample_webhook sample_options "Analyze this message: " EmptyString
              initial_chat_config (sample_request (num 5)) (boot [key_a] defaults))
    as [_ H]; [intros a s; discriminate|].
  apply H; reflexivity.
Defined.

Lemma detect_reports_flagged_only_witness :
  exists d posts w',
    sample_detect (always flagged_answer) (JStr "call me") (JStr "user-1") sample_metadata
                  (boot [key_a] defaults) = Return (d, posts) w' /\
    wf w'.
Proof.
  assert (wf (boot [key_a] defaults)) as Hw by by_computation.
  pose proof (detect_reports_flagged_only (always flagged_answer) JsonRef.JSON_parse
                sample_webhook sample_options "Analyze this message: " EmptyString
                "c" "all me" (JStr "user-1") sample_metadata _ Hw) as H.
  destruct (callGeminiWithRetry _ _ _ _) as [result w1|e w1|] eqn:E.
  - destruct H as (posts & w' & Hrun & Hw' & _). eauto.
  - by vm_compute in E.
  - by vm_compute in E.
Defined.

Lemma unparseable_answer_is_flagged_witness :
  exists posts w',
    sample_detect (always "A phone number was found") (JStr "call me") (JStr "user-1")
                  sample_metadata (boot [key_a] defaults) =
    Return (fallback_result "A phone number was found", posts) w'.
Proof.
  assert (wf (boot [key_a] defaults)) as Hw by by_computation.
  destruct (unparseable_answer_is_flagged (always "A phone number was found")
              JsonRef.JSON_parse sample_webhook sample_options
              "Analyze this message: " EmptyString
              "c" "all me" (JStr "user-1") sample_metadata _ "A phone number was found" Hw)
    as [Hrun _].
  - reflexivity.
  - reflexivity.
  - exists "found". split; [|reflexivity]. by repeat constructor.
  - eauto.
Defined.

Lemma middleware_always_answers_witness :
  exists req' handled posts w',
    sample_check (always flagged_answer) (mkChatConfig true true true)
                 (sample_request (JStr "call me")) (boot [key_a] defaults) =
    Return (req', handled, posts) w'.
Proof.
  assert (wf (boot [key_a] defaults)) as Hw by by_computation.
  destruct (middleware_always_answers (always flagged_answer) JsonRef.JSON_parse
              sample_webhook sample_options "Analyze this message: " EmptyString
              (mkChatConfig true true true) (sample_request (JStr "call me")) _ Hw)
    as (req' & handled & posts & w' & Hrun & _).
  eauto.
Defined.

Lemma middleware_fails_open_witness :
  exists req' w1,
    sample_check (fun _ => fails_with quota_error) (mkChatConfig true true true)
                 (sample_request (JStr "call me")) (boot [key_a] defaults) =
    Return (req', Next, []) w1 /\
    body_flagReason (body req') = JStr "PII_CHECK_ERROR".
Proof.
  destruct (callGeminiWithRetry (fun _ => fails_with quota_error)
              (buildTextDetectionPrompt "Analyze this message: " EmptyString "call me") 1
              (boot [key_a] defaults)) as [result w1|e w1|] eqn:E.
  - by vm_compute in E.
  - destruct (middleware_fails_open (fun _ => fails_with quota_error) JsonRef.JSON_parse
                sample_webhook sample_options "Analyze this message: " EmptyString
                (mkChatConfig true true true) (sample_request (JStr "call me"))
                "c" "all me" (boot [key_a] defaults) e w1)
      as (req' & Hrun & _ & Hreason & _); [reflexivity | reflexivity | exact E |].
    eauto.
  - by vm_compute in E.
Defined.

Lemma middleware_flags_and_forwards_witness :
  exists req' posts w',
    sample_check (always flagged_answer) initial_chat_config
                 (sample_request (JStr "call me")) (boot [key_a] defaults) =
    Return (req', Next, posts) w' /\
    body_flagReason (body req') = JStr "PII_DETECTED".
Proof.
  destruct (callGeminiWithRetry (always flagged_answer)
              (buildTextDetectionPrompt "Analyze this message: " EmptyString "call me") 1
              (boot [key_a] defaults)) as [result w1|e w1|] eqn:E.
  - destruct (middleware_flags_and_forwards (always flagged_answer) JsonRef.JSON_parse
                sample_webhook sample_options "Analyze this message: " EmptyString
                initial_chat_config (sample_request (JStr "call me"))
                "c" "all me" (boot [key_a] defaults) result w1)
      as (req' & posts & w' & Hrun & _ & _ & _ & Hflag);
      [reflexivity | reflexivity | reflexivity | exact E |].
    exists req', posts, w'. split; [exact Hrun|]. apply Hflag.
    vm_compute in E. by injection E as <- _.
  - by vm_compute in E.
  - by vm_compute in E.
Defined.

Lemma middleware_blocks_when_switched_on_witness :
  exists req' v posts w',
    sample_check (always flagged_answer)
                 (updateConfig (mkPatch (Some true) None None) initial_chat_config)
                 (sample_request (JStr "call me")) (boot [key_a] defaults) =
    Return (req', Responded 403 v, posts) w' /\
    body_flagged (body req') = JUndefined.
Proof.
  destruct (callGeminiWithRetry (always flagged_answer)
              (buildTextDetectionPrompt "Analyze this message: " EmptyString "call me") 1
              (boot [key_a] defaults)) as [result w1|e w1|] eqn:E.
  - do 4 eexists. split.
    + apply (middleware_blocks_when_switched_on (always flagged_answer) JsonRef.JSON_parse
               sample_webhook sample_options "Analyze this message: " EmptyString
               initial_chat_config (mkPatch (Some true) None None)
               (sample_request (JStr "call me")) "c" "all me" (boot [key_a] defaults)
               result w1); [reflexivity | reflexivity | reflexivity | exact E |].
      vm_compute in E. by injection E as <- _.
    + reflexivity.
  - by vm_compute in E.
  - by vm_compute in E.
Defined.

(** * Loading the keys *)

(** The values that the loop meets before index [gap], in order. *)
Lemma loadAPIKeys_from_spec env : forall fuel keyIndex keys,
  (forall k, (1 <= k < keyIndex)%nat -> is_Some (env !! k)) ->
  (keyIndex + fuel = size env + 2)%nat ->
  (1 <= keyIndex)%nat ->
  exists gap,
    (keyIndex <= gap)%nat /\
    (env !! gap = None \/ env !! gap = Some EmptyString) /\
    (forall k, (keyIndex <= k < gap)%nat ->
       exists key, env !! k = Some key /\ key <> EmptyString) /\
    loadAPIKeys_from fuel env keyIndex keys =
      Some (keys ++ filter (fun key => placeholder key = false)
                      (omap (fun k => env !! k) (seq keyIndex (gap - keyIndex)))).
Proof.
  induction fuel as [|fuel IH]; intros keyIndex keys Hdom Hfuel Hpos.
  - exfalso.
    assert (set_seq (C := gset nat) 1 (keyIndex - 1) ⊆ dom env) as Hsub.
    { intros k Hk. apply elem_of_set_seq in Hk. apply elem_of_dom, Hdom. lia. }
    apply subseteq_size in Hsub. rewrite size_set_seq, size_dom in Hsub. lia.
  - cbn [loadAPIKeys_from].
    destruct (env !! keyIndex) as [key|] eqn:Hkey.
    + destruct (String.eqb key EmptyString) eqn:Hempty.
      * apply String.eqb_eq in Hempty as ->. exists keyIndex.
        rewrite Nat.sub_diag. cbn. rewrite app_nil_r.
        split_and!; [lia | by right | intros k; lia | done].
      * apply String.eqb_neq in Hempty.
        assert (forall keys',
          exists gap, (keyIndex <= gap)%nat /\
            (env !! gap = None \/ env !! gap = Some EmptyString) /\
            (forall k, (keyIndex <= k < gap)%nat ->
               exists key, env !! k = Some key /\ key <> EmptyString) /\
            (S keyIndex <= gap)%nat /\
            loadAPIKeys_from fuel env (S keyIndex) keys' =
              Some (keys' ++ filter (fun key => placeholder key = false)
                       (omap (fun k => env !! k) (seq (S keyIndex) (gap - S keyIndex)))))
          as Hnext.
        { intros keys'. destruct (IH (S keyIndex) keys') as (gap & Hle & Hgap & Hbefore & Hrun).
          - intros k Hk. destruct (decide (k = keyIndex)) as [->|]; [by rewrite Hkey|].
            apply Hdom. lia.
          - lia.
          - lia.
          - exists gap. split_and!; [lia | done | | lia | done].
            intros k Hk. destruct (decide (k = keyIndex)) as [->|]; [eauto|].
            apply Hbefore. lia. }
        destruct (placeholder key) eqn:Hph.
        -- destruct (Hnext keys) as (gap & Hle & Hgap & Hbefore & Hlt & ->).
           exists gap. split_and!; try done.
           replace (gap - keyIndex)%nat with (S (gap - S keyIndex)) by lia.
           cbn [seq]. rewrite omap_cons_eq, Hkey, filter_cons_False; [done|].
           by rewrite Hph.
        -- destruct (Hnext (keys ++ [key])) as (gap & Hle & Hgap & Hbefore & Hlt & ->).
           exists gap. split_and!; try done.
           replace (gap - keyIndex)%nat with (S (gap - S keyIndex)) by lia.
           cbn [seq]. rewrite omap_cons_eq, Hkey, filter_cons_True by done.
           by rewrite <- app_assoc.
    + exists keyIndex. rewrite Nat.sub_diag. cbn. rewrite app_nil_r.
      split_and!; [lia | by left | intros k; lia | done].
Qed.

(** X15: [loadAPIKeys] terminates on every environment.  It reads
    [GEMINI_API_KEY_1], [GEMINI_API_KEY_2], ... up to the first index that
    is unset or empty and ignores everything after that gap; of the values
    before the gap it keeps, in order, those that are no placeholders, and
    every key it keeps has at least 20 characters. *)
Theorem loadAPIKeys_stops_at_gap env :
  exists gap keys,
    loadAPIKeys env = Some keys /\
    (1 <= gap)%nat /\
    (env !! gap = None \/ env !! gap = Some EmptyString) /\
    (forall k, (1 <= k < gap)%nat -> exists key, env !! k = Some key /\ key <> EmptyString) /\
    keys = filter (fun key => placeholder key = false)
             (omap (fun k => env !! k) (seq 1 (gap - 1))) /\
    Forall (fun key => (20 <= String.length key)%nat /\
                       JsString.includes "your-api-key" key = false /\
                       JsString.includes "your-key" key = false) keys.
Proof.
  destruct (loadAPIKeys_from_spec env (S (size env)) 1 []) as (gap & Hle & Hgap & Hbefore & Hrun).
  - intros k Hk. lia.
  - lia.
  - lia.
  - exists gap. eexists. split; [exact Hrun|]. cbn [app]. split_and!; try done.
    apply Forall_forall. intros key Hin. apply list_elem_of_filter in Hin as [Hph _].
    by apply kept_key.
Qed.

(** ** Keys loaded at server start are masked *)

Lemma loadAPIKeys_kept env keys :
  loadAPIKeys env = Some keys ->
  Forall (fun key => placeholder key = false) keys.
Proof.
  intros Hload.
  destruct (loadAPIKeys_from_spec env (S (size env)) 1 []) as (gap & _ & _ & _ & Hrun);
    [intros k Hk; lia | lia | lia |].
  unfold loadAPIKeys in Hload. rewrite Hrun in Hload. injection Hload as <-.
  apply Forall_forall. intros key Hin. by apply list_elem_of_filter in Hin as [Hph _].
Qed.

(** X16: the keys that the server loads with [loadAPIKeys] and hands to
    the constructor are all masked by [getUsageStats()]: the server's
    length filter leaves only keys of 20 code units or more, so every
    entry's preview has exactly 11 code units, does not contain its key,
    and reports zeroed counters with key 0 marked as the current one. *)
Theorem server_keys_are_masked env keys c w :
  loadAPIKeys env = Some keys ->
  keys <> [] ->
  exists w1 objs,
    constructor keys c w = Return tt w1 /\
    getUsageStats w1 =
      Return (seq (length (heap w1)) (length keys)) (set_heap (heap w1 ++ objs) w1) /\
    forall j key, keys !! j = Some key ->
      exists u,
        (heap w1 ++ objs) !! (length (heap w1) + j)%nat = Some (ObjUsage u) /\
        keyIndex u = j /\
        isCurrent u = (j =? 0)%nat /\
        spread u = Some fresh_stats /\
        String.length (keyPreview u) = 11%nat /\
        JsString.includes key (keyPreview u) = false.
Proof.
  intros Hload Hne.
  destruct (constructor_ok keys c w Hne)
    as (w1 & Hrun & Hw1 & Hkeys & Hcur & _ & _ & _ & Hstats & _).
  destruct (usage_entries_spec keys 0 w1) as (objs & Hget & Hlen & Hobjs).
  exists w1, objs. split; [done|]. split.
  { unfold getUsageStats, bind, gets. by rewrite Hkeys. }
  intros j key Hj. eexists. split.
  { rewrite lookup_app_r by lia.
    replace (length (heap w1) + j - length (heap w1))%nat with j by lia.
    by apply Hobjs. }
  cbn [keyIndex isCurrent spread keyPreview]. rewrite Hcur.
  apply loadAPIKeys_kept in Hload.
  assert (placeholder key = false) as Hph.
  { eapply Forall_forall in Hload; [done|]. by eapply list_elem_of_lookup_2. }
  apply kept_key in Hph as [Hlong _].
  destruct (preview_facts key) as (_ & _ & Hsub & Hhide & _).
  split_and!; [done | done | | | ].
  - apply Hstats. by eapply lookup_lt_Some.
  - rewrite length_app_string, Hsub. change (String.length "...") with 3%nat. lia.
  - apply Hhide. lia.
Qed.

Lemma server_keys_are_masked_witness :
  exists w1 objs,
    constructor [key_a; key_b] defaults blank = Return tt w1 /\
    getUsageStats w1 =
      Return (seq (length (heap w1)) 2) (set_heap (heap w1 ++ objs) w1).
Proof.
  destruct (server_keys_are_masked sample_env [key_a; key_b] defaults blank)
    as (w1 & objs & Hrun & Hget & _); [reflexivity | discriminate |].
  eauto.
Defined.

(** * Fenced answers *)

Lemma includes_cons sub a s :
  JsString.includes sub (String a s) = false ->
  JsString.startsWith sub (String a s) = false /\ JsString.includes sub s = false.
Proof. simpl. by destruct (JsString.startsWith sub (String a s)). Qed.

Lemma startsWith_trans p q s :
  JsString.startsWith p q = true -> JsString.startsWith q s = true ->
  JsString.startsWith p s = true.
Proof.
  revert q s. induction p as [|a p IH]; intros [|b q] [|c s]; simpl; try done.
  destruct (Ascii.eqb a b) eqn:E1; [|done]. destruct (Ascii.eqb b c) eqn:E2; [|done].
  apply Ascii.eqb_eq in E1 as ->. rewrite E2. apply IH.
Qed.

(** A text without [p] has no text that starts with [p] either. *)
Lemma includes_prefix p q s :
  JsString.startsWith p q = true ->
  JsString.includes p s = false -> JsString.includes q s = false.
Proof.
  intros Hpq. induction s as [|a s IH]; simpl.
  - destruct (JsString.startsWith p EmptyString) eqn:E; [done|]. intros _.
    destruct (JsString.startsWith q EmptyString) eqn:E'; [|done].
    by rewrite (startsWith_trans _ _ _ Hpq E') in E.
  - destruct (JsString.startsWith p (String a s)) eqn:E; [done|]. intros H.
    destruct (JsString.startsWith q (String a s)) eqn:E'; [|by apply IH].
    by rewrite (startsWith_trans _ _ _ Hpq E') in E.
Qed.

(** Without an occurrence of the fence the replacement changes nothing. *)
Lemma remove_fence_absent fence s : forall fuel,
  JsString.includes fence s = false -> JsString.remove_fence fence fuel s = s.
Proof.
  induction s as [|a s IH]; intros [|fuel] H; try done.
  apply includes_cons in H as [H1 H2].
  cbn [JsString.remove_fence]. rewrite H1. by rewrite IH.
Qed.

Lemma includes_trimStart p s :
  JsString.includes p s = false -> JsString.includes p (JsString.trimStart s) = false.
Proof.
  induction s as [|a s IH]; [done|]. intros H. cbn [JsString.trimStart].
  destruct (JsString.is_space a); [|done]. apply IH. by apply includes_cons in H as [_ ?].
Qed.

Lemma startsWith_app_l p s t :
  JsString.startsWith p s = true -> JsString.startsWith p (s +:+ t) = true.
Proof.
  revert s. induction p as [|a p IH]; intros [|b s]; simpl; try done.
  destruct (Ascii.eqb a b); [apply IH|done].
Qed.

Lemma includes_String p a s :
  JsString.includes p (String a s) =
  if JsString.startsWith p (String a s) then true else JsString.includes p s.
Proof. done. Qed.

Lemma includes_app_l p s t :
  JsString.includes p s = true -> JsString.includes p (s +:+ t) = true.
Proof.
  induction s as [|a s IH].
  - simpl. destruct (JsString.startsWith p EmptyString) eqn:E; [|done]. intros _.
    destruct p; [|done]. by destruct t.
  - rewrite includes_String. intros H.
    change (String a s +:+ t) with (String a (s +:+ t)). rewrite includes_String.
    destruct (JsString.startsWith p (String a s)) eqn:E.
    + change (String a (s +:+ t)) with (String a s +:+ t).
      by rewrite (startsWith_app_l _ _ _ E).
    + rewrite IH by done. by case_match.
Qed.

(** [trimEnd] cuts a suffix off. *)
Lemma trimEnd_prefix s : exists t, s = JsString.trimEnd s +:+ t.
Proof.
  induction s as [|a s [t IH]]; [by exists EmptyString|].
  cbn [JsString.trimEnd]. destruct (JsString.trimEnd s) as [|b r] eqn:E.
  - destruct (JsString.is_space a).
    + by exists (String a s).
    + exists s. done.
  - exists t. simpl. by rewrite IH at 1.
Qed.

Lemma includes_trimEnd p s :
  JsString.includes p s = false -> JsString.includes p (JsString.trimEnd s) = false.
Proof.
  intros H. destruct (JsString.includes p (JsString.trimEnd s)) eqn:E; [|done].
  destruct (trimEnd_prefix s) as [t Ht].
  apply (includes_app_l _ _ t) in E. rewrite <- Ht in E. congruence.
Qed.

Lemma includes_trim p s :
  JsString.includes p s = false -> JsString.includes p (JsString.trim s) = false.
Proof. intros H. by apply includes_trimEnd, includes_trimStart. Qed.

Lemma trimEnd_String a s :
  JsString.trimEnd (String a s) =
  match JsString.trimEnd s with
  | EmptyString => if JsString.is_space a then EmptyString else String a EmptyString
  | t => String a t
  end.
Proof. done. Qed.

(** [trimEnd] past a suffix that it leaves something of, and past one that
    it removes. *)
Lemma trimEnd_app_kept s t :
  JsString.trimEnd t <> EmptyString ->
  JsString.trimEnd (s +:+ t) = s +:+ JsString.trimEnd t.
Proof.
  intros Ht. induction s as [|a s IH]; [done|].
  change (String a s +:+ t) with (String a (s +:+ t)).
  rewrite trimEnd_String, IH.
  change (String a s +:+ JsString.trimEnd t) with (String a (s +:+ JsString.trimEnd t)).
  destruct (s +:+ JsString.trimEnd t) eqn:E; [|done].
  destruct s; [|done]. simpl in E. done.
Qed.

Lemma trimEnd_app_removed s t :
  JsString.trimEnd t = EmptyString ->
  JsString.trimEnd (s +:+ t) = JsString.trimEnd s.
Proof.
  intros Ht. induction s as [|a s IH]; [done|].
  change (String a s +:+ t) with (String a (s +:+ t)).
  by rewrite !trimEnd_String, IH.
Qed.

Lemma trimEnd_idempotent s : JsString.trimEnd (JsString.trimEnd s) = JsString.trimEnd s.
Proof.
  induction s as [|a s IH]; [done|]. rewrite trimEnd_String.
  destruct (JsString.trimEnd s) as [|b r] eqn:E.
  - destruct (JsString.is_space a) eqn:Ea; [done|]. rewrite trimEnd_String.
    cbn [JsString.trimEnd]. by rewrite Ea.
  - rewrite trimEnd_String. by rewrite IH.
Qed.

Lemma trimStart_trimEnd s :
  JsString.trimStart (JsString.trimEnd (JsString.trimStart s)) =
  JsString.trimEnd (JsString.trimStart s).
Proof.
  induction s as [|a s IH]; [done|]. cbn [JsString.trimStart].
  destruct (JsString.is_space a) eqn:Ea; [done|].
  rewrite trimEnd_String. destruct (JsString.trimEnd s); rewrite ?Ea; cbn [JsString.trimStart]; by rewrite Ea.
Qed.

Lemma trim_idempotent s : JsString.trim (JsString.trim s) = JsString.trim s.
Proof. unfold JsString.trim. by rewrite trimStart_trimEnd, trimEnd_idempotent. Qed.

Lemma trimStart_String a s :
  JsString.trimStart (String a s) =
  if JsString.is_space a then JsString.trimStart s else String a s.
Proof. done. Qed.

(** A line feed at the end does not survive [trim]. *)
Lemma trim_line_feed s :
  JsString.trim (s +:+ String JsString.newline EmptyString) = JsString.trim s.
Proof.
  unfold JsString.trim. induction s as [|a s IH]; [done|].
  change (String a s +:+ String JsString.newline EmptyString)
    with (String a (s +:+ String JsString.newline EmptyString)).
  rewrite !trimStart_String. destruct (JsString.is_space a); [exact IH|].
  change (String a (s +:+ String JsString.newline EmptyString))
    with (String a s +:+ String JsString.newline EmptyString).
  by apply trimEnd_app_removed.
Qed.

Lemma append_String a s t : String a s +:+ t = String a (s +:+ t).
Proof. done. Qed.

Lemma append_EmptyString t : EmptyString +:+ t = t.
Proof. done. Qed.

(** The closing fence behind a body without a fence. *)
Lemma startsWith_fence_body body t :
  JsString.startsWith "```" (body +:+ String JsString.newline t) = true ->
  JsString.startsWith "```" body = true.
Proof.
  change JsString.newline with "010"%char.
  destruct body as [|a [|b [|c r]]]; rewrite ?append_String, ?append_EmptyString;
    cbn -[Ascii.eqb]; change (Ascii.eqb "`" "010") with false;
    repeat (case_match; try done).
Qed.

Lemma remove_fence_closing body : forall fuel,
  JsString.includes "```" body = false ->
  (String.length body + 2 <= fuel)%nat ->
  JsString.remove_fence "```" fuel (body +:+ String JsString.newline "```") =
  body +:+ String JsString.newline EmptyString.
Proof.
  induction body as [|a body IH]; intros fuel Hno Hfuel.
  - destruct fuel as [|[|fuel]]; [simpl in Hfuel; lia..|]. reflexivity.
  - destruct fuel as [|fuel]; [lia|].
    apply includes_cons in Hno as [H1 H2].
    change (String a body +:+ String JsString.newline "```")
      with (String a (body +:+ String JsString.newline "```")).
    cbn [JsString.remove_fence].
    destruct (JsString.startsWith "```" (String a (body +:+ String JsString.newline "```")))
      eqn:E.
    + apply (startsWith_fence_body (String a body)) in E. congruence.
    + cbn [String.append]. rewrite IH; [done..|]. simpl in Hfuel. lia.
Qed.

Lemma includes_json_closing body :
  JsString.includes "```" body = false ->
  JsString.includes "```json" (body +:+ String JsString.newline "```") = false.
Proof.
  induction body as [|a body IH]; [done|]. intros Hno.
  apply includes_cons in Hno as [H1 H2].
  change (String a body +:+ String JsString.newline "```")
    with (String a (body +:+ String JsString.newline "```")).
  cbn [JsString.includes]. rewrite IH by done.
  destruct (JsString.startsWith "```json" _) eqn:E; [|done].
  assert (JsString.startsWith "```" (String a body +:+ String JsString.newline "```") = true)
    as E' by (by apply (startsWith_trans _ "```json")).
  apply startsWith_fence_body in E'. congruence.
Qed.

Lemma append_assoc_string (s t u : string) : (s +:+ t) +:+ u = s +:+ (t +:+ u).
Proof. induction s as [|a s IH]; [done|]. by rewrite !append_String, IH. Qed.

Lemma drop_app s t : JsString.drop (String.length s) (s +:+ t) = t.
Proof. induction s as [|a s IH]; [by destruct t|]. exact IH. Qed.

(** The replacement at an opening fence that a line feed follows. *)
Lemma remove_fence_opening fence fuel rest :
  fence <> EmptyString ->
  JsString.remove_fence fence (S fuel) (fence +:+ String JsString.newline rest) =
  JsString.remove_fence fence fuel rest.
Proof.
  intros Hne. cbn [JsString.remove_fence].
  rewrite startsWith_app, drop_app.
  destruct fence as [|a fence]; [done|]. rewrite append_String.
  by change (Ascii.eqb JsString.newline JsString.newline) with true.
Qed.

Lemma fenced_closing lang body :
  fenced lang body =
  ("```" +:+ lang +:+ String JsString.newline body) +:+ String JsString.newline "```".
Proof.
  unfold fenced. by rewrite !append_assoc_string, append_String.
Qed.

Lemma length_fenced lang body :
  (String.length body + 8 <= String.length (fenced lang body))%nat.
Proof.
  unfold fenced. rewrite !length_app_string. cbn [String.length].
  rewrite length_app_string. cbn [String.length]. lia.
Qed.

Lemma trim_fenced lang body : JsString.trim (fenced lang body) = fenced lang body.
Proof.
  unfold JsString.trim.
  assert (JsString.trimStart (fenced lang body) = fenced lang body) as -> by done.
  rewrite fenced_closing. by rewrite trimEnd_app_kept.
Qed.

Lemma strip_fenced lang body :
  lang = "json" \/ lang = EmptyString ->
  JsString.includes "```" body = false ->
  strip_fences (fenced lang body) = body +:+ String JsString.newline EmptyString.
Proof.
  intros Hlang Hno. unfold strip_fences.
  pose proof (length_fenced lang body) as Hlen.
  destruct (String.length (fenced lang body)) as [|fuel] eqn:Hfuel; [lia|].
  set (rest := body +:+ String JsString.newline "```").
  destruct Hlang as [-> | ->].
  - change (fenced "json" body) with ("```json" +:+ String JsString.newline rest).
    rewrite remove_fence_opening by done.
    rewrite (remove_fence_absent "```json" rest) by by apply includes_json_closing.
    apply remove_fence_closing; [done|lia].
  - change (fenced EmptyString body) with ("```" +:+ String JsString.newline rest).
    rewrite (remove_fence_absent "```json").
    + rewrite remove_fence_opening by done. apply remove_fence_closing; [done|lia].
    + change ("```" +:+ String JsString.newline rest)
        with (String "`" (String "`" (String "`" (String JsString.newline rest)))).
      rewrite !includes_String.
      change (JsString.startsWith "```json"
                (String "`" (String "`" (String "`" (String JsString.newline rest)))))
        with false.
      change (JsString.startsWith "```json"
                (String "`" (String "`" (String JsString.newline rest))))
        with false.
      change (JsString.startsWith "```json" (String "`" (String JsString.newline rest)))
        with false.
      change (JsString.startsWith "```json" (String JsString.newline rest)) with false.
      cbn iota. by apply includes_json_closing.
Qed.

Lemma cleanedText_plain body :
  JsString.includes "```" body = false -> cleanedText body = JsString.trim body.
Proof.
  intros Hno. unfold cleanedText, strip_fences.
  apply (includes_trim _ body) in Hno.
  rewrite (remove_fence_absent "```json") by by apply (includes_prefix "```").
  rewrite remove_fence_absent by done. apply trim_idempotent.
Qed.

Lemma cleanedText_fenced lang body :
  lang = "json" \/ lang = EmptyString ->
  JsString.includes "```" body = false ->
  cleanedText (fenced lang body) = JsString.trim body.
Proof.
  intros Hlang Hno. unfold cleanedText.
  by rewrite trim_fenced, strip_fenced, trim_line_feed.
Qed.

(** X17: the code fence around an answer is transparent.  For a body
    without three backticks in a row, wrapped in a fence tagged [json] or
    untagged, the text handed to [JSON.parse] is the trimmed body, the same
    as for the bare body; so whenever the bare body gives a structured
    result, the fenced answer gives the same result. *)
Theorem fence_is_transparent JSON_parse lang body :
  lang = "json" \/ lang = EmptyString ->
  JsString.includes "```" body = false ->
  cleanedText (fenced lang body) = JsString.trim body /\
  cleanedText body = JsString.trim body /\
  forall d, parse_try JSON_parse body = Some d ->
    parseDetectionResult JSON_parse (fenced lang body) = d /\
    parseDetectionResult JSON_parse body = d.
Proof.
  intros Hlang Hno.
  pose proof (cleanedText_fenced lang body Hlang Hno) as Hf.
  pose proof (cleanedText_plain body Hno) as Hp.
  split; [done|]. split; [done|]. intros d Hd.
  assert (parse_try JSON_parse (fenced lang body) = Some d) as Hd'.
  { unfold parse_try in *. by rewrite Hf, <- Hp. }
  unfold parseDetectionResult. by rewrite Hd, Hd'.
Qed.

Lemma fence_is_transparent_witness :
  parseDetectionResult JsonRef.JSON_parse (fenced "json" flagged_answer) =
  parseDetectionResult JsonRef.JSON_parse flagged_answer.
Proof.
  destruct (fence_is_transparent JsonRef.JSON_parse "json" flagged_answer)
    as (_ & _ & H); [by left | reflexivity |].
  destruct (parse_try JsonRef.JSON_parse flagged_answer) as [d|] eqn:E.
  - destruct (H d eq_refl) as [-> ->]. reflexivity.
  - by vm_compute in E.
Defined.
